(** * Route sequencing engine of the driver application

    A shallow embedding of the algorithmic core of the application:

    - [RouteOptimizer]: [services/routeOptimizer.ts] (haversine distance,
      nearest-neighbour sequencing, deep link, total distance);
    - [DirectionsService]: [services/directionsService.ts] (haversine
      distance in metres, nearest navigation step, clean-up of the
      instructions, polyline decoding);
    - [RouteMapScreen]: [screens/RouteMapScreen.tsx] (the arrival effect,
      the filter of the stops, the saved order).

    The file has two levels of detail for JavaScript numbers.

    - In the first part arrays are references into a store and a number
      is a [number]: exact real arithmetic extended with [NaN] and the two
      infinities, with the IEEE 754 case analysis of the operators but
      without rounding, overflow and the sign of zero.  It carries the
      properties that do not depend on how a distance is rounded: which
      arrays a call allocates and modifies, that the result is a
      permutation, the link, the decoder, the navigation session, and
      that the two distance functions use different radii.
    - In [Binary64] a number is an IEEE 754 double of the kernel and the
      functions of [Math] are those of an arbitrary library that conforms
      to ECMA-262.  It carries the properties that depend on the computed
      distances: the distance itself, the order in which the optimizer
      takes the stops, the total distance, the nearest step and the
      filter of the stops. *)

From Stdlib Require Import Reals Lra Lia ZArith String Ascii List Permutation.
From stdpp Require Import base option list gmap strings.
From Stdlib Require Floats.
Import ListNotations.

Local Open Scope R_scope.

(** ** JavaScript numbers *)

Inductive number : Type :=
| Fin (x : R)
| PInf
| NInf
| NaN.

Definition n_neg (a : number) : number :=
  match a with
  | Fin x => Fin (- x)
  | PInf => NInf
  | NInf => PInf
  | NaN => NaN
  end.

Definition n_add (a b : number) : number :=
  match a, b with
  | NaN, _ | _, NaN => NaN
  | Fin x, Fin y => Fin (x + y)
  | PInf, NInf | NInf, PInf => NaN
  | PInf, _ | _, PInf => PInf
  | NInf, _ | _, NInf => NInf
  end.

Definition n_sub (a b : number) : number := n_add a (n_neg b).

(** The product of an infinity [inf] by the finite [x]. *)
Definition inf_times (inf : number) (x : R) : number :=
  if Rlt_dec 0 x then inf
  else if Rlt_dec x 0 then n_neg inf
  else NaN.

Definition n_mul (a b : number) : number :=
  match a, b with
  | NaN, _ | _, NaN => NaN
  | Fin x, Fin y => Fin (x * y)
  | Fin x, inf => inf_times inf x
  | inf, Fin y => inf_times inf y
  | PInf, PInf | NInf, NInf => PInf
  | PInf, NInf | NInf, PInf => NInf
  end.

Definition n_div (a b : number) : number :=
  match a, b with
  | NaN, _ | _, NaN => NaN
  | Fin x, Fin y =>
      if Req_dec_T y 0 then inf_times PInf x else Fin (x / y)
  | Fin _, _ => Fin 0
  | inf, Fin y => if Rlt_dec y 0 then n_neg inf else inf
  | _, _ => NaN
  end.

Definition n_sin (a : number) : number :=
  match a with Fin x => Fin (sin x) | _ => NaN end.

Definition n_cos (a : number) : number :=
  match a with Fin x => Fin (cos x) | _ => NaN end.

Definition n_sqrt (a : number) : number :=
  match a with
  | Fin x => if Rlt_dec x 0 then NaN else Fin (sqrt x)
  | PInf => PInf
  | _ => NaN
  end.

(** [Math.atan2] on the reals: the angle of the point [(x, y)]. *)
Definition atan2 (y x : R) : R :=
  if Rlt_dec 0 x then atan (y / x)
  else if Rlt_dec x 0 then
    (if Rlt_dec y 0 then atan (y / x) - PI else atan (y / x) + PI)
  else if Rlt_dec 0 y then PI / 2
  else if Rlt_dec y 0 then - (PI / 2)
  else 0.

Definition n_atan2 (y x : number) : number :=
  match y, x with
  | NaN, _ | _, NaN => NaN
  | Fin b, Fin a => Fin (atan2 b a)
  | Fin b, PInf => Fin 0
  | Fin b, NInf => if Rlt_dec b 0 then Fin (- PI) else Fin PI
  | PInf, Fin _ => Fin (PI / 2)
  | NInf, Fin _ => Fin (- (PI / 2))
  | PInf, PInf => Fin (PI / 4)
  | PInf, NInf => Fin (3 * PI / 4)
  | NInf, PInf => Fin (- (PI / 4))
  | NInf, NInf => Fin (- (3 * PI / 4))
  end.

(** [a < b]: false as soon as one side is [NaN]. *)
Definition n_lt (a b : number) : bool :=
  match a, b with
  | NaN, _ | _, NaN => false
  | Fin x, Fin y => if Rlt_dec x y then true else false
  | Fin _, PInf | NInf, Fin _ | NInf, PInf => true
  | _, _ => false
  end.

Definition Math_PI : number := Fin PI.
Definition Infinity : number := PInf.
Definition number_of_Z (z : Z) : number := Fin (IZR z).

(** ** Types ([types/index.ts]) *)

Inductive StopStatus : Type := pending | completed | skipped.

Record RouteStop : Type := mkRouteStop {
  id : string;
  routeId : string;
  clientId : string;
  clientName : string;
  clientSku : string;
  address : string;
  latitude : number;
  longitude : number;
  stopOrder : number;
  optimizedOrder : option number;
  status : StopStatus;
  completedAt : option string;
  notes : option string
}.

Record Location : Type := mkLocation {
  loc_latitude : number;
  loc_longitude : number
}.

(** [{ latitude: stop.latitude, longitude: stop.longitude }] *)
Definition location_of (stop : RouteStop) : Location :=
  {| loc_latitude := latitude stop; loc_longitude := longitude stop |}.

(** ** Arrays in the store

    A [RouteStop[]] value is a reference to a mutable array.  Two variables
    that hold the same reference see each other's [splice] and [push]. *)

Abbreviation ref := positive (only parsing).
Abbreviation heap := (gmap positive (list RouteStop)) (only parsing).

Inductive outcome (A : Type) : Type :=
| Done (a : A) (h : heap)
| TypeError
| OutOfFuel.
Arguments Done {A} a h.
Arguments TypeError {A}.
Arguments OutOfFuel {A}.

Definition JS (A : Type) : Type := heap -> outcome A.

#[global] Instance JS_ret : MRet JS := fun A a h => Done a h.

#[global] Instance JS_bind : MBind JS := fun A B k m h =>
  match m h with
  | Done a h' => k a h'
  | TypeError => TypeError
  | OutOfFuel => OutOfFuel
  end.

Definition throw {A} : JS A := fun _ => TypeError.
Definition out_of_fuel {A} : JS A := fun _ => OutOfFuel.

(** A fresh array holding [l]. *)
Definition array_new (l : list RouteStop) : JS ref := fun h =>
  let r := fresh (dom h) in Done r (<[r := l]> h).

Definition array_read (r : ref) : JS (list RouteStop) := fun h =>
  match h !! r with
  | Some l => Done l h
  | None => TypeError
  end.

Definition array_write (r : ref) (l : list RouteStop) : JS unit := fun h =>
  Done tt (<[r := l]> h).

(** [a.length] *)
Definition array_length (r : ref) : JS nat :=
  l ← array_read r; mret (length l).

(** [[...a]] *)
Definition array_copy (r : ref) : JS ref :=
  l ← array_read r; array_new l.

(** [a.splice(start, deleteCount)] for a non-negative [start]: removes the
    elements in place and returns them. *)
Definition array_splice (r : ref) (start deleteCount : nat) : JS (list RouteStop) :=
  l ← array_read r;
  array_write r (take start l ++ drop (start + deleteCount) l);;
  mret (take deleteCount (drop start l)).

(** [a.push(x)] *)
Definition array_push (r : ref) (x : RouteStop) : JS unit :=
  l ← array_read r; array_write r (l ++ [x]).

(** [a.forEach((x, index) => ...)] where the callback updates the captured
    variables [s]. *)
Fixpoint forEach {A St : Type} (f : St -> A -> nat -> St) (l : list A) (index : nat) (s : St) : St :=
  match l with
  | [] => s
  | x :: l' => forEach f l' (S index) (f s x index)
  end.

(** [a.slice(start, end)] with negative indices counted from the end. *)
Definition rel_index (len : nat) (i : Z) : nat :=
  if (i <? 0)%Z then Z.to_nat (Z.max (Z.of_nat len + i) 0)
  else Z.to_nat (Z.min i (Z.of_nat len)).

Definition slice {A : Type} (l : list A) (start end_ : Z) : list A :=
  let k := rel_index (length l) start in
  let final := rel_index (length l) end_ in
  take (final - k) (drop k l).

(** ** [services/routeOptimizer.ts] *)

Module RouteOptimizer.

Definition calculateDistance (lat1 lon1 lat2 lon2 : number) : number :=
  let R := Fin 6371 in
  let dLat := n_div (n_mul (n_sub lat2 lat1) Math_PI) (Fin 180) in
  let dLon := n_div (n_mul (n_sub lon2 lon1) Math_PI) (Fin 180) in
  let a :=
    n_add
      (n_mul (n_sin (n_div dLat (Fin 2))) (n_sin (n_div dLat (Fin 2))))
      (n_mul
         (n_mul
            (n_mul (n_cos (n_div (n_mul lat1 Math_PI) (Fin 180)))
                   (n_cos (n_div (n_mul lat2 Math_PI) (Fin 180))))
            (n_sin (n_div dLon (Fin 2))))
         (n_sin (n_div dLon (Fin 2)))) in
  let c := n_mul (Fin 2) (n_atan2 (n_sqrt a) (n_sqrt (n_sub (Fin 1) a))) in
  n_mul R c.

(** The callback of [unvisited.forEach]; the captured variables are
    [(nearestIndex, nearestDistance)]. *)
Definition scan (currentLocation : Location) (acc : nat * number)
    (stop : RouteStop) (index : nat) : nat * number :=
  let distance :=
    calculateDistance (loc_latitude currentLocation) (loc_longitude currentLocation)
                      (latitude stop) (longitude stop) in
  if n_lt distance (snd acc) then (index, distance) else acc.

Definition nearest_scan (currentLocation : Location) (pool : list RouteStop) : nat * number :=
  forEach (scan currentLocation) pool 0%nat (0%nat, Infinity).

(** One iteration of the [while] loop; returns the new [currentLocation]. *)
Definition loop_body (unvisited optimized : ref) (currentLocation : Location) : JS Location :=
  pool ← array_read unvisited;
  let nearestIndex := fst (nearest_scan currentLocation pool) in
  removed ← array_splice unvisited nearestIndex 1;
  match removed !! 0%nat with
  | None => throw
  | Some nearest =>
      array_push optimized nearest;;
      mret (location_of nearest)
  end.

(** [while (unvisited.length > 0) { ... }] *)
Fixpoint while_unvisited (fuel : nat) (unvisited optimized : ref)
    (currentLocation : Location) : JS unit :=
  n ← array_length unvisited;
  if (0 <? n)%nat then
    match fuel with
    | O => out_of_fuel
    | S fuel' =>
        currentLocation' ← loop_body unvisited optimized currentLocation;
        while_unvisited fuel' unvisited optimized currentLocation'
    end
  else mret tt.

Definition optimizeRoute (fuel : nat) (stops : ref) (startLocation : option Location) : JS ref :=
  n ← array_length stops;
  if (n <=? 1)%nat then mret stops
  else
    unvisited ← array_copy stops;
    optimized ← array_new [];
    currentLocation ←
      match startLocation with
      | Some l => mret l
      | None =>
          l ← array_read stops;
          match l !! 0%nat with
          | Some first => mret (location_of first)
          | None => throw
          end
      end;
    while_unvisited fuel unvisited optimized currentLocation;;
    mret optimized.

Section Url.

(** The conversion of a number to a string in a template literal. *)
Variable number_toString : number -> string.

Definition coords (lat lng : number) : string :=
  number_toString lat +:+ "," +:+ number_toString lng.

Definition generateGoogleMapsUrl (stops : list RouteStop) (startLocation : option Location) : string :=
  match stops with
  | [] => ""
  | first :: _ =>
      let origin :=
        match startLocation with
        | Some l => coords (loc_latitude l) (loc_longitude l)
        | None => coords (latitude first) (longitude first)
        end in
      let last := nth (length stops - 1) stops first in
      let destination := coords (latitude last) (longitude last) in
      let waypoints :=
        String.concat "|"
          (map (fun stop => coords (latitude stop) (longitude stop))
               (slice (slice stops (match startLocation with Some _ => 0 | None => 1 end) (-1)) 0 9)) in
      let url :=
        "https://www.google.com/maps/dir/?api=1&origin=" +:+ origin
        +:+ "&destination=" +:+ destination +:+ "&travelmode=driving" in
      if String.eqb waypoints "" then url
      else url +:+ "&waypoints=" +:+ waypoints
  end.

End Url.

End RouteOptimizer.

(** ** 32-bit integer operators

    The bitwise operators convert their operands with [ToInt32] ([NaN]
    becomes 0) and deliver a signed 32-bit integer; a shift count is taken
    modulo 32. *)

Definition to_int32 (z : Z) : Z :=
  ((z + 2147483648) mod 4294967296 - 2147483648)%Z.

(** A number that is an integer or [NaN] ([None]). *)
Definition ToInt32 (b : option Z) : Z :=
  match b with
  | Some v => to_int32 v
  | None => 0%Z
  end.

Definition js_and (a b : Z) : Z := Z.land (to_int32 a) (to_int32 b).
Definition js_or (a b : Z) : Z := Z.lor (to_int32 a) (to_int32 b).
Definition js_shl (a count : Z) : Z := to_int32 (Z.shiftl (to_int32 a) (count mod 32)).
Definition js_sar (a count : Z) : Z := Z.shiftr (to_int32 a) (count mod 32).
Definition js_not (a : Z) : Z := Z.lnot (to_int32 a).

(** [b >= k]: false for [NaN]. *)
Definition js_ge (b : option Z) (k : Z) : bool :=
  match b with
  | Some v => (k <=? v)%Z
  | None => false
  end.

(** ** [services/directionsService.ts] *)

Module DirectionsService.

Definition calculateDistance (lat1 lon1 lat2 lon2 : number) : number :=
  let R := Fin 6371000 in
  let phi1 := n_div (n_mul lat1 Math_PI) (Fin 180) in
  let phi2 := n_div (n_mul lat2 Math_PI) (Fin 180) in
  let dphi := n_div (n_mul (n_sub lat2 lat1) Math_PI) (Fin 180) in
  let dlambda := n_div (n_mul (n_sub lon2 lon1) Math_PI) (Fin 180) in
  let a :=
    n_add
      (n_mul (n_sin (n_div dphi (Fin 2))) (n_sin (n_div dphi (Fin 2))))
      (n_mul
         (n_mul (n_mul (n_cos phi1) (n_cos phi2)) (n_sin (n_div dlambda (Fin 2))))
         (n_sin (n_div dlambda (Fin 2)))) in
  let c := n_mul (Fin 2) (n_atan2 (n_sqrt a) (n_sqrt (n_sub (Fin 1) a))) in
  n_mul R c.

(** A string is the list of its UTF-16 code units.  [charCodeAt] gives
    [NaN] ([None]) past the end. *)
Definition charCodeAt (encoded : list Z) (index : nat) : option Z :=
  encoded !! index.

(** [do { b = encoded.charCodeAt(index++) - 63;
         result |= (b & 0x1f) << shift; shift += 5; } while (b >= 0x20)]
    Returns the new [index] and [result]. *)
Fixpoint read_chunks (fuel : nat) (encoded : list Z) (index : nat) (shift result : Z)
    : option (nat * Z) :=
  match fuel with
  | O => None
  | S fuel' =>
      let b := (fun c => (c - 63)%Z) <$> charCodeAt encoded index in
      let index := S index in
      let result := js_or result (js_shl (js_and (ToInt32 b) 31) shift) in
      let shift := (shift + 5)%Z in
      if js_ge b 32 then read_chunks fuel' encoded index shift result
      else Some (index, result)
  end.

(** [(result & 1) !== 0 ? ~(result >> 1) : result >> 1] *)
Definition unzigzag (result : Z) : Z :=
  if negb (js_and result 1 =? 0)%Z then js_not (js_sar result 1)
  else js_sar result 1.

(** [{ latitude: lat / 1e5, longitude: lng / 1e5 }] *)
Definition point_of (lat lng : Z) : Location :=
  {| loc_latitude := n_div (number_of_Z lat) (Fin 100000);
     loc_longitude := n_div (number_of_Z lng) (Fin 100000) |}.

(** [while (index < encoded.length) { ... }]; [bound] is the fuel of the
    two inner loops. *)
Fixpoint decode_loop (fuel bound : nat) (encoded : list Z) (index : nat)
    (lat lng : Z) (points : list Location) : option (list Location) :=
  if (index <? length encoded)%nat then
    match fuel with
    | O => None
    | S fuel' =>
        '(index, result) ← read_chunks bound encoded index 0 0;
        let dlat := unzigzag result in
        let lat := (lat + dlat)%Z in
        '(index, result) ← read_chunks bound encoded index 0 0;
        let dlng := unzigzag result in
        let lng := (lng + dlng)%Z in
        decode_loop fuel' bound encoded index lat lng (points ++ [point_of lat lng])
    end
  else Some points.

Definition decodePolyline_fuel (fuel : nat) (encoded : list Z) : option (list Location) :=
  decode_loop fuel fuel encoded 0 0 0 [].

(** The fuel [length encoded + 1] is enough for every string
    ([decodePolyline_total]). *)
Definition decodePolyline (encoded : list Z) : option (list Location) :=
  decodePolyline_fuel (S (length encoded)) encoded.

(** [/<[^>]*>/g] replaced by the empty string: a [<] opens a match when a
    [>] follows somewhere, and the match ends at the first [>].  [inside]
    tells that the scan is within a match. *)
Definition has_gt (s : list Z) : bool := existsb (Z.eqb 62) s.

Fixpoint strip_tags_from (inside : bool) (s : list Z) : list Z :=
  match s with
  | [] => []
  | c :: rest =>
      if inside then
        (if (c =? 62)%Z then strip_tags_from false rest else strip_tags_from true rest)
      else if ((c =? 60)%Z && has_gt rest)%bool then strip_tags_from true rest
      else c :: strip_tags_from false rest
  end.

Definition strip_tags (s : list Z) : list Z := strip_tags_from false s.

(** [s.replace(/pattern/g, replacement)] for a literal pattern: the matches
    are taken from the left and do not overlap.  [skip] counts the code
    units of the current match that are still to be passed over. *)
Definition starts_with (pattern s : list Z) : bool :=
  bool_decide (take (length pattern) s = pattern).

Fixpoint replace_from (pattern replacement : list Z) (skip : nat) (s : list Z) : list Z :=
  match s with
  | [] => []
  | c :: rest =>
      match skip with
      | S skip' => replace_from pattern replacement skip' rest
      | O =>
          if starts_with pattern s
          then replacement ++ replace_from pattern replacement (length pattern - 1) rest
          else c :: replace_from pattern replacement 0 rest
      end
  end.

Definition replace_all (pattern replacement s : list Z) : list Z :=
  replace_from pattern replacement 0 s.

(** The white space and line terminators that [trim] removes. *)
Definition is_space (c : Z) : bool :=
  ((9 <=? c) && (c <=? 13) || (c =? 32) || (c =? 160) || (c =? 5760)
   || (8192 <=? c) && (c <=? 8202) || (c =? 8232) || (c =? 8233)
   || (c =? 8239) || (c =? 8287) || (c =? 12288) || (c =? 65279))%Z%bool.

Fixpoint trim_start (s : list Z) : list Z :=
  match s with
  | [] => []
  | c :: rest => if is_space c then trim_start rest else s
  end.

Fixpoint trim_end (s : list Z) : list Z :=
  match s with
  | [] => []
  | c :: rest =>
      match trim_end rest with
      | [] => if is_space c then [] else [c]
      | rest' => c :: rest'
      end
  end.

Definition trim (s : list Z) : list Z := trim_end (trim_start s).

Definition amp_nbsp : list Z := [38; 110; 98; 115; 112; 59]%Z.
Definition amp_amp : list Z := [38; 97; 109; 112; 59]%Z.

Definition cleanHtmlInstructions (html : list Z) : list Z :=
  trim (replace_all amp_amp [38%Z] (replace_all amp_nbsp [32%Z] (strip_tags html))).

End DirectionsService.

(** The code units of an ASCII literal. *)
Definition code_units (s : string) : list Z :=
  map (fun c => Z.of_N (N_of_ascii c)) (list_ascii_of_string s).

(** ** The polyline encoding, as published

    Coordinates are integers (degrees times 1e5, rounded).  Each value is
    the difference from the previous point; it is shifted left by one bit
    and inverted when negative, cut into 5-bit chunks from the low end,
    each chunk but the last is or-ed with 0x20, and 63 is added. *)

Module PolylineFormat.

Definition zigzag (d : Z) : Z :=
  if (d <? 0)%Z then Z.lnot (Z.shiftl d 1) else Z.shiftl d 1.

Fixpoint encode_chunks (n : nat) (v : Z) : list Z :=
  match n with
  | O => [(v + 63)%Z]
  | S n' =>
      if (32 <=? v)%Z
      then (Z.lor (Z.land v 31) 32 + 63)%Z :: encode_chunks n' (Z.shiftr v 5)
      else [(v + 63)%Z]
  end.

(** [Z.log2 v] steps are enough to exhaust [v]. *)
Definition encode_unsigned (v : Z) : list Z :=
  encode_chunks (Z.to_nat (Z.log2 v)) v.

Definition encode_signed (d : Z) : list Z := encode_unsigned (zigzag d).

Fixpoint encode_from (prev_lat prev_lng : Z) (pts : list (Z * Z)) : list Z :=
  match pts with
  | [] => []
  | (lat, lng) :: pts' =>
      encode_signed (lat - prev_lat) ++ encode_signed (lng - prev_lng)
      ++ encode_from lat lng pts'
  end.

Definition encode (pts : list (Z * Z)) : list Z := encode_from 0 0 pts.

(** The differences that [encode] writes. *)
Fixpoint deltas_from (prev_lat prev_lng : Z) (pts : list (Z * Z)) : list Z :=
  match pts with
  | [] => []
  | (lat, lng) :: pts' =>
      (lat - prev_lat)%Z :: (lng - prev_lng)%Z :: deltas_from lat lng pts'
  end.

(** Every difference fits the 31 bits that the shifted value may use. *)
Definition in_range (pts : list (Z * Z)) : Prop :=
  Forall (fun d => (- 2 ^ 30 <= d < 2 ^ 30)%Z) (deltas_from 0 0 pts).

End PolylineFormat.

(** ** [screens/RouteMapScreen.tsx]: the navigation session

    The component state, the effect that detects the arrival at the current
    stop, and the handlers of the alert it raises.  A handler is a closure:
    it holds the [currentStopIndex] of the render in which the effect ran.
    The alerts that were raised and not answered yet are part of the state;
    the user may answer any of them.  The lists of stops are those loaded
    when the session starts; reloading them after a completion is not
    modelled. *)

Module RouteMapScreen.

Record Alert : Type := mkAlert {
  captured_index : nat;
  captured_stop : RouteStop
}.

Record Screen : Type := mkScreen {
  stops : list RouteStop;
  optimizedStops : list RouteStop;
  isOptimized : bool;
  currentLocation : option Location;
  isNavigating : bool;
  currentStopIndex : nat;
  alerts : list Alert
}.

Definition calculateDistanceToStop (from : Location) (stop : RouteStop) : number :=
  let R := Fin 6371 in
  let dLat := n_div (n_mul (n_sub (latitude stop) (loc_latitude from)) Math_PI) (Fin 180) in
  let dLon := n_div (n_mul (n_sub (longitude stop) (loc_longitude from)) Math_PI) (Fin 180) in
  let a :=
    n_add
      (n_mul (n_sin (n_div dLat (Fin 2))) (n_sin (n_div dLat (Fin 2))))
      (n_mul
         (n_mul
            (n_mul (n_cos (n_div (n_mul (loc_latitude from) Math_PI) (Fin 180)))
                   (n_cos (n_div (n_mul (latitude stop) Math_PI) (Fin 180))))
            (n_sin (n_div dLon (Fin 2))))
         (n_sin (n_div dLon (Fin 2)))) in
  let c := n_mul (Fin 2) (n_atan2 (n_sqrt a) (n_sqrt (n_sub (Fin 1) a))) in
  n_mul R c.

Definition stopsToUse (s : Screen) : list RouteStop :=
  if isOptimized s then optimizedStops s else stops s.

Definition raise_alert (s : Screen) (a : Alert) : Screen :=
  {| stops := stops s; optimizedStops := optimizedStops s;
     isOptimized := isOptimized s; currentLocation := currentLocation s;
     isNavigating := isNavigating s; currentStopIndex := currentStopIndex s;
     alerts := alerts s ++ [a] |}.

(** The arrival condition of the effect. *)
Definition arrived (s : Screen) (from : Location) (currentStop : RouteStop) : bool :=
  n_lt (calculateDistanceToStop from currentStop) (Fin (1 / 10))
  && (currentStopIndex s <? length (stopsToUse s) - 1)%nat.

(** The body of
    [useEffect(..., [currentLocation, isNavigating, currentStopIndex])]. *)
Definition arrival_effect (s : Screen) : Screen :=
  match isNavigating s, currentLocation s with
  | true, Some from =>
      if (length (stopsToUse s) =? 0)%nat then s
      else
        match stopsToUse s !! currentStopIndex s with
        | None => s
        | Some currentStop =>
            if arrived s from currentStop
            then raise_alert s (mkAlert (currentStopIndex s) currentStop)
            else s
        end
  | _, _ => s
  end.

(** [setCurrentLocation({...})]: a new object, so the effect runs. *)
Definition setCurrentLocation (l : Location) (s : Screen) : Screen :=
  arrival_effect
    {| stops := stops s; optimizedStops := optimizedStops s;
       isOptimized := isOptimized s; currentLocation := Some l;
       isNavigating := isNavigating s; currentStopIndex := currentStopIndex s;
       alerts := alerts s |}.

(** [setCurrentStopIndex(i)]: the effect runs when the value changes. *)
Definition setCurrentStopIndex (i : nat) (s : Screen) : Screen :=
  if (i =? currentStopIndex s)%nat then s
  else
    arrival_effect
      {| stops := stops s; optimizedStops := optimizedStops s;
         isOptimized := isOptimized s; currentLocation := currentLocation s;
         isNavigating := isNavigating s; currentStopIndex := i;
         alerts := alerts s |}.

(** [startInternalNavigation]: [setIsNavigating(true)] and
    [setCurrentStopIndex(0)] in one update. *)
Definition startInternalNavigation (s : Screen) : Screen :=
  if isNavigating s && (currentStopIndex s =? 0)%nat then s
  else
    arrival_effect
      {| stops := stops s; optimizedStops := optimizedStops s;
         isOptimized := isOptimized s; currentLocation := currentLocation s;
         isNavigating := true; currentStopIndex := 0;
         alerts := alerts s |}.

(** [stopInternalNavigation] *)
Definition stopInternalNavigation (s : Screen) : Screen :=
  {| stops := stops s; optimizedStops := optimizedStops s;
     isOptimized := isOptimized s; currentLocation := currentLocation s;
     isNavigating := false; currentStopIndex := currentStopIndex s;
     alerts := alerts s |}.

(** Either button of the [k]-th pending alert:
    [setCurrentStopIndex(currentStopIndex + 1)] with the captured index. *)
Definition answer_alert (k : nat) (s : Screen) : Screen :=
  match alerts s !! k with
  | None => s
  | Some a =>
      setCurrentStopIndex (captured_index a + 1)
        {| stops := stops s; optimizedStops := optimizedStops s;
           isOptimized := isOptimized s; currentLocation := currentLocation s;
           isNavigating := isNavigating s; currentStopIndex := currentStopIndex s;
           alerts := delete k (alerts s) |}
  end.

(** What happens during a session: the position watcher delivers a
    location, or the user answers a pending alert. *)
Inductive Event : Type :=
| PositionUpdate (l : Location)
| Answer (k : nat).

Definition step (s : Screen) (e : Event) : Screen :=
  match e with
  | PositionUpdate l => setCurrentLocation l s
  | Answer k => answer_alert k s
  end.

Definition run (s : Screen) (es : list Event) : Screen := fold_left step es s.

(** The indices that the session goes through. *)
Fixpoint index_trace (s : Screen) (es : list Event) : list nat :=
  match es with
  | [] => [currentStopIndex s]
  | e :: es' => currentStopIndex s :: index_trace (step s e) es'
  end.

Record OrderEntry : Type := mkOrderEntry {
  stopId : string;
  order : nat
}.

(** [optimized.map((stop, index) => ({ stopId: stop.id, order: index + 1 }))] *)
Definition optimizedOrder (optimized : list RouteStop) : list OrderEntry :=
  imap (fun index stop => {| stopId := id stop; order := index + 1 |}) optimized.

End RouteMapScreen.

(** ** The haversine formula on the reals *)

Definition rad (deg : R) : R := deg * PI / 180.

(** The quantity [a] of the formula. *)
Definition hav (lat1 lon1 lat2 lon2 : R) : R :=
  sin (rad (lat2 - lat1) / 2) * sin (rad (lat2 - lat1) / 2)
  + cos (rad lat1) * cos (rad lat2)
    * sin (rad (lon2 - lon1) / 2) * sin (rad (lon2 - lon1) / 2).

(** The angle [c] between the two points, seen from the centre. *)
Definition central_angle (lat1 lon1 lat2 lon2 : R) : R :=
  2 * atan2 (sqrt (hav lat1 lon1 lat2 lon2)) (sqrt (1 - hav lat1 lon1 lat2 lon2)).

(** ** Notions used in the statements *)

(** The distance that the scan of [optimizeRoute] compares. *)
Definition distance_from (currentLocation : Location) (stop : RouteStop) : number :=
  RouteOptimizer.calculateDistance
    (loc_latitude currentLocation) (loc_longitude currentLocation)
    (latitude stop) (longitude stop).

(** The order in which the loop of [optimizeRoute] takes the stops of
    [pool], as a function of the contents of the arrays. *)
Fixpoint nearest_neighbour (n : nat) (currentLocation : Location) (pool : list RouteStop)
    : list RouteStop :=
  match n with
  | O => []
  | S n' =>
      let nearestIndex := fst (RouteOptimizer.nearest_scan currentLocation pool) in
      match pool !! nearestIndex with
      | Some nearest =>
          nearest :: nearest_neighbour n' (location_of nearest) (delete nearestIndex pool)
      | None => []
      end
  end.

(** The contents of the array that [optimizeRoute] returns. *)
Definition optimizeRoute_order (stops : list RouteStop) (startLocation : option Location)
    : list RouteStop :=
  match stops with
  | [] | [_] => stops
  | first :: _ =>
      nearest_neighbour (length stops)
        (match startLocation with Some l => l | None => location_of first end) stops
  end.

(** The point that [decodePolyline] pushes for a pair of integers. *)
Definition scaled (p : Z * Z) : Location := DirectionsService.point_of (fst p) (snd p).

(** Latitude within 90 degrees and longitude within 180, in 1e-5 degree. *)
Definition geographic (p : Z * Z) : Prop :=
  (- 9000000 <= fst p <= 9000000)%Z /\ (- 18000000 <= snd p <= 18000000)%Z.

(** Every pending alert captured an index before the last one, and the
    index is at most the last one. *)
Definition within_route (s : RouteMapScreen.Screen) : Prop :=
  (RouteMapScreen.currentStopIndex s <= length (RouteMapScreen.stopsToUse s) - 1)%nat
  /\ Forall (fun a => (RouteMapScreen.captured_index a
                       < length (RouteMapScreen.stopsToUse s) - 1)%nat)
            (RouteMapScreen.alerts s).

(** ** Sample data *)

Definition stop_at (name : string) (lat lon : number) : RouteStop :=
  {| id := name; routeId := "route-1"; clientId := "client-" +:+ name;
     clientName := name; clientSku := "sku"; address := "address";
     latitude := lat; longitude := lon; stopOrder := Fin 0;
     optimizedOrder := None; status := pending;
     completedAt := None; notes := None |}.

Definition stop_A : RouteStop := stop_at "A" (Fin 0) (Fin 0).
Definition stop_B : RouteStop := stop_at "B" (Fin 0) (Fin 1).
Definition stop_C : RouteStop := stop_at "C" (Fin 0) (Fin 3).
Definition origin : Location := {| loc_latitude := Fin 0; loc_longitude := Fin 0 |}.

(** The example of the format's documentation. *)
Definition reference_points : list (Z * Z) :=
  [(3850000, -12020000); (4070000, -12095000); (4325200, -12645300)]%Z.

Definition reference_encoding : string := "_p~iF~ps|U_ulLnnqC_mqNvxq`@".

(** Three deliveries at one address, and a session on them before the
    route is started. *)
Definition same_address : list RouteStop :=
  [stop_at "first" (Fin 10) (Fin 20); stop_at "second" (Fin 10) (Fin 20);
   stop_at "third" (Fin 10) (Fin 20)].

Definition at_the_address : Location :=
  {| loc_latitude := Fin 10; loc_longitude := Fin 20 |}.

Definition idle_screen : RouteMapScreen.Screen :=
  {| RouteMapScreen.stops := same_address;
     RouteMapScreen.optimizedStops := [];
     RouteMapScreen.isOptimized := false;
     RouteMapScreen.currentLocation := None;
     RouteMapScreen.isNavigating := false;
     RouteMapScreen.currentStopIndex := 0;
     RouteMapScreen.alerts := [] |}.

(** The session under way at the address, at stop [i], with the alerts
    [pending]. *)
Definition navigating (i : nat) (pending : list RouteMapScreen.Alert) : RouteMapScreen.Screen :=
  {| RouteMapScreen.stops := same_address;
     RouteMapScreen.optimizedStops := [];
     RouteMapScreen.isOptimized := false;
     RouteMapScreen.currentLocation := Some at_the_address;
     RouteMapScreen.isNavigating := true;
     RouteMapScreen.currentStopIndex := i;
     RouteMapScreen.alerts := pending |}.

(** A stop whose coordinates are not numbers. *)
Definition stop_NaN (name : string) : RouteStop := stop_at name NaN NaN.

(** The angle brackets of a string of code units, in order. *)
Definition angles (s : list Z) : list Z :=
  List.filter (fun c => (c =? 60) || (c =? 62))%Z%bool s.

(** ** The distance and the sequencing on IEEE 754 doubles

    The values of [calculateDistance] decide which stop the optimizer takes
    next and what the total is, and they are doubles: a product can
    overflow to [Infinity], a sum can round, and [NaN] compares false with
    everything.  In this part a number is a binary64 float of the kernel
    ([PrimFloat], specified by [FloatAxioms]); [*], [/], [+], [-] and [<]
    are the IEEE 754 operations, rounded to nearest, ties to even, and
    [Math.sqrt] is the correctly rounded square root.

    ECMA-262 leaves the values of [Math.sin], [Math.cos] and [Math.atan2]
    to the implementation ("implementation-approximated") and fixes them on
    special arguments only.  The three functions are the fields of a
    [MathLibrary]; [ecma262] collects the prescribed values that the
    formula meets.  What is proved for every library holds for the one of
    the engine that runs the application. *)

Module Binary64.

Import PrimFloat.
#[local] Set Warnings "-inexact-float".
Local Open Scope float_scope.

(** [Number.isNaN] and [Number.isFinite] *)
Definition isNaN (x : float) : bool :=
  match FloatOps.Prim2SF x with
  | SpecFloat.S754_nan => true
  | _ => false
  end.

Definition isFinite (x : float) : bool :=
  match FloatOps.Prim2SF x with
  | SpecFloat.S754_zero _ | SpecFloat.S754_finite _ _ _ => true
  | _ => false
  end.

(** The sign bit: [true] for a negative number and for [-0]. *)
Definition sign_bit (x : float) : bool :=
  match FloatOps.Prim2SF x with
  | SpecFloat.S754_zero s | SpecFloat.S754_infinity s | SpecFloat.S754_finite s _ _ => s
  | SpecFloat.S754_nan => false
  end.

Definition Math_PI : float := 3.141592653589793.
Definition Infinity : float := infinity.
Definition Math_sqrt (x : float) : float := sqrt x.

Record MathLibrary : Type := mkMathLibrary {
  Math_sin : float -> float;
  Math_cos : float -> float;
  Math_atan2 : float -> float -> float
}.

(** ECMA-262, sections Math.sin, Math.cos and Math.atan2. *)
Record ecma262 (M : MathLibrary) : Prop := mk_ecma262 {
  sin_NaN : Math_sin M nan = nan;
  sin_zero : Math_sin M 0 = 0;
  sin_neg_zero : Math_sin M neg_zero = neg_zero;
  sin_infinity : Math_sin M infinity = nan;
  sin_neg_infinity : Math_sin M neg_infinity = nan;
  cos_NaN : Math_cos M nan = nan;
  cos_zero : Math_cos M 0 = 1;
  cos_neg_zero : Math_cos M neg_zero = 1;
  cos_infinity : Math_cos M infinity = nan;
  cos_neg_infinity : Math_cos M neg_infinity = nan;
  atan2_NaN_y : forall x, Math_atan2 M nan x = nan;
  atan2_NaN_x : forall y, Math_atan2 M y nan = nan;
  atan2_zero_positive : forall x, (0 <? x) = true -> Math_atan2 M 0 x = 0;
  atan2_zero_zero : Math_atan2 M 0 0 = 0;
  atan2_neg_zero_positive : forall x, (0 <? x) = true -> Math_atan2 M neg_zero x = neg_zero;
  atan2_neg_zero_zero : Math_atan2 M neg_zero 0 = neg_zero
}.

(** Two properties of every implementation in use, for which the standard
    does not ask: the sine is odd, and the cosine of a finite number is
    between -1 and 1. *)
Definition odd_sine (M : MathLibrary) : Prop :=
  forall x, Math_sin M (- x) = - Math_sin M x.

Definition bounded_cosine (M : MathLibrary) : Prop :=
  forall x, isFinite x = true -> (abs (Math_cos M x) <=? 1) = true.

(** [types/index.ts] *)
Record RouteStop : Type := mkRouteStop {
  id : string;
  routeId : string;
  clientId : string;
  clientName : string;
  clientSku : string;
  address : string;
  latitude : float;
  longitude : float;
  stopOrder : float;
  optimizedOrder : option float;
  status : StopStatus;
  completedAt : option string;
  notes : option string
}.

Record Location : Type := mkLocation {
  loc_latitude : float;
  loc_longitude : float
}.

(** [{ latitude: stop.latitude, longitude: stop.longitude }] *)
Definition location_of (stop : RouteStop) : Location :=
  {| loc_latitude := latitude stop; loc_longitude := longitude stop |}.

(** How a call ends. *)
Inductive completion (A : Type) : Type :=
| Returned (a : A)
| Thrown
| NoFuel.
Arguments Returned {A} a.
Arguments Thrown {A}.
Arguments NoFuel {A}.

(** [a.splice(start, deleteCount)] on the contents of an array: the removed
    elements and what is left. *)
Definition splice {A : Type} (l : list A) (start deleteCount : nat) : list A * list A :=
  (take deleteCount (drop start l), take start l ++ drop (start + deleteCount) l).

(** *** [services/routeOptimizer.ts] *)

Module RouteOptimizer.

Section Engine.

Variable M : MathLibrary.

Definition calculateDistance (lat1 lon1 lat2 lon2 : float) : float :=
  let R := 6371 in
  let dLat := (lat2 - lat1) * Math_PI / 180 in
  let dLon := (lon2 - lon1) * Math_PI / 180 in
  let a :=
    Math_sin M (dLat / 2) * Math_sin M (dLat / 2) +
    Math_cos M (lat1 * Math_PI / 180) * Math_cos M (lat2 * Math_PI / 180) *
    Math_sin M (dLon / 2) * Math_sin M (dLon / 2) in
  let c := 2 * Math_atan2 M (Math_sqrt a) (Math_sqrt (1 - a)) in
  R * c.

(** The callback of [unvisited.forEach]; the captured variables are
    [(nearestIndex, nearestDistance)]. *)
Definition scan (currentLocation : Location) (acc : nat * float)
    (stop : RouteStop) (index : nat) : nat * float :=
  let distance :=
    calculateDistance (loc_latitude currentLocation) (loc_longitude currentLocation)
                      (latitude stop) (longitude stop) in
  if distance <? snd acc then (index, distance) else acc.

Definition nearest_scan (currentLocation : Location) (pool : list RouteStop) : nat * float :=
  forEach (scan currentLocation) pool 0%nat (0%nat, Infinity).

(** The variables of the loop.  The two arrays are created by the call and
    no one else holds them: they are modelled by their contents. *)
Record Locals : Type := mkLocals {
  unvisited : list RouteStop;
  optimized : list RouteStop;
  currentLocation : Location
}.

(** One iteration of the [while] loop. *)
Definition loop_body (v : Locals) : completion Locals :=
  let nearestIndex := fst (nearest_scan (currentLocation v) (unvisited v)) in
  let '(removed, rest) := splice (unvisited v) nearestIndex 1 in
  match removed !! 0%nat with
  | None => Thrown
  | Some nearest =>
      Returned {| unvisited := rest;
                  optimized := optimized v ++ [nearest];
                  currentLocation := location_of nearest |}
  end.

(** [while (unvisited.length > 0) { ... }] *)
Fixpoint while_unvisited (fuel : nat) (v : Locals) : completion Locals :=
  if (0 <? length (unvisited v))%nat then
    match fuel with
    | O => NoFuel
    | S fuel' =>
        match loop_body v with
        | Returned v' => while_unvisited fuel' v'
        | Thrown => Thrown
        | NoFuel => NoFuel
        end
    end
  else Returned v.

Definition optimizeRoute (fuel : nat) (stops : list RouteStop) (startLocation : option Location)
    : completion (list RouteStop) :=
  if (length stops <=? 1)%nat then Returned stops
  else
    match
      match startLocation with
      | Some l => Some l
      | None => location_of <$> stops !! 0%nat
      end
    with
    | None => Thrown
    | Some current =>
        match while_unvisited fuel
                {| unvisited := stops; optimized := []; currentLocation := current |} with
        | Returned v => Returned (optimized v)
        | Thrown => Thrown
        | NoFuel => NoFuel
        end
    end.

(** The callback of [stops.forEach]; the captured variables are
    [(total, current)]. *)
Definition add_leg (acc : float * Location) (stop : RouteStop) (_ : nat) : float * Location :=
  (fst acc
   + calculateDistance (loc_latitude (snd acc)) (loc_longitude (snd acc))
                       (latitude stop) (longitude stop),
   location_of stop).

Definition calculateTotalDistance (stops : list RouteStop) (startLocation : option Location) : float :=
  match stops with
  | [] => 0
  | first :: _ =>
      let current :=
        match startLocation with
        | Some l => l
        | None => location_of first
        end in
      fst (forEach add_leg stops 0%nat (0, current))
  end.

End Engine.

End RouteOptimizer.

(** *** [services/directionsService.ts] *)

Module DirectionsService.

Section Engine.

Variable M : MathLibrary.

Definition calculateDistance (lat1 lon1 lat2 lon2 : float) : float :=
  let R := 6371e3 in
  let phi1 := (lat1 * Math_PI) / 180 in
  let phi2 := (lat2 * Math_PI) / 180 in
  let dphi := ((lat2 - lat1) * Math_PI) / 180 in
  let dlambda := ((lon2 - lon1) * Math_PI) / 180 in
  let a :=
    Math_sin M (dphi / 2) * Math_sin M (dphi / 2) +
    Math_cos M phi1 * Math_cos M phi2 * Math_sin M (dlambda / 2) * Math_sin M (dlambda / 2) in
  let c := 2 * Math_atan2 M (Math_sqrt a) (Math_sqrt (1 - a)) in
  R * c.







End Engine.

End DirectionsService.

(** *** [screens/RouteMapScreen.tsx] *)

Module RouteMapScreen.

(** A number in a condition: false for [+0], [-0] and [NaN]. *)
Definition truthy (x : float) : bool := negb (x =? 0) && negb (isNaN x).

(** [a !== b] on numbers. *)
Definition strict_neq (a b : float) : bool := negb (a =? b).

(** The test of the filter in [loadRouteDetails]. *)
Definition hasValidCoords (stop : RouteStop) : bool :=
  truthy (latitude stop) && truthy (longitude stop)
  && negb (isNaN (latitude stop)) && negb (isNaN (longitude stop))
  && strict_neq (latitude stop) 0 && strict_neq (longitude stop) 0.

Definition validStops (stops : list RouteStop) : list RouteStop :=
  List.filter hasValidCoords stops.

Section Engine.

Variable M : MathLibrary.

Definition calculateDistanceToStop (from : Location) (stop : RouteStop) : float :=
  let R := 6371 in
  let dLat := (latitude stop - loc_latitude from) * Math_PI / 180 in
  let dLon := (longitude stop - loc_longitude from) * Math_PI / 180 in
  let a :=
    Math_sin M (dLat / 2) * Math_sin M (dLat / 2) +
    Math_cos M (loc_latitude from * Math_PI / 180) * Math_cos M (latitude stop * Math_PI / 180) *
    Math_sin M (dLon / 2) * Math_sin M (dLon / 2) in
  let c := 2 * Math_atan2 M (Math_sqrt a) (Math_sqrt (1 - a)) in
  R * c.

(** The arrival condition of the effect, for the stop of index
    [currentStopIndex] among [count] stops. *)
Definition arrived (from : Location) (currentStop : RouteStop) (currentStopIndex count : nat)
    : bool :=
  (calculateDistanceToStop from currentStop <? 0.1)
  && (currentStopIndex <? count - 1)%nat.

End Engine.

End RouteMapScreen.

(** *** A library

    One implementation of the three functions, for the examples: the
    polynomial kernels of fdlibm, on an argument reduced by multiples of
    [pi/2]. *)

Module Polynomial.

Definition kernel_sin (x y : float) : float :=
  let z := x * x in
  let v := z * x in
  let r := 8.33333333332248946124e-03
           + z * (-1.98412698298579493134e-04
           + z * (2.75573137070700676789e-06
           + z * (-2.50507602534068634195e-08
           + z * 1.58969099521155010221e-10))) in
  if y =? 0 then x + v * (-1.66666666666666324348e-01 + z * r)
  else x - ((z * (0.5 * y - v * r) - y) - v * (-1.66666666666666324348e-01)).

Definition kernel_cos (x y : float) : float :=
  let z := x * x in
  let r := z * (4.16666666666666019037e-02
           + z * (-1.38888888888741095749e-03
           + z * (2.48015872894767294178e-05
           + z * (-2.75573143513906633035e-07
           + z * (2.08757232129817482790e-09
           + z * (-1.13596475577881948265e-11)))))) in
  1 - (0.5 * z - (z * r - x * y)).

(** The nearest integer, for [|t| < 2^51]. *)
Definition rint (t : float) : float := (t + 6755399441055744) - 6755399441055744.

(** [x = n * pi/2 + (r + w)]: the quadrant [n mod 4], in [-2 .. 2], and the
    remainder in two parts. *)
Definition reduce (x : float) : float * float * float :=
  let n := rint (x * 6.36619772367581382433e-01) in
  let r := x - n * 1.57079632673412561417e+00 in
  let w := n * 6.07710050650619224932e-11 in
  let y0 := r - w in
  let y1 := (r - y0) - w in
  (n - 4 * rint (n * 0.25), y0, y1).

(** For [0 < x]. *)
Definition sin_positive (x : float) : float :=
  if x =? infinity then nan
  else if x <=? 0.7853981633974483 then kernel_sin x 0
  else if 1073741824 <=? x then 0
  else
    let '(q, r, w) := reduce x in
    if q =? 0 then kernel_sin r w
    else if q =? 1 then kernel_cos r w
    else if q =? -1 then - kernel_cos r w
    else - kernel_sin r w.

Definition sin (x : float) : float :=
  if x <? 0 then - sin_positive (- x)
  else if 0 <? x then sin_positive x
  else x.

(** [r] brought back between -1 and 1. *)
Definition within_one (r : float) : float :=
  if r <? -1 then -1 else if r <=? 1 then r else 1.

Definition cos (x : float) : float :=
  let t := abs x in
  if isNaN t then nan
  else if t =? infinity then nan
  else
    within_one
      (if t <=? 0.7853981633974483 then kernel_cos t 0
       else if 1073741824 <=? t then 1
       else
         let '(q, r, w) := reduce t in
         if q =? 0 then kernel_cos r w
         else if q =? 1 then - kernel_sin r w
         else if q =? -1 then kernel_sin r w
         else - kernel_cos r w).

(** For [0 <= x], not [NaN]. *)
Definition atan_positive (x : float) : float :=
  if 73786976294838206464 <=? x then 1.57079632679489655800e+00 + 6.12323399573676603587e-17
  else if x <? 3.725290298461914e-09 then x
  else
    let '(hi, lo, t) :=
      if x <? 0.4375 then (0, 0, x)
      else if x <? 0.6875 then
        (4.63647609000806093515e-01, 2.26987774529616870924e-17, (2 * x - 1) / (2 + x))
      else if x <? 1.1875 then
        (7.85398163397448278999e-01, 3.06161699786838301793e-17, (x - 1) / (x + 1))
      else if x <? 2.4375 then
        (9.82793723247329054082e-01, 1.39033110312309984516e-17, (x - 1.5) / (1 + 1.5 * x))
      else
        (1.57079632679489655800e+00, 6.12323399573676603587e-17, -1 / x) in
    let z := t * t in
    let w := z * z in
    let s1 := z * (3.33333333333329318027e-01
              + w * (1.42857142725034663711e-01
              + w * (9.09088713343650656196e-02
              + w * (6.66107313738753120669e-02
              + w * (4.97687799461593236017e-02
              + w * 1.62858201153657823623e-02))))) in
    let s2 := w * (-1.99999999998764832476e-01
              + w * (-1.11111104054623557880e-01
              + w * (-7.69187620504482999495e-02
              + w * (-5.83357013379057348645e-02
              + w * (-3.65315727442169155270e-02))))) in
    if x <? 0.4375 then t - t * (s1 + s2)
    else hi - ((t * (s1 + s2) - lo) - t).

(** [z] with the sign of [y]. *)
Definition with_sign_of (y z : float) : float := if sign_bit y then - z else z.

Definition atan2 (y x : float) : float :=
  if isNaN x then nan
  else if isNaN y then nan
  else if y =? 0 then
    (if sign_bit x then with_sign_of y Math_PI else y)
  else if x =? 0 then with_sign_of y (Math_PI / 2)
  else if abs x =? infinity then
    (if abs y =? infinity then
       with_sign_of y (if sign_bit x then 3 * Math_PI / 4 else Math_PI / 4)
     else with_sign_of y (if sign_bit x then Math_PI else 0))
  else if abs y =? infinity then with_sign_of y (Math_PI / 2)
  else
    let z := atan_positive (abs (y / x)) in
    if sign_bit x then with_sign_of y (Math_PI - (z - 1.2246467991473531772e-16))
    else with_sign_of y z.

Definition library : MathLibrary :=
  {| Math_sin := sin; Math_cos := cos; Math_atan2 := atan2 |}.

End Polynomial.

(** *** Notions used in the statements *)

Section Notions.

Variable M : MathLibrary.

(** The quantity [a] of the formula, and the angle [c]. *)
Definition hav (lat1 lon1 lat2 lon2 : float) : float :=
  Math_sin M ((lat2 - lat1) * Math_PI / 180 / 2) * Math_sin M ((lat2 - lat1) * Math_PI / 180 / 2) +
  Math_cos M (lat1 * Math_PI / 180) * Math_cos M (lat2 * Math_PI / 180) *
  Math_sin M ((lon2 - lon1) * Math_PI / 180 / 2) * Math_sin M ((lon2 - lon1) * Math_PI / 180 / 2).

Definition angle (lat1 lon1 lat2 lon2 : float) : float :=
  2 * Math_atan2 M (Math_sqrt (hav lat1 lon1 lat2 lon2))
                   (Math_sqrt (1 - hav lat1 lon1 lat2 lon2)).

(** Finite coordinates, and a cosine of the latitude whose square is
    finite. *)
Definition tame (lat lon : float) : bool :=
  isFinite lat && isFinite lon
  && isFinite (Math_cos M (lat * Math_PI / 180) * Math_cos M (lat * Math_PI / 180)).

Definition finite_location (l : Location) : Prop :=
  isFinite (loc_latitude l) = true /\ isFinite (loc_longitude l) = true.

Definition finite_stop (s : RouteStop) : Prop :=
  isFinite (latitude s) = true /\ isFinite (longitude s) = true.

(** The legs of a path, from left to right, and their sum as the loop
    accumulates it: from 0, one leg after the other. *)
Fixpoint legs (path : list Location) : list float :=
  match path with
  | p :: ((q :: _) as rest) =>
      RouteOptimizer.calculateDistance M (loc_latitude p) (loc_longitude p)
                                         (loc_latitude q) (loc_longitude q)
      :: legs rest
  | _ => []
  end.

Definition sum_numbers (l : list float) : float := fold_left add l 0.

(** The computed distance that the scan of [optimizeRoute] compares. *)
Definition distance_from (currentLocation : Location) (stop : RouteStop) : float :=
  RouteOptimizer.calculateDistance M
    (loc_latitude currentLocation) (loc_longitude currentLocation)
    (latitude stop) (longitude stop).

(** The order in which the loop of [optimizeRoute] takes the stops of
    [pool]. *)
Fixpoint nearest_neighbour (n : nat) (currentLocation : Location) (pool : list RouteStop)
    : list RouteStop :=
  match n with
  | O => []
  | S n' =>
      let nearestIndex := fst (RouteOptimizer.nearest_scan M currentLocation pool) in
      match pool !! nearestIndex with
      | Some nearest =>
          nearest :: nearest_neighbour n' (location_of nearest) (delete nearestIndex pool)
      | None => []
      end
  end.

Definition optimizeRoute_order (stops : list RouteStop) (startLocation : option Location)
    : list RouteStop :=
  match stops with
  | [] | [_] => stops
  | first :: _ =>
      nearest_neighbour (length stops)
        (match startLocation with Some l => l | None => location_of first end) stops
  end.

(** Stop [i] of [pool] is the first at the least computed distance: the
    distance is a number below [Infinity], no stop of the pool is at a
    smaller one, and every stop before it is at a greater one or at [NaN]. *)
Definition first_least (currentLocation : Location) (pool : list RouteStop) (i : nat) : Prop :=
  exists nearest,
    pool !! i = Some nearest
    /\ (distance_from currentLocation nearest <? Infinity) = true
    /\ (forall j stop, pool !! j = Some stop ->
          (distance_from currentLocation stop <? distance_from currentLocation nearest) = false)
    /\ (forall j stop, (j < i)%nat -> pool !! j = Some stop ->
          (distance_from currentLocation stop <=? distance_from currentLocation nearest) = false).

(** No stop of [pool] is at a computed distance below [Infinity]: each
    distance is [NaN] or [Infinity]. *)
Definition none_below_Infinity (currentLocation : Location) (pool : list RouteStop) : Prop :=
  forall j stop, pool !! j = Some stop ->
    (distance_from currentLocation stop <? Infinity) = false.

(** What the scan has found when it has gone through [seen]. *)
Definition scanned (currentLocation : Location) (seen : list RouteStop) (acc : nat * float) : Prop :=
  (acc = (0%nat, Infinity) /\ none_below_Infinity currentLocation seen)
  \/ (first_least currentLocation seen (fst acc)
      /\ distance_from currentLocation <$> seen !! fst acc = Some (snd acc)).

(** The stop that an iteration takes. *)
Definition selected (currentLocation : Location) (pool : list RouteStop) (i : nat) : Prop :=
  first_least currentLocation pool i
  \/ (none_below_Infinity currentLocation pool /\ i = 0%nat).

Inductive greedy_order : Location -> list RouteStop -> list RouteStop -> Prop :=
| greedy_done (currentLocation : Location) :
    greedy_order currentLocation [] []
| greedy_next (currentLocation : Location) (pool : list RouteStop)
    (i : nat) (nearest : RouteStop) (rest : list RouteStop) :
    pool !! i = Some nearest ->
    selected currentLocation pool i ->
    greedy_order (location_of nearest) (delete i pool) rest ->
    greedy_order currentLocation pool (nearest :: rest).

(** The rule as the specification words it: the next stop is at a distance
    that is at most the distance of every stop of the pool, and no stop
    before it is as near. *)
Inductive least_first : Location -> list RouteStop -> list RouteStop -> Prop :=
| least_first_done (currentLocation : Location) :
    least_first currentLocation [] []
| least_first_next (currentLocation : Location) (pool : list RouteStop)
    (i : nat) (nearest : RouteStop) (rest : list RouteStop) :
    pool !! i = Some nearest ->
    (forall j stop, pool !! j = Some stop ->
       (distance_from currentLocation nearest <=? distance_from currentLocation stop) = true) ->
    (forall j stop, (j < i)%nat -> pool !! j = Some stop ->
       (distance_from currentLocation stop <=? distance_from currentLocation nearest) = false) ->
    least_first (location_of nearest) (delete i pool) rest ->
    least_first currentLocation pool (nearest :: rest).


End Notions.

(** *** Sample data *)

Definition stop_at (name : string) (lat lon : float) : RouteStop :=
  {| id := name; routeId := "route-1"; clientId := "client-" +:+ name;
     clientName := name; clientSku := "sku"; address := "address";
     latitude := lat; longitude := lon; stopOrder := 0;
     optimizedOrder := None; status := pending;
     completedAt := None; notes := None |}.

Definition stop_A : RouteStop := stop_at "A" 0 0.
Definition stop_B : RouteStop := stop_at "B" 0 1.
Definition stop_C : RouteStop := stop_at "C" 0 3.
Definition origin : Location := {| loc_latitude := 0; loc_longitude := 0 |}.

(** Two stops on the equator, one ulp of longitude apart. *)
Definition stop_near : RouteStop := stop_at "near" 0 13.
Definition stop_far : RouteStop := stop_at "far" 0 13.000000000000002.

(** A finite latitude whose product by [Math.PI] overflows. *)
Definition stop_beyond : RouteStop := stop_at "beyond" 1e308 0.
Definition beyond : Location := {| loc_latitude := 1e308; loc_longitude := 0 |}.

(** A stop whose coordinates are not numbers. *)
Definition stop_NaN : RouteStop := stop_at "NaN" nan nan.


End Binary64.

(** * Properties *)

(** ** Numbers *)

Lemma n_div_fin (x y : R) : y <> 0 -> n_div (Fin x) (Fin y) = Fin (x / y).
Proof.
  intros Hy. unfold n_div. destruct (Req_dec_T y 0) as [E | _]; [contradiction | reflexivity].
Qed.

Lemma n_sqrt_fin (x : R) : 0 <= x -> n_sqrt (Fin x) = Fin (sqrt x).
Proof.
  intros Hx. unfold n_sqrt. destruct (Rlt_dec x 0) as [L | _]; [lra | reflexivity].
Qed.

Lemma n_lt_fin (x y : R) : n_lt (Fin x) (Fin y) = true <-> x < y.
Proof.
  unfold n_lt. destruct (Rlt_dec x y); split; intros; try easy.
Qed.

Lemma n_lt_fin_false (x y : R) : n_lt (Fin x) (Fin y) = false <-> y <= x.
Proof.
  unfold n_lt. destruct (Rlt_dec x y); split; intros; try easy; lra.
Qed.

(** ** The haversine formula *)

Lemma sin_sqr_half (x : R) : sin (x / 2) * sin (x / 2) = (1 - cos x) / 2.
Proof.
  replace (cos x) with (cos (2 * (x / 2))) by (f_equal; field).
  rewrite cos_2a_sin. field.
Qed.

Lemma rad_minus (x y : R) : rad (x - y) = rad x - rad y.
Proof. unfold rad. field. Qed.

Lemma convex_bounds (A B s : R) :
  0 <= s <= 1 -> 0 <= A <= 1 -> 0 <= B <= 1 -> 0 <= A + s * (B - A) <= 1.
Proof. intros. split; nra. Qed.

(** [a] is a mean of [sin²(dLat/2)] and [cos²((lat1+lat2)/2)], weighted by
    [sin²(dLon/2)]: the two square roots are never taken of a negative. *)
Lemma hav_bounds (lat1 lon1 lat2 lon2 : R) : 0 <= hav lat1 lon1 lat2 lon2 <= 1.
Proof.
  unfold hav.
  set (A := sin (rad (lat2 - lat1) / 2) * sin (rad (lat2 - lat1) / 2)).
  set (s := sin (rad (lon2 - lon1) / 2) * sin (rad (lon2 - lon1) / 2)).
  set (B := A + cos (rad lat1) * cos (rad lat2)).
  replace (A + cos (rad lat1) * cos (rad lat2) * sin (rad (lon2 - lon1) / 2)
             * sin (rad (lon2 - lon1) / 2)) with (A + s * (B - A))
    by (unfold B, s; ring).
  assert (HA : A = (1 - cos (rad lat2 - rad lat1)) / 2)
    by (unfold A; rewrite sin_sqr_half, rad_minus; reflexivity).
  assert (HB : B = (1 + cos (rad lat2 + rad lat1)) / 2).
  { unfold B. rewrite HA, cos_minus, cos_plus. field. }
  assert (Hs : s = (1 - cos (rad (lon2 - lon1))) / 2)
    by (unfold s; apply sin_sqr_half).
  pose proof (COS_bound (rad (lon2 - lon1))).
  pose proof (COS_bound (rad lat2 - rad lat1)).
  pose proof (COS_bound (rad lat2 + rad lat1)).
  apply convex_bounds; lra.
Qed.

Lemma hav_sym (lat1 lon1 lat2 lon2 : R) :
  hav lat1 lon1 lat2 lon2 = hav lat2 lon2 lat1 lon1.
Proof.
  unfold hav.
  replace (rad (lat1 - lat2) / 2) with (- (rad (lat2 - lat1) / 2)) by (unfold rad; field).
  replace (rad (lon1 - lon2) / 2) with (- (rad (lon2 - lon1) / 2)) by (unfold rad; field).
  rewrite !sin_neg. ring.
Qed.

Lemma hav_same (lat lon : R) : hav lat lon lat lon = 0.
Proof.
  unfold hav, rad.
  replace ((lat - lat) * PI / 180 / 2) with 0 by field.
  replace ((lon - lon) * PI / 180 / 2) with 0 by field.
  rewrite sin_0. ring.
Qed.

Lemma atan2_0_1 : atan2 0 1 = 0.
Proof.
  unfold atan2. destruct (Rlt_dec 0 1) as [_ | N]; [| lra].
  replace (0 / 1) with 0 by field. apply atan_0.
Qed.

(** On finite coordinates the three embedded copies of the formula compute
    [R * c] without leaving the reals. *)
Lemma central_angle_fin (lat1 lon1 lat2 lon2 : R) :
  let a :=
    n_add
      (n_mul (n_sin (n_div (n_div (n_mul (n_sub (Fin lat2) (Fin lat1)) Math_PI) (Fin 180)) (Fin 2)))
             (n_sin (n_div (n_div (n_mul (n_sub (Fin lat2) (Fin lat1)) Math_PI) (Fin 180)) (Fin 2))))
      (n_mul
         (n_mul
            (n_mul (n_cos (n_div (n_mul (Fin lat1) Math_PI) (Fin 180)))
                   (n_cos (n_div (n_mul (Fin lat2) Math_PI) (Fin 180))))
            (n_sin (n_div (n_div (n_mul (n_sub (Fin lon2) (Fin lon1)) Math_PI) (Fin 180)) (Fin 2))))
         (n_sin (n_div (n_div (n_mul (n_sub (Fin lon2) (Fin lon1)) Math_PI) (Fin 180)) (Fin 2)))) in
  n_mul (Fin 2) (n_atan2 (n_sqrt a) (n_sqrt (n_sub (Fin 1) a)))
  = Fin (central_angle lat1 lon1 lat2 lon2).
Proof.
  intros a. subst a. unfold Math_PI, n_sub. cbn [n_neg n_add n_mul].
  rewrite !n_div_fin by lra. cbn [n_sin n_cos n_mul n_add n_neg].
  pose proof (hav_bounds lat1 lon1 lat2 lon2) as Hb.
  assert (E : sin ((lat2 + - lat1) * PI / 180 / 2) * sin ((lat2 + - lat1) * PI / 180 / 2)
              + cos (lat1 * PI / 180) * cos (lat2 * PI / 180)
                * sin ((lon2 + - lon1) * PI / 180 / 2) * sin ((lon2 + - lon1) * PI / 180 / 2)
              = hav lat1 lon1 lat2 lon2) by reflexivity.
  rewrite E. rewrite n_sqrt_fin by lra. cbn [n_neg n_add].
  rewrite n_sqrt_fin by lra. reflexivity.
Qed.

Lemma optimizer_distance_fin (lat1 lon1 lat2 lon2 : R) :
  RouteOptimizer.calculateDistance (Fin lat1) (Fin lon1) (Fin lat2) (Fin lon2)
  = Fin (6371 * central_angle lat1 lon1 lat2 lon2).
Proof.
  unfold RouteOptimizer.calculateDistance. cbv zeta.
  rewrite central_angle_fin. reflexivity.
Qed.

Lemma directions_distance_fin (lat1 lon1 lat2 lon2 : R) :
  DirectionsService.calculateDistance (Fin lat1) (Fin lon1) (Fin lat2) (Fin lon2)
  = Fin (6371000 * central_angle lat1 lon1 lat2 lon2).
Proof.
  unfold DirectionsService.calculateDistance. cbv zeta.
  rewrite central_angle_fin. reflexivity.
Qed.

Lemma central_angle_same (lat lon : R) : central_angle lat lon lat lon = 0.
Proof.
  unfold central_angle. rewrite hav_same.
  replace (1 - 0) with 1 by ring. rewrite sqrt_0, sqrt_1, atan2_0_1. ring.
Qed.

(** Along the equator, eastwards and for less than half a turn, the angle
    is the difference of the longitudes. *)
Lemma equator_angle (lon1 lon2 : R) :
  0 <= lon2 - lon1 < 180 -> central_angle 0 lon1 0 lon2 = rad (lon2 - lon1).
Proof.
  intros Hd. pose proof PI_RGT_0 as Hpi.
  set (w := rad (lon2 - lon1) / 2).
  assert (Hw : 0 <= w < PI / 2) by (unfold w, rad; split; nra).
  assert (Hh : hav 0 lon1 0 lon2 = sin w * sin w).
  { unfold hav. fold w. replace (rad (0 - 0) / 2) with 0 by (unfold rad; field).
    replace (rad 0) with 0 by (unfold rad; field). rewrite sin_0, cos_0. ring. }
  assert (Hs : 0 <= sin w) by (apply sin_ge_0; lra).
  assert (Hc : 0 < cos w) by (apply cos_gt_0; lra).
  assert (Hk : 1 - sin w * sin w = cos w * cos w).
  { pose proof (sin2_cos2 w) as E. unfold Rsqr in E. lra. }
  unfold central_angle. rewrite Hh, Hk, !sqrt_square by lra.
  unfold atan2. destruct (Rlt_dec 0 (cos w)) as [_ | N]; [| contradiction].
  change (sin w / cos w) with (tan w). rewrite atan_tan by lra.
  unfold w. field.
Qed.

Lemma optimizer_distance_same (lat lon : R) :
  RouteOptimizer.calculateDistance (Fin lat) (Fin lon) (Fin lat) (Fin lon) = Fin 0.
Proof.
  rewrite optimizer_distance_fin, central_angle_same. f_equal. ring.
Qed.

(** ** C4: kilometres in the optimizer, metres in the directions service *)

(** C4, as stated, fails: one degree along the equator is about 111 in the
    optimizer (kilometres) and about 111195 in the directions service
    (metres). *)
Lemma C4_units_differ :
  DirectionsService.calculateDistance (Fin 0) (Fin 0) (Fin 0) (Fin 1)
  <> RouteOptimizer.calculateDistance (Fin 0) (Fin 0) (Fin 0) (Fin 1).
Proof.
  rewrite directions_distance_fin, optimizer_distance_fin.
  rewrite equator_angle by lra. unfold rad.
  pose proof PI_RGT_0. intros E. inversion E. lra.
Qed.

(** ** The scan for the nearest stop *)

Section Scan.

Variable currentLocation : Location.

Lemma scan_index_range (pool : list RouteStop) (i : nat) (acc : nat * number) :
  let r := forEach (RouteOptimizer.scan currentLocation) pool i acc in
  fst r = fst acc \/ (i <= fst r < i + length pool)%nat.
Proof.
  revert i acc. induction pool as [| stop pool IH]; intros i acc; cbn [forEach].
  - left. reflexivity.
  - cbn zeta in IH |- *.
    destruct (IH (S i) (RouteOptimizer.scan currentLocation acc stop i)) as [E | Hr].
    + rewrite E. unfold RouteOptimizer.scan.
      destruct (n_lt _ (snd acc)); cbn [fst length]; [right; lia | left; reflexivity].
    + right. cbn [length]. lia.
Qed.

(** The index that [splice] receives is inside the pool. *)
Lemma nearest_index_lt (pool : list RouteStop) :
  pool <> [] -> (fst (RouteOptimizer.nearest_scan currentLocation pool) < length pool)%nat.
Proof.
  intros Hne. unfold RouteOptimizer.nearest_scan.
  pose proof (scan_index_range pool 0 (0%nat, Infinity)) as H. cbn zeta in H.
  destruct pool as [| stop pool]; [contradiction |].
  cbn [fst length] in *. lia.
Qed.

Lemma nearest_lookup (pool : list RouteStop) :
  pool <> [] ->
  exists nearest, pool !! fst (RouteOptimizer.nearest_scan currentLocation pool) = Some nearest.
Proof.
  intros Hne. apply lookup_lt_is_Some_2, nearest_index_lt, Hne.
Qed.

End Scan.

(** ** Running programs on the store *)

Lemma bind_Done {A B : Type} (m : JS A) (k : A -> JS B) (h h' : heap) (a : A) :
  m h = Done a h' -> (m ≫= k) h = k a h'.
Proof. intros E. unfold mbind, JS_bind. rewrite E. reflexivity. Qed.

Lemma array_read_Done (h : heap) (r : ref) (l : list RouteStop) :
  h !! r = Some l -> array_read r h = Done l h.
Proof. intros E. unfold array_read. rewrite E. reflexivity. Qed.

Lemma array_length_Done (h : heap) (r : ref) (l : list RouteStop) :
  h !! r = Some l -> array_length r h = Done (length l) h.
Proof.
  intros E. unfold array_length. erewrite bind_Done by (apply array_read_Done, E).
  reflexivity.
Qed.

Lemma array_splice_Done (h : heap) (r : ref) (l : list RouteStop) (start count : nat) :
  h !! r = Some l ->
  array_splice r start count h
  = Done (take count (drop start l)) (<[r := take start l ++ drop (start + count) l]> h).
Proof.
  intros E. unfold array_splice. erewrite bind_Done by (apply array_read_Done, E).
  reflexivity.
Qed.

Lemma array_push_Done (h : heap) (r : ref) (l : list RouteStop) (x : RouteStop) :
  h !! r = Some l -> array_push r x h = Done tt (<[r := l ++ [x]]> h).
Proof.
  intros E. unfold array_push. erewrite bind_Done by (apply array_read_Done, E).
  reflexivity.
Qed.

Lemma array_copy_Done (h : heap) (r : ref) (l : list RouteStop) :
  h !! r = Some l ->
  array_copy r h = Done (fresh (dom h)) (<[fresh (dom h) := l]> h).
Proof.
  intros E. unfold array_copy. erewrite bind_Done by (apply array_read_Done, E).
  reflexivity.
Qed.

Lemma fresh_not_allocated (h : heap) (r : ref) (l : list RouteStop) :
  h !! r = Some l -> fresh (dom h) <> r.
Proof.
  intros E Heq. apply (is_fresh (dom h)). rewrite Heq.
  apply elem_of_dom. exists l. exact E.
Qed.

Lemma splice_one (pool : list RouteStop) (i : nat) (nearest : RouteStop) :
  pool !! i = Some nearest ->
  take 1 (drop i pool) !! 0%nat = Some nearest
  /\ take i pool ++ drop (i + 1) pool = delete i pool.
Proof.
  intros E. split.
  - rewrite lookup_take_lt by lia. rewrite lookup_drop, Nat.add_0_r. exact E.
  - rewrite delete_take_drop. do 2 f_equal. lia.
Qed.

(** One iteration on a non-empty pool: the stop at the index found by the
    scan moves from [unvisited] to the end of [optimized]. *)
Lemma loop_body_Done (h : heap) (unvisited optimized : ref)
    (currentLocation : Location) (pool out : list RouteStop) :
  unvisited <> optimized ->
  h !! unvisited = Some pool ->
  h !! optimized = Some out ->
  pool <> [] ->
  let i := fst (RouteOptimizer.nearest_scan currentLocation pool) in
  exists nearest,
    pool !! i = Some nearest
    /\ RouteOptimizer.loop_body unvisited optimized currentLocation h
       = Done (location_of nearest)
              (<[optimized := out ++ [nearest]]> (<[unvisited := delete i pool]> h)).
Proof.
  intros Hne Hu Ho Hpool i.
  destruct (nearest_lookup currentLocation pool Hpool) as [nearest Hn]. fold i in Hn.
  exists nearest. split; [exact Hn |].
  destruct (splice_one pool i nearest Hn) as [Hrem Hdel].
  unfold RouteOptimizer.loop_body.
  erewrite bind_Done by (apply array_read_Done, Hu). fold i.
  erewrite bind_Done by (apply array_splice_Done, Hu).
  rewrite Hrem, Hdel.
  erewrite bind_Done
    by (apply array_push_Done; rewrite lookup_insert_ne by exact Hne; exact Ho).
  reflexivity.
Qed.

(** The loop empties [unvisited] and appends its stops to [optimized] in
    the order [nearest_neighbour]; no other array changes.  A fuel of the
    length of the pool is enough. *)
Lemma while_unvisited_Done (fuel : nat) :
  forall (h : heap) (unvisited optimized : ref) (currentLocation : Location)
         (pool out : list RouteStop),
    unvisited <> optimized ->
    h !! unvisited = Some pool ->
    h !! optimized = Some out ->
    (length pool <= fuel)%nat ->
    exists h',
      RouteOptimizer.while_unvisited fuel unvisited optimized currentLocation h = Done tt h'
      /\ h' !! unvisited = Some []
      /\ h' !! optimized
         = Some (out ++ nearest_neighbour (length pool) currentLocation pool)
      /\ (forall r, r <> unvisited -> r <> optimized -> h' !! r = h !! r).
Proof.
  induction fuel as [| fuel IH]; intros h u o cur pool out Hne Hu Ho Hlen.
  - destruct pool as [| s pool]; [| cbn in Hlen; lia].
    exists h. cbn [RouteOptimizer.while_unvisited].
    erewrite bind_Done by (apply array_length_Done, Hu). cbn.
    rewrite app_nil_r. auto.
  - cbn [RouteOptimizer.while_unvisited].
    erewrite bind_Done by (apply array_length_Done, Hu).
    destruct pool as [| s pool].
    { exists h. cbn. rewrite app_nil_r. auto. }
    change (0 <? length (s :: pool))%nat with true. cbv iota.
    destruct (loop_body_Done h u o cur (s :: pool) out Hne Hu Ho ltac:(discriminate))
      as (nearest & Hn & Hbody).
    erewrite bind_Done by exact Hbody.
    set (i := fst (RouteOptimizer.nearest_scan cur (s :: pool))) in *.
    set (h1 := <[o := out ++ [nearest]]> (<[u := delete i (s :: pool)]> h)).
    assert (Hlen' : length (s :: pool) = S (length (delete i (s :: pool)))).
    { pose proof (delete_Permutation _ _ _ Hn) as Hp.
      apply Permutation_length in Hp. exact Hp. }
    destruct (IH h1 u o (location_of nearest) (delete i (s :: pool)) (out ++ [nearest]))
      as (h' & Hrun & Hu' & Ho' & Hframe).
    + exact Hne.
    + unfold h1. rewrite lookup_insert_ne by congruence. apply lookup_insert_eq.
    + unfold h1. apply lookup_insert_eq.
    + lia.
    + exists h'. split; [exact Hrun |]. split; [exact Hu' |]. split.
      * rewrite Ho', Hlen'. cbn [nearest_neighbour]. fold i. rewrite Hn.
        rewrite <- app_assoc. reflexivity.
      * intros r Hru Hro. rewrite Hframe by assumption.
        unfold h1. rewrite !lookup_insert_ne by congruence. reflexivity.
Qed.

(** The order is a rearrangement of the pool, whatever the distances. *)
Lemma nearest_neighbour_Permutation (n : nat) :
  forall (currentLocation : Location) (pool : list RouteStop),
    n = length pool -> Permutation (nearest_neighbour n currentLocation pool) pool.
Proof.
  induction n as [| n IH]; intros cur pool Hn.
  - destruct pool; [constructor | discriminate].
  - cbn [nearest_neighbour].
    destruct (nearest_lookup cur pool) as [nearest E].
    { intros ->. discriminate. }
    rewrite E. pose proof (delete_Permutation _ _ _ E) as Hp.
    apply Permutation_trans with (2 := Permutation_sym Hp).
    constructor. apply IH.
    apply Permutation_length in Hp. cbn in Hp. lia.
Qed.

Lemma optimizeRoute_order_Permutation (stops : list RouteStop) (start : option Location) :
  Permutation (optimizeRoute_order stops start) stops.
Proof.
  destruct stops as [| first [| second rest]]; try reflexivity.
  apply nearest_neighbour_Permutation. reflexivity.
Qed.

(** [optimizeRoute] returns; the array it returns holds
    [optimizeRoute_order]; every array that existed before the call is left
    as it was; the array returned is the argument itself for at most one
    stop, and a new array otherwise. *)
Lemma optimizeRoute_Done (h : heap) (stops_ref : ref) (stops : list RouteStop)
    (start : option Location) (fuel : nat) :
  h !! stops_ref = Some stops ->
  (length stops <= fuel)%nat ->
  exists (result : ref) (h' : heap),
    RouteOptimizer.optimizeRoute fuel stops_ref start h = Done result h'
    /\ h' !! result = Some (optimizeRoute_order stops start)
    /\ (forall r l, h !! r = Some l -> h' !! r = Some l)
    /\ ((length stops <= 1)%nat -> result = stops_ref /\ h' = h)
    /\ ((2 <= length stops)%nat -> h !! result = None).
Proof.
  intros Hs Hfuel. unfold RouteOptimizer.optimizeRoute.
  erewrite bind_Done by (apply array_length_Done, Hs).
  destruct stops as [| first [| second rest]].
  - exists stops_ref, h. cbn. repeat split; auto; lia.
  - exists stops_ref, h. cbn. repeat split; auto; lia.
  - set (stops := first :: second :: rest) in *.
    change (length stops <=? 1)%nat with false. cbv iota.
    set (u := fresh (dom h)).
    set (h1 := <[u := stops]> h).
    set (o := fresh (dom h1)).
    set (h2 := <[o := []]> h1).
    assert (Hu1 : h1 !! u = Some stops) by apply lookup_insert_eq.
    assert (Huo : u <> o).
    { intros E. symmetry in E. revert E. eapply fresh_not_allocated, Hu1. }
    assert (Hold : forall r l, h !! r = Some l -> r <> u /\ r <> o).
    { intros r l Hr. split; apply not_eq_sym.
      - eapply fresh_not_allocated, Hr.
      - apply (fresh_not_allocated h1 r l). unfold h1.
        rewrite lookup_insert_ne; [exact Hr |].
        eapply fresh_not_allocated, Hr. }
    erewrite bind_Done by (apply array_copy_Done, Hs). fold u h1.
    erewrite bind_Done by reflexivity. fold o h2.
    set (cur := match start with Some l => l | None => location_of first end).
    assert (Hcur :
      (match start with
       | Some l => mret l
       | None =>
           l ← array_read stops_ref;
           match l !! 0%nat with
           | Some first => mret (location_of first)
           | None => throw
           end
       end) h2 = Done cur h2).
    { destruct start as [l |]; [reflexivity |].
      destruct (Hold _ _ Hs) as [Hru Hro].
      erewrite bind_Done
        by (apply array_read_Done; unfold h2, h1;
            rewrite !lookup_insert_ne by congruence; exact Hs).
      reflexivity. }
    erewrite bind_Done by exact Hcur.
    destruct (while_unvisited_Done fuel h2 u o cur stops []) as (h' & Hrun & _ & Ho' & Hframe).
    + exact Huo.
    + unfold h2. rewrite lookup_insert_ne by congruence. exact Hu1.
    + unfold h2. apply lookup_insert_eq.
    + exact Hfuel.
    + exists o, h'. erewrite bind_Done by exact Hrun.
      split; [reflexivity |]. split; [exact Ho' |]. split; [| split].
      * intros r l Hr. destruct (Hold _ _ Hr) as [Hru Hro].
        rewrite Hframe by assumption. unfold h2, h1.
        rewrite !lookup_insert_ne by congruence. exact Hr.
      * cbn. lia.
      * intros _. destruct (h !! o) as [l |] eqn:E; [| reflexivity].
        destruct (Hold _ _ E) as [_ Hoo]. contradiction.
Qed.

(** ** C1: the result is a permutation of the input *)

(** C1. For every array of stops and every optional start location,
    [optimizeRoute] returns (a fuel of the number of stops is enough), and
    the array it returns is a permutation of the input: same length, same
    multiset of stops and of ids.  Each iteration of the loop takes exactly
    one stop out of the unvisited pool, whatever the distances are ([NaN]
    included). *)
Theorem C1_optimizeRoute_permutation :
  (forall (h : heap) (stops_ref : ref) (stops : list RouteStop)
          (start : option Location) (fuel : nat),
      h !! stops_ref = Some stops ->
      (length stops <= fuel)%nat ->
      exists (result : ref) (h' : heap) (ordered : list RouteStop),
        RouteOptimizer.optimizeRoute fuel stops_ref start h = Done result h'
        /\ h' !! result = Some ordered
        /\ Permutation ordered stops
        /\ length ordered = length stops
        /\ Permutation (map id ordered) (map id stops))
  /\ (forall (h : heap) (unvisited optimized : ref) (currentLocation : Location)
             (pool out : list RouteStop),
         unvisited <> optimized ->
         h !! unvisited = Some pool ->
         h !! optimized = Some out ->
         pool <> [] ->
         exists (currentLocation' : Location) (h' : heap) (pool' : list RouteStop),
           RouteOptimizer.loop_body unvisited optimized currentLocation h
           = Done currentLocation' h'
           /\ h' !! unvisited = Some pool'
           /\ length pool = S (length pool')).
Proof.
  split.
  - intros h stops_ref stops start fuel Hs Hfuel.
    destruct (optimizeRoute_Done h stops_ref stops start fuel Hs Hfuel)
      as (result & h' & Hrun & Hres & _).
    pose proof (optimizeRoute_order_Permutation stops start) as Hp.
    exists result, h', (optimizeRoute_order stops start).
    split; [exact Hrun |]. split; [exact Hres |]. split; [exact Hp |].
    split; [apply Permutation_length, Hp | apply Permutation_map, Hp].
  - intros h u o cur pool out Hne Hu Ho Hpool.
    destruct (loop_body_Done h u o cur pool out Hne Hu Ho Hpool) as (nearest & Hn & Hbody).
    eexists _, _, _. split; [exact Hbody |]. split.
    + rewrite lookup_insert_ne by congruence. apply lookup_insert_eq.
    + pose proof (delete_Permutation _ _ _ Hn) as Hp.
      apply Permutation_length in Hp. exact Hp.
Qed.

Lemma C1_optimizeRoute_permutation_witness :
  exists (result : ref) (h' : heap) (ordered : list RouteStop),
    RouteOptimizer.optimizeRoute 3 1%positive None
      ({[1%positive := [stop_NaN "x"; stop_NaN "y"; stop_A]]} : heap)
    = Done result h'
    /\ h' !! result = Some ordered
    /\ Permutation ordered [stop_NaN "x"; stop_NaN "y"; stop_A]
    /\ length ordered = 3%nat
    /\ Permutation (map id ordered) ["x"; "y"; "A"].
Proof.
  destruct C1_optimizeRoute_permutation as [Hperm _].
  apply (Hperm {[1%positive := [stop_NaN "x"; stop_NaN "y"; stop_A]]} 1%positive
               [stop_NaN "x"; stop_NaN "y"; stop_A] None 3%nat).
  - reflexivity.
  - simpl. lia.
Defined.

(** ** C8: the input array is not modified *)

(** C8, as stated, fails for a single stop: the array returned is the
    argument itself (reference 1, allocated before the call), so the call
    does not return a new sequence. *)
Lemma C8_single_stop_returns_argument :
  RouteOptimizer.optimizeRoute 1 1%positive None ({[1%positive := [stop_A]]} : heap)
  = Done 1%positive {[1%positive := [stop_A]]}
  /\ ~ (exists (result : ref) (h' : heap),
          RouteOptimizer.optimizeRoute 1 1%positive None ({[1%positive := [stop_A]]} : heap)
          = Done result h'
          /\ ({[1%positive := [stop_A]]} : heap) !! result = None).
Proof.
  assert (E : RouteOptimizer.optimizeRoute 1 1%positive None
                ({[1%positive := [stop_A]]} : heap)
              = Done 1%positive {[1%positive := [stop_A]]}) by reflexivity.
  split; [exact E |]. intros (result & h' & Hrun & Hnew).
  rewrite E in Hrun. inversion Hrun. subst. discriminate.
Qed.

(** C8, amended. [optimizeRoute] never modifies its input array, nor any
    array that existed before the call: after the call the input holds the
    same stops in the same order.  For two stops or more the result is a
    newly allocated array; for at most one stop the result is the input
    array itself and the store is unchanged. *)
Theorem C8_optimizeRoute_frame (h : heap) (stops_ref : ref) (stops : list RouteStop)
    (start : option Location) (fuel : nat) :
  h !! stops_ref = Some stops ->
  (length stops <= fuel)%nat ->
  exists (result : ref) (h' : heap),
    RouteOptimizer.optimizeRoute fuel stops_ref start h = Done result h'
    /\ h' !! stops_ref = Some stops
    /\ (forall r l, h !! r = Some l -> h' !! r = Some l)
    /\ ((2 <= length stops)%nat -> h !! result = None /\ result <> stops_ref)
    /\ ((length stops <= 1)%nat -> result = stops_ref /\ h' = h).
Proof.
  intros Hs Hfuel.
  destruct (optimizeRoute_Done h stops_ref stops start fuel Hs Hfuel)
    as (result & h' & Hrun & _ & Hframe & Hsmall & Hnew).
  exists result, h'. split; [exact Hrun |]. split; [apply Hframe, Hs |].
  split; [exact Hframe |]. split; [| exact Hsmall].
  intros Hlen. specialize (Hnew Hlen). split; [exact Hnew |].
  intros ->. congruence.
Qed.

Lemma C8_optimizeRoute_frame_witness :
  exists (result : ref) (h' : heap),
    RouteOptimizer.optimizeRoute 3 1%positive (Some origin)
      ({[1%positive := [stop_C; stop_A; stop_B]]} : heap)
    = Done result h'
    /\ h' !! 1%positive = Some [stop_C; stop_A; stop_B]
    /\ (forall r l, ({[1%positive := [stop_C; stop_A; stop_B]]} : heap) !! r = Some l ->
                    h' !! r = Some l)
    /\ ((2 <= 3)%nat ->
        ({[1%positive := [stop_C; stop_A; stop_B]]} : heap) !! result = None
        /\ result <> 1%positive)
    /\ ((3 <= 1)%nat -> result = 1%positive
                        /\ h' = {[1%positive := [stop_C; stop_A; stop_B]]}).
Proof.
  apply (C8_optimizeRoute_frame {[1%positive := [stop_C; stop_A; stop_B]]} 1%positive
           [stop_C; stop_A; stop_B] (Some origin) 3%nat).
  - reflexivity.
  - simpl. lia.
Defined.

(** ** Strings and slices *)

Lemma append_nil_r (s : string) : s +:+ "" = s.
Proof.
  induction s as [| c s IH]; [reflexivity |].
  change (String c s +:+ "") with (String c (s +:+ "")). rewrite IH. reflexivity.
Qed.

Lemma append_assoc (a b c : string) : (a +:+ b) +:+ c = a +:+ (b +:+ c).
Proof.
  induction a as [| x a IH]; [reflexivity |].
  change (String x ((a +:+ b) +:+ c) = String x (a +:+ (b +:+ c))).
  rewrite IH. reflexivity.
Qed.

Lemma append_nonempty (a b : string) : a <> "" -> a +:+ b <> "".
Proof.
  destruct a as [| x a]; [contradiction |]. intros _.
  change (String x (a +:+ b) <> ""). discriminate.
Qed.

Lemma nth_last {A : Type} (l : list A) (d : A) : nth (length l - 1) l d = List.last l d.
Proof.
  induction l as [| x [| y l] IH]; try reflexivity.
  cbn [length List.last] in *. rewrite <- IH.
  replace (S (S (length l)) - 1)%nat with (S (S (length l) - 1)) by lia. reflexivity.
Qed.

Lemma slice_all_but_last {A : Type} (l : list A) : slice l 0 (-1) = removelast l.
Proof.
  unfold slice, rel_index. cbn [Z.ltb Z.compare].
  rewrite removelast_firstn_len. cbn [drop].
  replace (Z.to_nat (Z.min 0 (Z.of_nat (length l)))) with 0%nat by lia.
  f_equal. lia.
Qed.

Lemma slice_inner {A : Type} (x : A) (l : list A) : slice (x :: l) 1 (-1) = removelast l.
Proof.
  unfold slice, rel_index. cbn [Z.ltb Z.compare length].
  replace (Z.to_nat (Z.min 1 (Z.of_nat (S (length l))))) with 1%nat by lia.
  rewrite removelast_firstn_len. cbn [drop]. f_equal. lia.
Qed.

Lemma slice_first_nine {A : Type} (l : list A) : slice l 0 9 = take 9 l.
Proof.
  unfold slice, rel_index. cbn [Z.ltb Z.compare].
  replace (Z.to_nat (Z.min 0 (Z.of_nat (length l)))) with 0%nat by lia.
  rewrite Nat.sub_0_r, drop_0.
  destruct (Nat.le_gt_cases 9 (length l)) as [Hle | Hgt].
  - f_equal. lia.
  - replace (Z.to_nat (Z.min 9 (Z.of_nat (length l)))) with (length l) by lia.
    rewrite firstn_all. symmetry. apply take_ge. lia.
Qed.

Section UrlProperties.

Variable number_toString : number -> string.

Let coords_of (stop : RouteStop) : string :=
  RouteOptimizer.coords number_toString (latitude stop) (longitude stop).

Lemma coords_nonempty (lat lng : number) :
  RouteOptimizer.coords number_toString lat lng <> "".
Proof.
  unfold RouteOptimizer.coords.
  destruct (number_toString lat); discriminate.
Qed.

Lemma joined_nonempty (stop : RouteStop) (stops : list RouteStop) :
  String.concat "|" (map coords_of (stop :: stops)) <> "".
Proof.
  destruct stops as [| stop' stops]; cbn [map String.concat].
  - apply coords_nonempty.
  - apply append_nonempty, coords_nonempty.
Qed.

End UrlProperties.

(** The link for a non-empty list of stops. *)
Lemma generateGoogleMapsUrl_cons (number_toString : number -> string)
    (first : RouteStop) (rest : list RouteStop) (start : option Location) :
  let coords_of stop :=
    RouteOptimizer.coords number_toString (latitude stop) (longitude stop) in
  let origin :=
    match start with
    | Some l => RouteOptimizer.coords number_toString (loc_latitude l) (loc_longitude l)
    | None => coords_of first
    end in
  let between :=
    match start with
    | Some _ => removelast (first :: rest)
    | None => removelast rest
    end in
  RouteOptimizer.generateGoogleMapsUrl number_toString (first :: rest) start
  = "https://www.google.com/maps/dir/?api=1&origin=" +:+ origin
    +:+ "&destination=" +:+ coords_of (List.last (first :: rest) first)
    +:+ "&travelmode=driving"
    +:+ match take 9 between with
        | [] => ""
        | waypoints => "&waypoints=" +:+ String.concat "|" (map coords_of waypoints)
        end.
Proof.
  intros coords_of origin between.
  unfold RouteOptimizer.generateGoogleMapsUrl.
  rewrite nth_last, slice_first_nine.
  assert (Hb : slice (first :: rest) (match start with Some _ => 0 | None => 1 end) (-1)
               = between).
  { unfold between. destruct start; [apply slice_all_but_last | apply slice_inner]. }
  rewrite Hb. fold coords_of. fold origin.
  destruct (take 9 between) as [| w ws] eqn:Hw.
  - cbn [map String.concat]. rewrite String.eqb_refl. reflexivity.
  - pose proof (joined_nonempty number_toString w ws) as Hne.
    apply String.eqb_neq in Hne. fold coords_of in Hne. rewrite Hne.
    rewrite !append_assoc. reflexivity.
Qed.

(** ** C3: the navigation link *)

(** C3. [generateGoogleMapsUrl] returns the empty string for the empty
    list.  Otherwise the origin is the start location if given, else the
    first stop; the destination is the last stop; the waypoints are the
    stops strictly between the origin and the destination, cut to the
    first 9, written [lat,lng] and joined by a bar.  With 11 stops and no
    start, the link has exactly the 9 waypoints that follow the first
    stop. *)
Theorem C3_generateGoogleMapsUrl (number_toString : number -> string) :
  let coords_of stop :=
    RouteOptimizer.coords number_toString (latitude stop) (longitude stop) in
  (forall start : option Location,
      RouteOptimizer.generateGoogleMapsUrl number_toString [] start = "")
  /\ (forall (first : RouteStop) (rest : list RouteStop) (start : option Location),
         RouteOptimizer.generateGoogleMapsUrl number_toString (first :: rest) start
         = "https://www.google.com/maps/dir/?api=1&origin="
           +:+ match start with
               | Some l =>
                   number_toString (loc_latitude l) +:+ "," +:+ number_toString (loc_longitude l)
               | None => coords_of first
               end
           +:+ "&destination=" +:+ coords_of (List.last (first :: rest) first)
           +:+ "&travelmode=driving"
           +:+ match take 9 (match start with
                             | Some _ => removelast (first :: rest)
                             | None => removelast rest
                             end) with
               | [] => ""
               | waypoints => "&waypoints=" +:+ String.concat "|" (map coords_of waypoints)
               end)
  /\ (forall s0 s1 s2 s3 s4 s5 s6 s7 s8 s9 s10 : RouteStop,
         RouteOptimizer.generateGoogleMapsUrl number_toString
           [s0; s1; s2; s3; s4; s5; s6; s7; s8; s9; s10] None
         = "https://www.google.com/maps/dir/?api=1&origin=" +:+ coords_of s0
           +:+ "&destination=" +:+ coords_of s10
           +:+ "&travelmode=driving&waypoints="
           +:+ String.concat "|" (map coords_of [s1; s2; s3; s4; s5; s6; s7; s8; s9])).
Proof.
  intros coords_of. split; [reflexivity |]. split.
  - intros first rest start. apply generateGoogleMapsUrl_cons.
  - intros s0 s1 s2 s3 s4 s5 s6 s7 s8 s9 s10.
    rewrite generateGoogleMapsUrl_cons. cbv zeta.
    cbn [removelast take List.last]. fold coords_of.
    rewrite <- (append_assoc "&travelmode=driving" "&waypoints="). reflexivity.
Qed.

(** ** C10: [decodePolyline] returns on every string *)

Section DecoderTermination.

Import DirectionsService.

(** Past the end of the string the byte is [NaN]; it contributes no bit
    and fails [b >= 0x20]. *)
Lemma read_past_end (encoded : list Z) (index : nat) :
  (length encoded <= index)%nat ->
  charCodeAt encoded index = None
  /\ ToInt32 ((fun c => (c - 63)%Z) <$> charCodeAt encoded index) = 0%Z
  /\ js_ge ((fun c => (c - 63)%Z) <$> charCodeAt encoded index) 32 = false.
Proof.
  intros Hle. unfold charCodeAt. rewrite lookup_ge_None_2 by exact Hle.
  repeat split.
Qed.

(** An inner loop continues only after a byte inside the string. *)
Lemma continue_inside (encoded : list Z) (index : nat) :
  js_ge ((fun c => (c - 63)%Z) <$> charCodeAt encoded index) 32 = true ->
  (index < length encoded)%nat.
Proof.
  intros Hge. destruct (Nat.lt_ge_cases index (length encoded)) as [Hlt | Hle]; [exact Hlt |].
  destruct (read_past_end encoded index Hle) as (_ & _ & E). congruence.
Qed.

(** The index moves forward by one for each byte read. *)
Lemma read_chunks_advances (fuel : nat) :
  forall (encoded : list Z) (index : nat) (shift result : Z) (index' : nat) (result' : Z),
    read_chunks fuel encoded index shift result = Some (index', result') ->
    (index < index' <= S (Nat.max index (length encoded)))%nat.
Proof.
  induction fuel as [| fuel IH]; intros encoded index shift result index' result' E;
    [discriminate |].
  cbn [read_chunks] in E.
  destruct (js_ge ((fun c => (c - 63)%Z) <$> charCodeAt encoded index) 32) eqn:Hge.
  - apply continue_inside in Hge. apply IH in E. lia.
  - inversion E. subst. lia.
Qed.

Lemma read_chunks_total (fuel : nat) :
  forall (encoded : list Z) (index : nat) (shift result : Z),
    (length encoded - index < fuel)%nat ->
    exists (index' : nat) (result' : Z),
      read_chunks fuel encoded index shift result = Some (index', result').
Proof.
  induction fuel as [| fuel IH]; intros encoded index shift result Hfuel; [lia |].
  cbn [read_chunks].
  destruct (js_ge ((fun c => (c - 63)%Z) <$> charCodeAt encoded index) 32) eqn:Hge.
  - apply continue_inside in Hge. apply IH. lia.
  - eauto.
Qed.

Lemma decode_loop_total (fuel : nat) :
  forall (bound : nat) (encoded : list Z) (index : nat) (lat lng : Z)
         (points : list Location),
    (length encoded - index <= fuel)%nat ->
    (length encoded < bound)%nat ->
    exists points', decode_loop fuel bound encoded index lat lng points = Some points'.
Proof.
  induction fuel as [| fuel IH]; intros bound encoded index lat lng points Hfuel Hbound.
  - cbn [decode_loop]. destruct (index <? length encoded)%nat eqn:Hlt; [| eauto].
    apply Nat.ltb_lt in Hlt. lia.
  - cbn [decode_loop]. destruct (index <? length encoded)%nat eqn:Hlt; [| eauto].
    apply Nat.ltb_lt in Hlt.
    destruct (read_chunks_total bound encoded index 0 0) as (i1 & r1 & E1); [lia |].
    rewrite E1. cbn [mbind option_bind].
    destruct (read_chunks_total bound encoded i1 0 0) as (i2 & r2 & E2); [lia |].
    rewrite E2. cbn [mbind option_bind].
    apply read_chunks_advances in E1. apply read_chunks_advances in E2.
    apply IH; lia.
Qed.

(** More fuel does not change a result. *)
Lemma read_chunks_more_fuel (fuel : nat) :
  forall (fuel' : nat) (encoded : list Z) (index : nat) (shift result : Z) (r : nat * Z),
    (fuel <= fuel')%nat ->
    read_chunks fuel encoded index shift result = Some r ->
    read_chunks fuel' encoded index shift result = Some r.
Proof.
  induction fuel as [| fuel IH]; intros fuel' encoded index shift result r Hle E;
    [discriminate |].
  destruct fuel' as [| fuel']; [lia |]. cbn [read_chunks] in *.
  destruct (js_ge _ 32); [| exact E]. eapply IH; [| exact E]. lia.
Qed.

Lemma decode_loop_more_fuel (fuel : nat) :
  forall (fuel' bound bound' : nat) (encoded : list Z) (index : nat) (lat lng : Z)
         (points points' : list Location),
    (fuel <= fuel')%nat -> (bound <= bound')%nat ->
    decode_loop fuel bound encoded index lat lng points = Some points' ->
    decode_loop fuel' bound' encoded index lat lng points = Some points'.
Proof.
  induction fuel as [| fuel IH];
    intros fuel' bound bound' encoded index lat lng points points' Hf Hb E.
  - cbn [decode_loop] in E. destruct (index <? length encoded)%nat eqn:Hlt; [discriminate |].
    destruct fuel'; cbn [decode_loop]; rewrite Hlt; exact E.
  - destruct fuel' as [| fuel']; [lia |]. cbn [decode_loop] in *.
    destruct (index <? length encoded)%nat; [| exact E].
    destruct (read_chunks bound encoded index 0 0) as [[i1 r1] |] eqn:E1; [| discriminate].
    rewrite (read_chunks_more_fuel _ _ _ _ _ _ _ Hb E1).
    cbn [mbind option_bind] in *.
    destruct (read_chunks bound encoded i1 0 0) as [[i2 r2] |] eqn:E2; [| discriminate].
    rewrite (read_chunks_more_fuel _ _ _ _ _ _ _ Hb E2).
    cbn [mbind option_bind] in *.
    eapply IH; [| exact Hb | exact E]. lia.
Qed.

End DecoderTermination.

(** C10. [decodePolyline] returns a list for every string, malformed or
    truncated encodings included, and more fuel than the length of the
    string plus one gives the same list.  Each byte read moves the index forward
    by one; a read past the end gives [NaN], which adds no bit and fails the
    continuation test, so an inner loop that starts there stops after that
    one read. *)
Theorem C10_decodePolyline_total :
  (forall encoded : list Z,
      exists points,
        DirectionsService.decodePolyline encoded = Some points
        /\ forall fuel, (S (length encoded) <= fuel)%nat ->
             DirectionsService.decodePolyline_fuel fuel encoded = Some points)
  /\ (forall (fuel : nat) (encoded : list Z) (index : nat) (shift result : Z)
             (index' : nat) (result' : Z),
         DirectionsService.read_chunks fuel encoded index shift result
         = Some (index', result') ->
         (index < index')%nat)
  /\ (forall (fuel : nat) (encoded : list Z) (index : nat) (shift result : Z),
         (length encoded <= index)%nat ->
         DirectionsService.charCodeAt encoded index = None
         /\ DirectionsService.read_chunks (S fuel) encoded index shift result
            = Some (S index, js_or result (js_shl (js_and 0 31) shift))).
Proof.
  split; [| split].
  - intros encoded.
    destruct (decode_loop_total (S (length encoded)) (S (length encoded)) encoded 0 0 0 [])
      as [points E]; [lia | lia |].
    exists points. split; [exact E |]. intros fuel Hfuel.
    apply (decode_loop_more_fuel _ _ _ _ _ _ _ _ _ _ Hfuel Hfuel E).
  - intros fuel encoded index shift result index' result' E.
    apply read_chunks_advances in E. lia.
  - intros fuel encoded index shift result Hle.
    destruct (read_past_end encoded index Hle) as (Hnan & Hint & Hge).
    split; [exact Hnan |]. cbn [DirectionsService.read_chunks].
    rewrite Hge, Hint. reflexivity.
Qed.

Lemma C10_decodePolyline_total_witness :
  (0 < 5)%nat
  /\ DirectionsService.charCodeAt (code_units "_p") 2 = None
  /\ DirectionsService.read_chunks 1 (code_units "_p") 2 0 0
     = Some (3%nat, js_or 0 (js_shl (js_and 0 31) 0)).
Proof.
  destruct C10_decodePolyline_total as (_ & Hadv & Hend). split.
  - apply (Hadv 5%nat (code_units "_p~iF") 0%nat 0%Z 0%Z 5%nat 7700000%Z). reflexivity.
  - apply (Hend 0%nat (code_units "_p") 2%nat 0%Z 0%Z). simpl. lia.
Defined.

(** ** C5: decoding what the published algorithm encodes *)

Section Polyline.

Import DirectionsService PolylineFormat.
Local Open Scope Z_scope.

Lemma to_int32_small (z : Z) : - 2 ^ 31 <= z < 2 ^ 31 -> to_int32 z = z.
Proof.
  intros Hz. unfold to_int32. rewrite Z.mod_small by lia. lia.
Qed.

(** Bits that do not overlap: or-ing is adding. *)
Lemma lor_shifted (a b s : Z) :
  0 <= s -> 0 <= a < 2 ^ s -> Z.lor a (b * 2 ^ s) = a + b * 2 ^ s.
Proof.
  intros Hs Ha.
  assert (Hland : Z.land a (b * 2 ^ s) = 0).
  { apply Z.bits_inj'. intros n Hn. rewrite Z.land_spec, Z.bits_0.
    rewrite <- Z.shiftl_mul_pow2 by exact Hs.
    destruct (Z.lt_ge_cases n s) as [Hlt | Hge].
    - rewrite Z.shiftl_spec_low by exact Hlt. apply andb_false_r.
    - destruct (Z.eq_dec a 0) as [-> | Hnz]; [rewrite Z.bits_0; reflexivity |].
      rewrite (Z.bits_above_log2 a n); [reflexivity | lia |].
      apply Z.log2_lt_pow2; [lia |].
      apply Z.lt_le_trans with (2 ^ s); [lia |].
      apply Z.pow_le_mono_r; lia. }
  rewrite (Z.add_nocarry_lxor _ _ Hland). symmetry. apply Z.lxor_lor, Hland.
Qed.

Lemma land_31 (x : Z) : Z.land x 31 = x mod 32.
Proof. apply (Z.land_ones x 5). lia. Qed.

Lemma low_chunk (v : Z) : 0 <= v < 32 -> js_and (ToInt32 (Some v)) 31 = v.
Proof.
  intros Hv. unfold js_and, ToInt32. rewrite !(to_int32_small v) by lia.
  rewrite (to_int32_small 31) by lia.
  rewrite land_31. apply Z.mod_small. lia.
Qed.

Lemma continued_chunk (v : Z) :
  0 <= v ->
  Z.lor (Z.land v 31) 32 = v mod 32 + 32
  /\ js_and (ToInt32 (Some (v mod 32 + 32))) 31 = v mod 32.
Proof.
  intros Hv. pose proof (Z.mod_pos_bound v 32 ltac:(lia)) as Hm. split.
  - rewrite land_31. change 32 with (1 * 2 ^ 5) at 2. rewrite lor_shifted by lia. lia.
  - unfold js_and, ToInt32. rewrite !(to_int32_small (v mod 32 + 32)) by lia.
    rewrite (to_int32_small 31) by lia.
    rewrite land_31. replace (v mod 32 + 32) with (v mod 32 + 1 * 32) by lia.
    rewrite Z.mod_add by lia. apply Z.mod_small. lia.
Qed.

(** Adding a chunk [lo] at [shift] to the bits gathered so far. *)
Lemma accumulate_chunk (result lo shift : Z) :
  0 <= shift <= 30 -> 0 <= result < 2 ^ shift -> 0 <= lo ->
  result + lo * 2 ^ shift < 2 ^ 31 ->
  js_or result (js_shl lo shift) = result + lo * 2 ^ shift.
Proof.
  intros Hs Hr Hlo Hfit.
  assert (Hp : 0 < 2 ^ shift) by (apply Z.pow_pos_nonneg; lia).
  assert (Hl : 0 <= lo * 2 ^ shift) by (apply Z.mul_nonneg_nonneg; lia).
  assert (Hlo' : lo <= lo * 2 ^ shift) by nia.
  unfold js_or, js_shl. rewrite Z.mod_small by lia.
  rewrite (to_int32_small lo) by lia.
  rewrite Z.shiftl_mul_pow2 by lia.
  rewrite !(to_int32_small (lo * 2 ^ shift)) by lia.
  rewrite (to_int32_small result) by lia.
  apply lor_shifted; lia.
Qed.

Lemma lookup_middle (pre rest : list Z) (c : Z) :
  charCodeAt (pre ++ c :: rest) (length pre) = Some c.
Proof. unfold charCodeAt. apply list_lookup_middle. reflexivity. Qed.

(** An inner loop reads back the value that [encode_chunks] wrote. *)
Lemma read_chunks_encode (n : nat) :
  forall (v shift result : Z) (pre rest : list Z) (fuel : nat),
    0 <= v -> Z.log2 v <= Z.of_nat n ->
    0 <= shift <= 30 -> 0 <= result < 2 ^ shift ->
    result + v * 2 ^ shift < 2 ^ 31 ->
    (length (encode_chunks n v) <= fuel)%nat ->
    read_chunks fuel (pre ++ encode_chunks n v ++ rest) (length pre) shift result
    = Some ((length pre + length (encode_chunks n v))%nat, result + v * 2 ^ shift).
Proof.
  induction n as [| n IH]; intros v shift result pre rest fuel Hv Hlog Hs Hr Hfit Hfuel.
  - assert (Hsmall : v < 32).
    { destruct (Z.eq_dec v 0) as [-> | Hnz]; [lia |].
      assert (v < 2 ^ 1) by (apply Z.log2_lt_pow2; lia). lia. }
    cbn [encode_chunks] in *. destruct fuel as [| fuel]; [cbn in Hfuel; lia |].
    cbn [read_chunks app]. rewrite lookup_middle. cbn [fmap option_fmap option_map].
    replace (v + 63 - 63) with v by lia.
    rewrite low_chunk by lia. rewrite accumulate_chunk by lia.
    unfold js_ge. destruct (32 <=? v) eqn:E; [lia |].
    do 2 f_equal. cbn [length]. lia.
  - cbn [encode_chunks] in *. destruct (32 <=? v) eqn:E.
    + apply Z.leb_le in E.
      destruct fuel as [| fuel]; [cbn in Hfuel; lia |]. cbn [length] in Hfuel.
      destruct (continued_chunk v Hv) as [Hc Hlow]. rewrite Hc.
      pose proof (Z.mod_pos_bound v 32 ltac:(lia)) as Hm.
      pose proof (Z.div_mod v 32 ltac:(lia)) as Hdm.
      assert (Hp : 0 < 2 ^ shift) by (apply Z.pow_pos_nonneg; lia).
      assert (Hshift : shift + 5 <= 30).
      { destruct (Z.le_gt_cases (shift + 5) 30) as [Hle | Hgt]; [exact Hle |].
        assert (2 ^ 26 <= 2 ^ shift) by (apply Z.pow_le_mono_r; lia). nia. }
      assert (Hpow : 2 ^ (shift + 5) = 32 * 2 ^ shift)
        by (rewrite Z.pow_add_r by lia; lia).
      assert (Hdiv : 0 < v / 32) by (apply Z.div_str_pos; lia).
      cbn [read_chunks app]. rewrite lookup_middle. cbn [fmap option_fmap option_map].
      replace (v mod 32 + 32 + 63 - 63) with (v mod 32 + 32) by lia.
      rewrite Hlow. rewrite accumulate_chunk by nia.
      unfold js_ge. destruct (32 <=? v mod 32 + 32) eqn:E'; [| lia].
      replace (pre ++ (v mod 32 + 32 + 63) :: encode_chunks n (Z.shiftr v 5) ++ rest)
        with ((pre ++ [v mod 32 + 32 + 63]) ++ encode_chunks n (Z.shiftr v 5) ++ rest)
        by (rewrite <- app_assoc; reflexivity).
      replace (S (length pre)) with (length (pre ++ [v mod 32 + 32 + 63]))
        by (rewrite length_app; cbn; lia).
      assert (Hsr : Z.shiftr v 5 = v / 32) by (apply (Z.shiftr_div_pow2 v 5); lia).
      rewrite IH.
      * rewrite Hsr. f_equal. f_equal; [rewrite length_app; cbn [length]; lia | nia].
      * lia.
      * rewrite Z.log2_shiftr by lia. lia.
      * lia.
      * nia.
      * rewrite Hsr. nia.
      * lia.
    + apply Z.leb_gt in E.
      destruct fuel as [| fuel]; [cbn in Hfuel; lia |].
      cbn [read_chunks app]. rewrite lookup_middle. cbn [fmap option_fmap option_map].
      replace (v + 63 - 63) with v by lia.
      rewrite low_chunk by lia. rewrite accumulate_chunk by lia.
      unfold js_ge. destruct (32 <=? v) eqn:E'; [lia |].
      do 2 f_equal. cbn [length]. lia.
Qed.

Lemma zigzag_range (d : Z) : - 2 ^ 30 <= d < 2 ^ 30 -> 0 <= zigzag d < 2 ^ 31.
Proof.
  intros Hd. unfold zigzag. destruct (d <? 0) eqn:E.
  - apply Z.ltb_lt in E. rewrite Z.lnot_eq_pred_opp, Z.shiftl_mul_pow2 by lia. lia.
  - apply Z.ltb_ge in E. rewrite Z.shiftl_mul_pow2 by lia. lia.
Qed.

Lemma unzigzag_zigzag (d : Z) : - 2 ^ 30 <= d < 2 ^ 30 -> unzigzag (zigzag d) = d.
Proof.
  intros Hd. pose proof (zigzag_range d Hd) as Hz.
  unfold unzigzag, js_and, js_sar, js_not.
  rewrite !(to_int32_small (zigzag d)) by lia.
  rewrite (to_int32_small 1) by lia. change (1 mod 32) with 1.
  rewrite (Z.land_ones _ 1) by lia. rewrite Z.shiftr_div_pow2 by lia.
  change (2 ^ 1) with 2. clear Hz. unfold zigzag. destruct (d <? 0) eqn:E.
  - apply Z.ltb_lt in E. rewrite Z.lnot_eq_pred_opp, Z.shiftl_mul_pow2 by lia.
    change (2 ^ 1) with 2.
    replace (- (d * 2) - 1) with (1 + (- d - 1) * 2) by lia.
    rewrite Z.mod_add, Z.div_add by lia.
    change (1 mod 2) with 1. change (1 / 2) with 0. cbn [Z.eqb negb].
    rewrite to_int32_small by lia. rewrite Z.lnot_eq_pred_opp. lia.
  - apply Z.ltb_ge in E. rewrite Z.shiftl_mul_pow2 by lia. change (2 ^ 1) with 2.
    rewrite Z.mod_mul, Z.div_mul by lia. reflexivity.
Qed.

End Polyline.

Section RoundTrip.

Import DirectionsService PolylineFormat.
Local Open Scope Z_scope.

Lemma encode_chunks_nonempty (n : nat) (v : Z) : (0 < length (encode_chunks n v))%nat.
Proof. destruct n; cbn; [lia |]. destruct (32 <=? v); cbn; lia. Qed.

Lemma read_signed (d : Z) (pre rest : list Z) (fuel : nat) :
  - 2 ^ 30 <= d < 2 ^ 30 ->
  (length (encode_signed d) <= fuel)%nat ->
  read_chunks fuel (pre ++ encode_signed d ++ rest) (length pre) 0 0
  = Some ((length pre + length (encode_signed d))%nat, zigzag d).
Proof.
  intros Hd Hfuel. pose proof (zigzag_range d Hd) as Hz.
  pose proof (Z.log2_nonneg (zigzag d)) as Hlog.
  unfold encode_signed, encode_unsigned in *.
  rewrite read_chunks_encode; try lia.
  do 2 f_equal. lia.
Qed.

Lemma decode_encode_from (pts : list (Z * Z)) :
  forall (pre : list Z) (lat lng : Z) (points : list Location) (fuel bound : nat),
    Forall (fun d => - 2 ^ 30 <= d < 2 ^ 30) (deltas_from lat lng pts) ->
    (length pts <= fuel)%nat ->
    (length (pre ++ encode_from lat lng pts) <= bound)%nat ->
    decode_loop fuel bound (pre ++ encode_from lat lng pts) (length pre) lat lng points
    = Some (points ++ map scaled pts).
Proof.
  induction pts as [| [la lo] pts IH]; intros pre lat lng points fuel bound Hr Hfuel Hbound.
  - cbn [encode_from map]. rewrite !app_nil_r.
    destruct fuel; cbn [decode_loop]; rewrite Nat.ltb_irrefl; reflexivity.
  - cbn [deltas_from] in Hr. inversion Hr as [| ? ? Hlat Hr']. subst.
    inversion Hr' as [| ? ? Hlng Hrest]. subst. clear Hr Hr'.
    cbn [encode_from] in *. cbn [length] in Hfuel.
    destruct fuel as [| fuel]; [lia |].
    pose proof (encode_chunks_nonempty (Z.to_nat (Z.log2 (zigzag (la - lat)))) (zigzag (la - lat)))
      as Hne. fold (encode_unsigned (zigzag (la - lat))) in Hne.
    fold (encode_signed (la - lat)) in Hne.
    rewrite !length_app in Hbound.
    cbn [decode_loop].
    replace (length pre <? length (pre ++ encode_signed (la - lat)
               ++ encode_signed (lo - lng) ++ encode_from la lo pts))%nat with true
      by (symmetry; apply Nat.ltb_lt; rewrite !length_app; lia).
    rewrite read_signed by (assumption || lia). cbn [mbind option_bind].
    rewrite unzigzag_zigzag by assumption.
    replace (pre ++ encode_signed (la - lat) ++ encode_signed (lo - lng) ++ encode_from la lo pts)
      with ((pre ++ encode_signed (la - lat)) ++ encode_signed (lo - lng) ++ encode_from la lo pts)
      by (rewrite <- app_assoc; reflexivity).
    rewrite <- length_app.
    rewrite read_signed by (assumption || lia). cbn [mbind option_bind].
    rewrite unzigzag_zigzag by assumption.
    replace (lat + (la - lat)) with la by lia.
    replace (lng + (lo - lng)) with lo by lia.
    replace ((pre ++ encode_signed (la - lat)) ++ encode_signed (lo - lng) ++ encode_from la lo pts)
      with (((pre ++ encode_signed (la - lat)) ++ encode_signed (lo - lng)) ++ encode_from la lo pts)
      by (rewrite <- app_assoc; reflexivity).
    rewrite <- length_app.
    rewrite IH.
    + cbn [map]. rewrite <- app_assoc. reflexivity.
    + exact Hrest.
    + lia.
    + rewrite !length_app. lia.
Qed.

Lemma encode_from_length (pts : list (Z * Z)) :
  forall lat lng, (length pts <= length (encode_from lat lng pts))%nat.
Proof.
  induction pts as [| [la lo] pts IH]; intros lat lng; cbn [encode_from length]; [lia |].
  rewrite !length_app. specialize (IH la lo).
  pose proof (encode_chunks_nonempty (Z.to_nat (Z.log2 (zigzag (la - lat)))) (zigzag (la - lat))).
  unfold encode_signed, encode_unsigned. lia.
Qed.

(** Decoding after encoding gives the points back. *)
Lemma decode_encode (pts : list (Z * Z)) :
  in_range pts -> decodePolyline (encode pts) = Some (map scaled pts).
Proof.
  intros Hr. unfold decodePolyline, decodePolyline_fuel, encode.
  pose proof (encode_from_length pts 0 0) as Hlen.
  apply (decode_encode_from pts [] 0 0 []); [exact Hr | lia | cbn [app]; lia].
Qed.

(** Coordinates on the globe are always in range. *)
Lemma geographic_deltas (pts : list (Z * Z)) :
  forall lat lng,
    - 9000000 <= lat <= 9000000 -> - 18000000 <= lng <= 18000000 ->
    Forall geographic pts ->
    Forall (fun d => - 2 ^ 30 <= d < 2 ^ 30) (deltas_from lat lng pts).
Proof.
  induction pts as [| [la lo] pts IH]; intros lat lng Hlat Hlng Hg; cbn [deltas_from].
  - constructor.
  - inversion Hg as [| ? ? [Hla Hlo] Hg']. subst. cbn [fst snd] in *.
    constructor; [lia |]. constructor; [lia |]. apply IH; assumption.
Qed.

Lemma geographic_in_range (pts : list (Z * Z)) : Forall geographic pts -> in_range pts.
Proof. apply geographic_deltas; lia. Qed.

End RoundTrip.

Lemma scaled_decimal (lat lng : Z) (x y : R) :
  (IZR lat = x * 100000)%R -> (IZR lng = y * 100000)%R ->
  scaled (lat, lng) = {| loc_latitude := Fin x; loc_longitude := Fin y |}.
Proof.
  intros Hx Hy. unfold scaled, DirectionsService.point_of, number_of_Z. cbn [fst snd].
  rewrite !n_div_fin by lra. f_equal; f_equal; lra.
Qed.

(** C5. For every sequence of coordinate pairs (integers in 1e-5 degree,
    all coordinates of the globe included) [decodePolyline] applied to the
    string that the published algorithm produces returns exactly that
    sequence, each coordinate divided by 1e5.  The published example
    encodes to the published string and decodes to (38.5, -120.2),
    (40.7, -120.95), (43.252, -126.453). *)
Theorem C5_decodePolyline_roundtrip :
  (forall pts : list (Z * Z),
      PolylineFormat.in_range pts ->
      DirectionsService.decodePolyline (PolylineFormat.encode pts) = Some (map scaled pts))
  /\ (forall pts : list (Z * Z),
         Forall geographic pts ->
         DirectionsService.decodePolyline (PolylineFormat.encode pts) = Some (map scaled pts))
  /\ PolylineFormat.encode reference_points = code_units reference_encoding
  /\ DirectionsService.decodePolyline (code_units reference_encoding)
     = Some [ {| loc_latitude := Fin 38.5; loc_longitude := Fin (-120.2) |};
              {| loc_latitude := Fin 40.7; loc_longitude := Fin (-120.95) |};
              {| loc_latitude := Fin 43.252; loc_longitude := Fin (-126.453) |} ].
Proof.
  assert (Henc : PolylineFormat.encode reference_points = code_units reference_encoding)
    by (vm_compute; reflexivity).
  split; [exact decode_encode |].
  split; [intros pts Hg; apply decode_encode, geographic_in_range, Hg |].
  split; [exact Henc |].
  rewrite <- Henc, decode_encode.
  - cbn [map reference_points].
    rewrite (scaled_decimal 3850000 (-12020000) 38.5 (-120.2)) by lra.
    rewrite (scaled_decimal 4070000 (-12095000) 40.7 (-120.95)) by lra.
    rewrite (scaled_decimal 4325200 (-12645300) 43.252 (-126.453)) by lra.
    reflexivity.
  - apply geographic_in_range. unfold reference_points, geographic.
    repeat constructor; cbn [fst snd]; lia.
Qed.

Lemma C5_decodePolyline_roundtrip_witness :
  DirectionsService.decodePolyline (PolylineFormat.encode reference_points)
  = Some (map scaled reference_points)
  /\ DirectionsService.decodePolyline (PolylineFormat.encode [(0, 0); (-9000000, 18000000)]%Z)
     = Some (map scaled [(0, 0); (-9000000, 18000000)]%Z).
Proof.
  destruct C5_decodePolyline_roundtrip as (Hrange & Hgeo & _). split.
  - apply (Hrange reference_points). unfold PolylineFormat.in_range, reference_points.
    cbn [PolylineFormat.deltas_from]. repeat constructor; lia.
  - apply (Hgeo [(0, 0); (-9000000, 18000000)]%Z). unfold geographic.
    repeat constructor; cbn [fst snd]; lia.
Defined.

(** ** C7: the index of the current stop during a session *)

Section Session.

Import RouteMapScreen.

Lemma distance_to_stop_optimizer (from : Location) (stop : RouteStop) :
  calculateDistanceToStop from stop = distance_from from stop.
Proof. reflexivity. Qed.

(** At the very place of the stop the arrival test only depends on the
    index. *)
Lemma arrived_on_the_spot (s : Screen) (from : Location) (stop : RouteStop) (lat lon : R) :
  from = {| loc_latitude := Fin lat; loc_longitude := Fin lon |} ->
  latitude stop = Fin lat -> longitude stop = Fin lon ->
  arrived s from stop = (currentStopIndex s <? length (stopsToUse s) - 1)%nat.
Proof.
  intros -> Hlat Hlon. unfold arrived.
  rewrite distance_to_stop_optimizer. unfold distance_from.
  cbn [loc_latitude loc_longitude]. rewrite Hlat, Hlon, optimizer_distance_same.
  assert (E : n_lt (Fin 0) (Fin (1 / 10)) = true) by (apply n_lt_fin; lra).
  rewrite E. reflexivity.
Qed.

(** A position update leaves the index as it is. *)
Lemma position_update_keeps_index (l : Location) (s : Screen) :
  currentStopIndex (setCurrentLocation l s) = currentStopIndex s.
Proof.
  unfold setCurrentLocation, arrival_effect. cbn [isNavigating currentLocation].
  destruct (isNavigating s); [| reflexivity].
  destruct (length (stopsToUse _) =? 0)%nat; [reflexivity |].
  destruct (stopsToUse _ !! _); [| reflexivity].
  destruct (arrived _ _ _); reflexivity.
Qed.

Lemma arrival_effect_index (s : Screen) :
  currentStopIndex (arrival_effect s) = currentStopIndex s.
Proof.
  unfold arrival_effect.
  destruct (isNavigating s); [| reflexivity].
  destruct (currentLocation s); [| reflexivity].
  destruct (length (stopsToUse s) =? 0)%nat; [reflexivity |].
  destruct (stopsToUse s !! currentStopIndex s); [| reflexivity].
  destruct (arrived _ _ _); reflexivity.
Qed.

(** An answer sets the index to the successor of the index that the alert
    captured, wherever the index is by then. *)
Lemma answer_sets_captured_successor (k : nat) (s : Screen) (a : Alert) :
  alerts s !! k = Some a ->
  currentStopIndex (answer_alert k s) = (captured_index a + 1)%nat.
Proof.
  intros Ha. unfold answer_alert. rewrite Ha. unfold setCurrentStopIndex.
  cbn [currentStopIndex].
  destruct (captured_index a + 1 =? currentStopIndex s)%nat eqn:E.
  - apply Nat.eqb_eq in E. cbn [currentStopIndex]. lia.
  - rewrite arrival_effect_index. reflexivity.
Qed.

(** An alert is raised only under the arrival condition, and it captures
    the index of that moment. *)
Lemma arrival_effect_alerts (s : Screen) :
  alerts (arrival_effect s) = alerts s
  \/ exists from currentStop,
       isNavigating s = true
       /\ currentLocation s = Some from
       /\ stopsToUse s !! currentStopIndex s = Some currentStop
       /\ n_lt (calculateDistanceToStop from currentStop) (Fin (1 / 10)) = true
       /\ (currentStopIndex s < length (stopsToUse s) - 1)%nat
       /\ alerts (arrival_effect s)
          = alerts s ++ [mkAlert (currentStopIndex s) currentStop].
Proof.
  unfold arrival_effect.
  destruct (isNavigating s) eqn:Hnav; [| left; reflexivity].
  destruct (currentLocation s) as [from |] eqn:Hloc; [| left; reflexivity].
  destruct (length (stopsToUse s) =? 0)%nat; [left; reflexivity |].
  destruct (stopsToUse s !! currentStopIndex s) as [currentStop |] eqn:Hstop;
    [| left; reflexivity].
  destruct (arrived s from currentStop) eqn:Harr; [| left; reflexivity].
  right. exists from, currentStop. unfold arrived in Harr.
  apply andb_prop in Harr as [Hd Hi]. apply Nat.ltb_lt in Hi.
  repeat split; assumption.
Qed.

End Session.

Section Regression.

Import RouteMapScreen.

Lemma effect_at_the_address (i : nat) (pending : list Alert) (stop : RouteStop) :
  same_address !! i = Some stop ->
  arrival_effect (navigating i pending)
  = navigating i (if (i <? 2)%nat then pending ++ [mkAlert i stop] else pending).
Proof.
  intros Hi. unfold arrival_effect.
  cbn [navigating isNavigating currentLocation stopsToUse isOptimized stops
       currentStopIndex].
  change (length same_address =? 0)%nat with false. cbv iota. rewrite Hi.
  assert (Hstop : latitude stop = Fin 10 /\ longitude stop = Fin 20).
  { destruct i as [| [| [| i]]]; cbn in Hi; inversion Hi; split; reflexivity. }
  destruct Hstop as [Hlat Hlon].
  rewrite (arrived_on_the_spot _ _ _ 10 20 eq_refl Hlat Hlon).
  cbn [navigating stopsToUse isOptimized stops currentStopIndex].
  change (length same_address - 1)%nat with 2%nat.
  destruct (i <? 2)%nat; reflexivity.
Qed.

Lemma position_update_at_the_address (i : nat) (pending : list Alert) (stop : RouteStop) :
  same_address !! i = Some stop ->
  step (navigating i pending) (PositionUpdate at_the_address)
  = navigating i (if (i <? 2)%nat then pending ++ [mkAlert i stop] else pending).
Proof.
  intros Hi. unfold step, setCurrentLocation.
  apply (effect_at_the_address i pending stop Hi).
Qed.

Lemma answer_at_the_address (i k : nat) (pending : list Alert) (a : Alert) (stop : RouteStop) :
  pending !! k = Some a ->
  (captured_index a + 1)%nat <> i ->
  same_address !! (captured_index a + 1)%nat = Some stop ->
  step (navigating i pending) (Answer k)
  = navigating (captured_index a + 1)
      (if (captured_index a + 1 <? 2)%nat
       then delete k pending ++ [mkAlert (captured_index a + 1) stop]
       else delete k pending).
Proof.
  intros Hk Hne Hstop. unfold step, answer_alert.
  cbn [navigating alerts]. rewrite Hk. unfold setCurrentStopIndex.
  cbn [navigating currentStopIndex stops optimizedStops isOptimized currentLocation
       isNavigating alerts].
  destruct (captured_index a + 1 =? i)%nat eqn:E; [apply Nat.eqb_eq in E; contradiction |].
  apply (effect_at_the_address _ _ stop Hstop).
Qed.

(** C7 fails on this session.  The driver is at an address with three
    deliveries.  Two position updates raise two alerts for the first
    stop; the second alert is answered (index 1), then the alert for the
    second stop (index 2); the first alert, still pending, is answered
    last, and its handler sets the index back to 1. *)
Theorem C7_stale_answer_moves_index_back :
  index_trace (startInternalNavigation idle_screen)
    [PositionUpdate at_the_address; PositionUpdate at_the_address;
     Answer 1; Answer 1; Answer 0]
  = [0; 0; 0; 1; 2; 1]%nat.
Proof.
  set (first := stop_at "first" (Fin 10) (Fin 20)).
  set (second := stop_at "second" (Fin 10) (Fin 20)).
  set (third := stop_at "third" (Fin 10) (Fin 20)).
  assert (S0 : step (startInternalNavigation idle_screen) (PositionUpdate at_the_address)
               = navigating 0 [mkAlert 0 first]).
  { apply (effect_at_the_address 0 [] first). reflexivity. }
  assert (S1 : step (navigating 0 [mkAlert 0 first]) (PositionUpdate at_the_address)
               = navigating 0 [mkAlert 0 first; mkAlert 0 first]).
  { rewrite (position_update_at_the_address 0 _ first) by reflexivity. reflexivity. }
  assert (S2 : step (navigating 0 [mkAlert 0 first; mkAlert 0 first]) (Answer 1)
               = navigating 1 [mkAlert 0 first; mkAlert 1 second]).
  { rewrite (answer_at_the_address 0 1 _ (mkAlert 0 first) second)
      by (reflexivity || discriminate).
    reflexivity. }
  assert (S3 : step (navigating 1 [mkAlert 0 first; mkAlert 1 second]) (Answer 1)
               = navigating 2 [mkAlert 0 first]).
  { rewrite (answer_at_the_address 1 1 _ (mkAlert 1 second) third)
      by (reflexivity || discriminate).
    reflexivity. }
  assert (S4 : step (navigating 2 [mkAlert 0 first]) (Answer 0)
               = navigating 1 [mkAlert 1 second]).
  { rewrite (answer_at_the_address 2 0 _ (mkAlert 0 first) second)
      by (reflexivity || discriminate).
    reflexivity. }
  cbn [index_trace]. rewrite S0, S1, S2, S3, S4. reflexivity.
Qed.

End Regression.

(** What does hold of the index: it stays within the list of stops. *)

Section SessionBound.

Import RouteMapScreen.

Lemma arrival_effect_within (s : Screen) : within_route s -> within_route (arrival_effect s).
Proof.
  intros [Hi Ha]. unfold within_route.
  assert (Hsame : stopsToUse (arrival_effect s) = stopsToUse s).
  { unfold arrival_effect.
    destruct (isNavigating s); [| reflexivity].
    destruct (currentLocation s); [| reflexivity].
    destruct (length (stopsToUse s) =? 0)%nat; [reflexivity |].
    destruct (stopsToUse s !! currentStopIndex s); [| reflexivity].
    destruct (arrived _ _ _); reflexivity. }
  rewrite Hsame, arrival_effect_index. split; [exact Hi |].
  destruct (arrival_effect_alerts s) as [-> | (from & stop & _ & _ & _ & _ & Hlt & ->)];
    [exact Ha |].
  apply Forall_app. split; [exact Ha |]. constructor; [exact Hlt | constructor].
Qed.

Lemma step_within (s : Screen) (e : Event) : within_route s -> within_route (step s e).
Proof.
  intros [Hi Ha]. destruct e as [l | k]; cbn [step].
  - unfold setCurrentLocation. apply arrival_effect_within. split; assumption.
  - unfold answer_alert. destruct (alerts s !! k) as [a |] eqn:Hk; [| split; assumption].
    assert (Hcap : (captured_index a < length (stopsToUse s) - 1)%nat).
    { rewrite Forall_forall in Ha. eapply Ha, list_elem_of_lookup_2, Hk. }
    unfold setCurrentStopIndex. cbn [currentStopIndex].
    destruct (captured_index a + 1 =? currentStopIndex s)%nat.
    + split; [exact Hi | apply Forall_delete, Ha].
    + apply arrival_effect_within. split; cbn [currentStopIndex alerts].
      * change (stopsToUse _) with (stopsToUse s). lia.
      * apply Forall_delete, Ha.
Qed.

(** Through any sequence of position updates and answers, the index never
    exceeds the index of the last stop. *)
Lemma session_index_bounded (es : list Event) :
  forall s, within_route s ->
    (currentStopIndex (run s es) <= length (stopsToUse s) - 1)%nat
    /\ stopsToUse (run s es) = stopsToUse s.
Proof.
  induction es as [| e es IH]; intros s Hs; cbn [run fold_left].
  - split; [apply Hs | reflexivity].
  - fold (run (step s e) es).
    assert (Hsame : stopsToUse (step s e) = stopsToUse s).
    { destruct e as [l | k]; cbn [step].
      - unfold setCurrentLocation, arrival_effect. cbn [isNavigating currentLocation].
        destruct (isNavigating s); [| reflexivity].
        destruct (length (stopsToUse _) =? 0)%nat; [reflexivity |].
        destruct (stopsToUse _ !! _); [| reflexivity].
        destruct (arrived _ _ _); reflexivity.
      - unfold answer_alert. destruct (alerts s !! k); [| reflexivity].
        unfold setCurrentStopIndex. cbn [currentStopIndex].
        destruct (_ =? _)%nat; [reflexivity |]. unfold arrival_effect.
        cbn [isNavigating currentLocation].
        destruct (isNavigating s); [| reflexivity].
        destruct (currentLocation s); [| reflexivity].
        destruct (length (stopsToUse _) =? 0)%nat; [reflexivity |].
        destruct (stopsToUse _ !! _); [| reflexivity].
        destruct (arrived _ _ _); reflexivity. }
    destruct (IH (step s e) (step_within s e Hs)) as [Hb Hst].
    rewrite Hst, Hsame in *. split; [exact Hb | reflexivity].
Qed.

End SessionBound.

(** ** The instructions of a step *)

Section Instructions.

Import DirectionsService.
Local Open Scope Z_scope.

Lemma angles_app (a b : list Z) : angles (a ++ b) = angles a ++ angles b.
Proof. apply List.filter_app. Qed.

Lemma angles_cons (c : Z) (s : list Z) :
  angles (c :: s) = if (c =? 60) || (c =? 62) then c :: angles s else angles s.
Proof. reflexivity. Qed.

Lemma has_gt_In (s : list Z) : has_gt s = true <-> In 62 s.
Proof.
  unfold has_gt. rewrite existsb_exists. split.
  - intros (x & Hx & E). apply Z.eqb_eq in E. subst x. exact Hx.
  - intros H. exists 62. split; [exact H | reflexivity].
Qed.

(** What [strip_tags] returns is made of code units of its argument, in
    their order. *)
Lemma strip_tags_sublist (s : list Z) (inside : bool) :
  sublist (strip_tags_from inside s) s.
Proof.
  revert inside. induction s as [| c rest IH]; intros inside; cbn [strip_tags_from].
  - constructor.
  - destruct inside.
    + destruct (c =? 62); apply sublist_cons, IH.
    + destruct ((c =? 60) && has_gt rest)%bool; [apply sublist_cons | apply sublist_skip]; apply IH.
Qed.

Lemma has_gt_sublist (a b : list Z) : sublist a b -> has_gt a = true -> has_gt b = true.
Proof.
  intros Hs. rewrite !has_gt_In, <- !list_elem_of_In. intros H.
  eapply sublist_subseteq; eassumption.
Qed.

(** After [strip_tags] no [>] follows a [<]. *)
Lemma strip_tags_closed (s : list Z) (l1 l2 : list Z) :
  strip_tags s = l1 ++ 60 :: l2 -> has_gt l2 = false.
Proof.
  unfold strip_tags. revert l1.
  assert (H : forall inside l1, strip_tags_from inside s = l1 ++ 60 :: l2 -> has_gt l2 = false);
    [| intros l1; apply H].
  induction s as [| c rest IH]; intros inside l1; cbn [strip_tags_from].
  - destruct l1; discriminate.
  - destruct inside.
    + destruct (c =? 62); apply IH.
    + destruct ((c =? 60) && has_gt rest)%bool eqn:E; [apply IH |].
      destruct l1 as [| x l1]; cbn [app]; intros Hout; injection Hout as -> Hout.
      * cbn in E. destruct (has_gt l2) eqn:G; [| reflexivity].
        rewrite (has_gt_sublist l2 rest) in E; [discriminate | | exact G].
        rewrite <- Hout. apply strip_tags_sublist.
      * eapply IH, Hout.
Qed.

Lemma filter_split {A : Type} (f : A -> bool) (l : list A) (x : A) (l1 l2 : list A) :
  List.filter f l = l1 ++ x :: l2 ->
  exists l1' l2', l = l1' ++ x :: l2' /\ List.filter f l1' = l1 /\ List.filter f l2' = l2.
Proof.
  revert l1. induction l as [| y l IH]; intros l1; cbn [List.filter].
  - destruct l1; discriminate.
  - destruct (f y) eqn:E.
    + destruct l1 as [| z l1]; cbn [app]; intros H; injection H as -> H.
      * exists [], l. cbn. auto.
      * destruct (IH l1 H) as (l1' & l2' & -> & <- & <-).
        exists (z :: l1'), l2'. cbn [app List.filter]. rewrite E. auto.
    + intros H. destruct (IH l1 H) as (l1' & l2' & -> & <- & <-).
      exists (y :: l1'), l2'. cbn [app List.filter]. rewrite E. auto.
Qed.

Lemma In_angles (s : list Z) : In 62 (angles s) <-> In 62 s.
Proof. unfold angles. rewrite filter_In. split; [tauto | intros H; split; [exact H | reflexivity]]. Qed.

Lemma angles_strip_tags (s : list Z) (l1 l2 : list Z) :
  angles (strip_tags s) = l1 ++ 60 :: l2 -> ~ In 62 l2.
Proof.
  intros H. apply filter_split in H as (l1' & l2' & Hs & _ & <-).
  apply strip_tags_closed in Hs. rewrite In_angles, <- has_gt_In. congruence.
Qed.

(** A literal replacement that neither removes nor adds a [<] or a [>]. *)
Lemma angles_replace_from (c0 : Z) (pattern replacement : list Z) :
  angles (c0 :: pattern) = [] -> angles replacement = [] ->
  forall (s : list Z) (skip : nat),
    angles (take skip s) = [] ->
    angles (replace_from (c0 :: pattern) replacement skip s) = angles s.
Proof.
  intros Hp Hr. induction s as [| c rest IH]; intros skip Hskip; [destruct skip; reflexivity |].
  cbn [replace_from]. destruct skip as [| skip].
  - unfold starts_with. destruct (bool_decide _) eqn:E.
    + apply bool_decide_eq_true in E. cbn [length take] in E. injection E as -> E.
      rewrite angles_app, Hr. cbn [app].
      replace (length (c0 :: pattern) - 1)%nat with (length pattern) by (cbn [length]; lia).
      rewrite angles_cons in Hp |- *. destruct ((c0 =? 60) || (c0 =? 62))%bool; [discriminate |].
      apply IH. rewrite E. exact Hp.
    + rewrite !angles_cons. rewrite IH by reflexivity. reflexivity.
  - cbn [take] in Hskip. rewrite angles_cons in Hskip |- *.
    destruct ((c =? 60) || (c =? 62))%bool; [discriminate |]. apply IH, Hskip.
Qed.

Lemma angles_replace_all (c0 : Z) (pattern replacement s : list Z) :
  angles (c0 :: pattern) = [] -> angles replacement = [] ->
  angles (replace_all (c0 :: pattern) replacement s) = angles s.
Proof. intros Hp Hr. apply angles_replace_from; [exact Hp | exact Hr | reflexivity]. Qed.

Lemma space_not_angle (c : Z) : is_space c = true -> ((c =? 60) || (c =? 62))%bool = false.
Proof.
  intros H. destruct (c =? 60) eqn:E1; [apply Z.eqb_eq in E1; subst c; discriminate |].
  destruct (c =? 62) eqn:E2; [apply Z.eqb_eq in E2; subst c; discriminate |]. reflexivity.
Qed.

Lemma angles_trim_start (s : list Z) : angles (trim_start s) = angles s.
Proof.
  induction s as [| c rest IH]; [reflexivity |]. cbn [trim_start].
  destruct (is_space c) eqn:E; [| reflexivity].
  rewrite IH, angles_cons, (space_not_angle c E). reflexivity.
Qed.

Lemma angles_trim_end (s : list Z) : angles (trim_end s) = angles s.
Proof.
  induction s as [| c rest IH]; [reflexivity |]. cbn [trim_end].
  destruct (trim_end rest) as [| y rest'] eqn:E.
  - rewrite angles_cons, <- IH. destruct (is_space c) eqn:S.
    + rewrite (space_not_angle c S). reflexivity.
    + reflexivity.
  - rewrite !angles_cons, <- IH. reflexivity.
Qed.

Lemma angles_cleanHtmlInstructions (html : list Z) :
  angles (cleanHtmlInstructions html) = angles (strip_tags html).
Proof.
  unfold cleanHtmlInstructions, trim, amp_amp, amp_nbsp.
  rewrite angles_trim_end, angles_trim_start.
  rewrite !angles_replace_all by reflexivity. reflexivity.
Qed.

Lemma trim_start_head (s : list Z) (c : Z) (rest : list Z) :
  trim_start s = c :: rest -> is_space c = false.
Proof.
  induction s as [| x s IH]; [discriminate |]. cbn [trim_start].
  destruct (is_space x) eqn:E; [exact IH |]. intros H. injection H as <- _. exact E.
Qed.

Lemma trim_end_head (s : list Z) (c : Z) (rest : list Z) :
  trim_end s = c :: rest -> exists rest', s = c :: rest'.
Proof.
  destruct s as [| x s]; [discriminate |]. cbn [trim_end].
  destruct (trim_end s); [destruct (is_space x); [discriminate |] |];
    intros H; injection H as <- _; eauto.
Qed.

Lemma trim_end_last (s : list Z) (pre : list Z) (c : Z) :
  trim_end s = pre ++ [c] -> is_space c = false.
Proof.
  revert pre. induction s as [| x s IH]; intros pre; cbn [trim_end].
  - destruct pre; discriminate.
  - destruct (trim_end s) as [| y rest'] eqn:E.
    + destruct (is_space x) eqn:S; [destruct pre; discriminate |].
      destruct pre as [| z [| w pre]]; try discriminate. intros H. injection H as <-. exact S.
    + destruct pre as [| z pre]; [discriminate |]. cbn [app]. intros H. injection H as _ H.
      apply (IH pre). exact H.
Qed.

(** X4. What [cleanHtmlInstructions] returns holds no tag: no [>] comes
    after a [<].  It neither begins nor ends with white space.  The entity
    [&amp;] is decoded after [&nbsp;]: an escaped entity is not decoded
    twice.  A [<] with no [>] after it stays; text between a [<] and the
    next [>] goes, tag or not. *)
Theorem X4_cleanHtmlInstructions :
  (forall html pre mid post : list Z,
      cleanHtmlInstructions html <> pre ++ [60] ++ mid ++ [62] ++ post)
  /\ (forall (html : list Z) (c : Z) (rest : list Z),
         cleanHtmlInstructions html = c :: rest -> is_space c = false)
  /\ (forall (html pre : list Z) (c : Z),
         cleanHtmlInstructions html = pre ++ [c] -> is_space c = false)
  /\ cleanHtmlInstructions
       (code_units " Gira a la <b>izquierda</b> en <div style=font-size:0.9em>Av.&nbsp;Ju&aacute;rez &amp; 5 de Mayo</div> ")
     = code_units "Gira a la izquierda en Av. Ju&aacute;rez & 5 de Mayo"
  /\ cleanHtmlInstructions (code_units "a > b, c < d, &amp;nbsp;")
     = code_units "a > b, c < d, &nbsp;"
  /\ cleanHtmlInstructions (code_units "a < b, c > d") = code_units "a  d".
Proof.
  split; [| split; [| split; [| split; [| split]]]].
  - intros html pre mid post H.
    pose proof (angles_cleanHtmlInstructions html) as E. rewrite H in E.
    rewrite !angles_app in E. cbn [angles List.filter Z.eqb orb app] in E.
    change (List.filter _ ?l) with (angles l) in E.
    symmetry in E. apply angles_strip_tags in E. apply E.
    apply in_or_app. right. left. reflexivity.
  - intros html c rest H. unfold cleanHtmlInstructions, trim in H.
    destruct (trim_end_head _ _ _ H) as [rest' E]. exact (trim_start_head _ _ _ E).
  - intros html pre c H. exact (trim_end_last _ _ _ H).
  - vm_compute. reflexivity.
  - vm_compute. reflexivity.
  - vm_compute. reflexivity.
Qed.

End Instructions.

(** ** The number of decoded points *)

Section DecoderCount.

Import DirectionsService.

(** One turn of the outer loop adds one point and reads at least two
    code units, so the points added from [index] on are at most half of
    what is left of the string, rounded up; a turn is taken whenever
    something is left. *)
Lemma decode_loop_count (fuel : nat) :
  forall (bound : nat) (encoded : list Z) (index : nat) (lat lng : Z)
         (points points' : list Location),
    decode_loop fuel bound encoded index lat lng points = Some points' ->
    (length points <= length points')%nat
    /\ (2 * (length points' - length points) <= length encoded - index + 1)%nat
    /\ ((index < length encoded)%nat -> (length points < length points')%nat)
    /\ ((length encoded <= index)%nat -> points' = points).
Proof.
  induction fuel as [| fuel IH]; intros bound encoded index lat lng points points' E.
  - cbn [decode_loop] in E. destruct (index <? length encoded)%nat eqn:Hlt; [discriminate |].
    apply Nat.ltb_ge in Hlt. inversion E. subst. repeat split; try lia.
  - cbn [decode_loop] in E. destruct (index <? length encoded)%nat eqn:Hlt.
    + apply Nat.ltb_lt in Hlt.
      destruct (read_chunks bound encoded index 0 0) as [[i1 r1] |] eqn:E1; [| discriminate].
      cbn [mbind option_bind] in E.
      destruct (read_chunks bound encoded i1 0 0) as [[i2 r2] |] eqn:E2; [| discriminate].
      cbn [mbind option_bind] in E.
      apply read_chunks_advances in E1. apply read_chunks_advances in E2.
      apply IH in E. rewrite length_app in E. cbn [length] in E.
      repeat split; lia.
    + apply Nat.ltb_ge in Hlt. inversion E. subst. repeat split; try lia.
Qed.

End DecoderCount.

(** X5. [decodePolyline] returns at most half as many points as the
    string has code units, rounded up, and at least one point for a
    string that is not empty: the empty string gives no point, a string
    of one code unit gives exactly one point (its longitude is read past
    the end of the string), and a string whose code units all ask for a
    continuation gives one point whatever its length. *)
Theorem X5_decodePolyline_count :
  (forall (encoded : list Z),
      exists points : list Location,
        DirectionsService.decodePolyline encoded = Some points
        /\ (2 * length points <= length encoded + 1)%nat
        /\ (encoded = [] <-> points = []))
  /\ (forall c : Z,
         exists point : Location,
           DirectionsService.decodePolyline [c] = Some [point])
  /\ length <$> DirectionsService.decodePolyline (code_units "_p~iF~ps|U_ulLnnqC_mqNvxq`@")
     = Some 3%nat
  /\ length <$> DirectionsService.decodePolyline (code_units "~~~~~~~~~~~~") = Some 1%nat
  /\ length <$> DirectionsService.decodePolyline (code_units "?") = Some 1%nat.
Proof.
  assert (Hcount : forall encoded : list Z,
             exists points : list Location,
               DirectionsService.decodePolyline encoded = Some points
               /\ (2 * length points <= length encoded + 1)%nat
               /\ (encoded = [] <-> points = [])).
  { intros encoded.
    destruct (decode_loop_total (S (length encoded)) (S (length encoded)) encoded 0 0 0 [])
      as [points E]; [lia | lia |].
    exists points. split; [exact E |].
    destruct (decode_loop_count _ _ _ _ _ _ _ _ E) as (_ & Hhalf & Hsome & Hnone).
    cbn [length] in Hhalf, Hsome. split; [lia |]. split.
    - intros ->. apply Hnone. cbn [length]. lia.
    - intros ->. destruct encoded as [| c rest]; [reflexivity |].
      cbn [length] in Hsome. lia. }
  split; [exact Hcount |]. split; [| split; [| split]].
  - intros c. destruct (Hcount [c]) as (points & E & Hhalf & Hempty).
    cbn [length] in Hhalf. destruct points as [| point [| second rest]].
    + destruct Hempty as [_ Hempty]. discriminate (Hempty eq_refl).
    + exists point. exact E.
    + cbn [length] in Hhalf. lia.
  - vm_compute. reflexivity.
  - vm_compute. reflexivity.
  - vm_compute. reflexivity.
Qed.

(** ** The order that the screen saves *)

Section SavedOrder.

Import RouteMapScreen.



End SavedOrder.



(** * Properties on doubles *)

(** ** Arithmetic of doubles *)

Section Doubles.

Import PrimFloat SpecFloat FloatOps FloatAxioms Binary64.
#[local] Set Warnings "-inexact-float".
Local Open Scope float_scope.

Lemma SF_round_sign (s : bool) (m e : Z) (l : location) :
  binary_round_aux prec emax (negb s) m e l = SFopp (binary_round_aux prec emax s m e l).
Proof.
  unfold binary_round_aux.
  destruct (shr_fexp prec emax m e l) as [mrs' e'].
  destruct (shr_fexp prec emax _ e' loc_Exact) as [mrs'' e''].
  destruct (shr_m mrs''); [reflexivity | | reflexivity].
  destruct (Z.leb e'' (Z.sub emax prec)); reflexivity.
Qed.

(** A rounded value keeps the sign it was given. *)
Lemma SF_round_cases (s : bool) (m e : Z) (l : location) :
  let r := binary_round_aux prec emax s m e l in
  r = S754_zero s \/ (exists m' e', r = S754_finite s m' e') \/ r = S754_infinity s \/ r = S754_nan.
Proof.
  unfold binary_round_aux.
  destruct (shr_fexp prec emax m e l) as [mrs' e'].
  destruct (shr_fexp prec emax _ e' loc_Exact) as [mrs'' e''].
  destruct (shr_m mrs'') as [| p | p]; cbv zeta; auto.
  destruct (Z.leb e'' (Z.sub emax prec)); eauto.
Qed.

Lemma SF_opp_involutive (x : spec_float) : SFopp (SFopp x) = x.
Proof. destruct x as [s | s | | s m e]; cbn; rewrite ?negb_involutive; reflexivity. Qed.

Lemma SF_mul_opp_l (x y : spec_float) : SF64mul (SFopp x) y = SFopp (SF64mul x y).
Proof.
  unfold SF64mul.
  destruct x as [sx | sx | | sx mx ex], y as [sy | sy | | sy my ey]; cbn [SFmul SFopp];
    try reflexivity; try (destruct sx, sy; reflexivity).
  rewrite <- SF_round_sign. f_equal. destruct sx, sy; reflexivity.
Qed.

Lemma SF_mul_comm (x y : spec_float) : SF64mul x y = SF64mul y x.
Proof.
  unfold SF64mul.
  destruct x as [sx | sx | | sx mx ex], y as [sy | sy | | sy my ey]; cbn [SFmul];
    try reflexivity; try (destruct sx, sy; reflexivity).
  rewrite Pos.mul_comm, Z.add_comm. f_equal. destruct sx, sy; reflexivity.
Qed.

Lemma SF_div_opp_l (x y : spec_float) : SF64div (SFopp x) y = SFopp (SF64div x y).
Proof.
  unfold SF64div.
  destruct x as [sx | sx | | sx mx ex], y as [sy | sy | | sy my ey]; cbn [SFdiv SFopp];
    try reflexivity; try (destruct sx, sy; reflexivity).
  destruct (SFdiv_core_binary prec emax (Z.pos mx) ex (Z.pos my) ey) as [[mz ez] lz].
  rewrite <- SF_round_sign. f_equal. destruct sx, sy; reflexivity.
Qed.

Lemma SF_sub_self (x : spec_float) :
  SF64sub x x
  = match x with
    | S754_zero _ | S754_finite _ _ _ => S754_zero false
    | _ => S754_nan
    end.
Proof.
  unfold SF64sub. destruct x as [s | s | | s m e]; cbn [SFsub].
  - destruct s; reflexivity.
  - destruct s; reflexivity.
  - reflexivity.
  - rewrite Z.sub_diag. reflexivity.
Qed.

Lemma SF_round_negative (m : positive) (e : Z) :
  binary_round prec emax true m e = SFopp (binary_round prec emax false m e).
Proof.
  unfold binary_round.
  destruct (shl_align m e _) as [mz ez].
  apply (SF_round_sign false).
Qed.

(** [y - x] is the opposite of [x - y], except that both are [+0] when the
    difference vanishes. *)
Lemma SF_sub_swap (x y : spec_float) :
  SF64sub y x = SFopp (SF64sub x y)
  \/ (SF64sub x y = S754_zero false /\ SF64sub y x = S754_zero false).
Proof.
  unfold SF64sub.
  destruct x as [sx | sx | | sx mx ex], y as [sy | sy | | sy my ey]; cbn [SFsub SFopp];
    try (left; reflexivity);
    try (destruct sx, sy; cbn; auto; fail).
  rewrite (Z.min_comm ey ex).
  set (a := cond_Zopp sx _). set (b := cond_Zopp sy _).
  destruct (Z.sub a b) as [| p | p] eqn:E.
  - right. replace (Z.sub b a) with 0%Z by lia. split; reflexivity.
  - left. replace (Z.sub b a) with (Z.neg p) by lia. cbn [binary_normalize].
    apply SF_round_negative.
  - left. replace (Z.sub b a) with (Z.pos p) by lia. cbn [binary_normalize].
    rewrite SF_round_negative, SF_opp_involutive. reflexivity.
Qed.

Ltac compare_cases :=
  repeat match goal with
  | |- context [Z.compare ?a ?b] => destruct (Z.compare_spec a b)
  | |- context [Pos.compare_cont Eq ?a ?b] =>
      change (Pos.compare_cont Eq a b) with (Pos.compare a b);
      destruct (Pos.compare_spec a b)
  | H : context [Z.compare ?a ?b] |- _ => destruct (Z.compare_spec a b)
  | H : context [Pos.compare_cont Eq ?a ?b] |- _ =>
      change (Pos.compare_cont Eq a b) with (Pos.compare a b) in H;
      destruct (Pos.compare_spec a b)
  end; cbn in *; try discriminate; try reflexivity; try lia.

Lemma SF_ltb_irrefl (x : spec_float) : SFltb x x = false.
Proof.
  unfold SFltb, SFcompare. destruct x as [s | s | | s m e]; try destruct s; try reflexivity;
    compare_cases.
Qed.

Lemma SF_ltb_trans (x y z : spec_float) :
  SFltb x y = true -> SFltb y z = true -> SFltb x z = true.
Proof.
  unfold SFltb, SFcompare.
  destruct x as [sx | sx | | sx mx ex], y as [sy | sy | | sy my ey], z as [sz | sz | | sz mz ez];
    try destruct sx; try destruct sy; try destruct sz; try discriminate; try reflexivity;
    intros H1 H2; compare_cases.
Qed.

Lemma SF_leb_ltb_trans (x y z : spec_float) :
  SFleb x y = true -> SFltb y z = true -> SFltb x z = true.
Proof.
  unfold SFltb, SFleb, SFcompare.
  destruct x as [sx | sx | | sx mx ex], y as [sy | sy | | sy my ey], z as [sz | sz | | sz mz ez];
    try destruct sx; try destruct sy; try destruct sz; try discriminate; try reflexivity;
    intros H1 H2; compare_cases.
Qed.

Lemma SF_leb_trans (x y z : spec_float) :
  SFleb x y = true -> SFleb y z = true -> SFleb x z = true.
Proof.
  unfold SFleb, SFcompare.
  destruct x as [sx | sx | | sx mx ex], y as [sy | sy | | sy my ey], z as [sz | sz | | sz mz ez];
    try destruct sx; try destruct sy; try destruct sz; try discriminate; try reflexivity;
    intros H1 H2; compare_cases.
Qed.

Lemma SF_ltb_total (x y : spec_float) :
  x <> S754_nan -> y <> S754_nan -> SFltb x y = false -> SFleb y x = true.
Proof.
  unfold SFltb, SFleb, SFcompare.
  destruct x as [sx | sx | | sx mx ex], y as [sy | sy | | sy my ey];
    try destruct sx; try destruct sy; try discriminate; try reflexivity; try congruence;
    intros _ _ H; compare_cases.
Qed.

(** The same facts on the doubles of the kernel. *)

Lemma double_opp_involutive (x : float) : - - x = x.
Proof. apply Prim2SF_inj. rewrite !opp_spec. apply SF_opp_involutive. Qed.

Lemma double_mul_opp_l (x y : float) : (- x) * y = - (x * y).
Proof. apply Prim2SF_inj. rewrite opp_spec, !mul_spec, opp_spec. apply SF_mul_opp_l. Qed.

Lemma double_mul_comm (x y : float) : x * y = y * x.
Proof. apply Prim2SF_inj. rewrite !mul_spec. apply SF_mul_comm. Qed.

Lemma double_mul_opp_r (x y : float) : x * (- y) = - (x * y).
Proof. rewrite (double_mul_comm x (- y)), double_mul_opp_l, (double_mul_comm y x). reflexivity. Qed.

Lemma double_mul_opp_opp (x y : float) : (- x) * (- y) = x * y.
Proof. rewrite double_mul_opp_l, double_mul_opp_r. apply double_opp_involutive. Qed.

Lemma double_div_opp_l (x y : float) : (- x) / y = - (x / y).
Proof. apply Prim2SF_inj. rewrite opp_spec, !div_spec, opp_spec. apply SF_div_opp_l. Qed.

Lemma double_sub_self (x : float) : x - x = if isFinite x then 0 else nan.
Proof.
  apply Prim2SF_inj. rewrite sub_spec, SF_sub_self. unfold isFinite.
  destruct (Prim2SF x); reflexivity.
Qed.

Lemma double_sub_swap (x y : float) : y - x = - (x - y) \/ (x - y = 0 /\ y - x = 0).
Proof.
  destruct (SF_sub_swap (Prim2SF x) (Prim2SF y)) as [E | [E1 E2]].
  - left. apply Prim2SF_inj. rewrite opp_spec, !sub_spec. exact E.
  - right. split; apply Prim2SF_inj; rewrite sub_spec; assumption.
Qed.

Lemma double_mul_NaN_l (x : float) : nan * x = nan.
Proof. apply Prim2SF_inj. rewrite mul_spec. reflexivity. Qed.

Lemma double_mul_NaN_r (x : float) : x * nan = nan.
Proof. rewrite double_mul_comm. apply double_mul_NaN_l. Qed.

Lemma double_add_NaN_l (x : float) : nan + x = nan.
Proof. apply Prim2SF_inj. rewrite add_spec. reflexivity. Qed.

Lemma double_add_NaN_r (x : float) : x + nan = nan.
Proof.
  apply Prim2SF_inj. rewrite add_spec. change (Prim2SF nan) with S754_nan.
  destruct (Prim2SF x); reflexivity.
Qed.

Lemma double_sub_NaN_l (x : float) : nan - x = nan.
Proof. apply Prim2SF_inj. rewrite sub_spec. reflexivity. Qed.

Lemma double_sub_NaN_r (x : float) : x - nan = nan.
Proof.
  apply Prim2SF_inj. rewrite sub_spec. change (Prim2SF nan) with S754_nan.
  destruct (Prim2SF x); reflexivity.
Qed.

(** A square is not negative: multiplied by [+0] it gives [+0], unless it
    is [Infinity] or [NaN]. *)
Lemma double_square_by_zero (c : float) :
  c * c * 0 = if isFinite (c * c) then 0 else nan.
Proof.
  apply Prim2SF_inj. unfold isFinite. rewrite mul_spec, (mul_spec c c).
  change (Prim2SF 0) with (S754_zero false). unfold SF64mul.
  destruct (Prim2SF c) as [s | s | | s m e]; cbn [SFmul].
  - destruct s; reflexivity.
  - destruct s; reflexivity.
  - reflexivity.
  - replace (xorb s s) with false by (destruct s; reflexivity).
    destruct (SF_round_cases false (Z.pos (m * m)) (e + e) loc_Exact)
      as [E | [(m' & e' & E) | [E | E]]]; cbv zeta in E; rewrite E; reflexivity.
Qed.

(** A finite product has finite factors, a finite quotient a finite
    numerator. *)
Lemma double_mul_finite (x y : float) :
  isFinite (x * y) = true -> isFinite x = true /\ isFinite y = true.
Proof.
  unfold isFinite. rewrite mul_spec. unfold SF64mul.
  destruct (Prim2SF x) as [sx | sx | | sx mx ex], (Prim2SF y) as [sy | sy | | sy my ey];
    cbn [SFmul]; auto; discriminate.
Qed.

Lemma double_div_finite (x y : float) : isFinite (x / y) = true -> isFinite x = true.
Proof.
  unfold isFinite. rewrite div_spec. unfold SF64div.
  destruct (Prim2SF x) as [sx | sx | | sx mx ex], (Prim2SF y) as [sy | sy | | sy my ey];
    cbn [SFdiv]; auto; discriminate.
Qed.

(** Between -1 and 1. *)
Lemma double_within_one (r : float) :
  (r <? -1) = false -> (r <=? 1) = true -> (abs r <=? 1) = true.
Proof.
  rewrite ltb_spec, !leb_spec, abs_spec.
  change (Prim2SF 1) with (S754_finite false 4503599627370496 (-52)).
  change (Prim2SF (-1)) with (S754_finite true 4503599627370496 (-52)).
  unfold SFltb, SFleb, SFcompare.
  destruct (Prim2SF r) as [s | s | | s m e]; cbn [SFabs]; try discriminate.
  - intros _ _. reflexivity.
  - destruct s; discriminate.
  - destruct s; [| intros _ H; exact H].
    destruct (e ?= -52)%Z; [| reflexivity | discriminate].
    destruct (Pos.compare_cont Eq m 4503599627370496); [reflexivity | reflexivity | discriminate].
Qed.

Lemma double_finite_abs (x : float) :
  isFinite x = true -> isNaN (abs x) = false /\ (abs x =? infinity) = false.
Proof.
  unfold isFinite, isNaN. rewrite eqb_spec, abs_spec.
  change (Prim2SF infinity) with (S754_infinity false).
  destruct (Prim2SF x) as [s | s | | s m e]; try discriminate; auto.
Qed.

Lemma double_ltb_irrefl (x : float) : (x <? x) = false.
Proof. rewrite ltb_spec. apply SF_ltb_irrefl. Qed.

Lemma double_ltb_trans (x y z : float) :
  (x <? y) = true -> (y <? z) = true -> (x <? z) = true.
Proof. rewrite !ltb_spec. apply SF_ltb_trans. Qed.

Lemma double_leb_ltb_trans (x y z : float) :
  (x <=? y) = true -> (y <? z) = true -> (x <? z) = true.
Proof. rewrite !ltb_spec, leb_spec. apply SF_leb_ltb_trans. Qed.

Lemma double_leb_trans (x y z : float) :
  (x <=? y) = true -> (y <=? z) = true -> (x <=? z) = true.
Proof. rewrite !leb_spec. apply SF_leb_trans. Qed.

Lemma double_ltb_not_NaN (x y : float) :
  (x <? y) = true -> isNaN x = false /\ isNaN y = false.
Proof.
  rewrite ltb_spec. unfold isNaN, SFltb, SFcompare.
  destruct (Prim2SF x), (Prim2SF y); try discriminate; auto.
Qed.

Lemma double_leb_not_NaN (x y : float) :
  (x <=? y) = true -> isNaN x = false /\ isNaN y = false.
Proof.
  rewrite leb_spec. unfold isNaN, SFleb, SFcompare.
  destruct (Prim2SF x), (Prim2SF y); try discriminate; auto.
Qed.

Lemma double_ltb_total (x y : float) :
  isNaN x = false -> isNaN y = false -> (x <? y) = false -> (y <=? x) = true.
Proof.
  rewrite ltb_spec, leb_spec. unfold isNaN. intros Hx Hy.
  apply SF_ltb_total; intros E; rewrite E in *; discriminate.
Qed.

(** Of a positive number: it is a number, and its sign bit is clear. *)
Lemma double_positive (x : float) :
  (0 <? x) = true -> isNaN x = false /\ sign_bit x = false /\ (x <? 0) = false.
Proof.
  rewrite !ltb_spec. unfold isNaN, sign_bit. change (Prim2SF 0) with (S754_zero false).
  unfold SFltb, SFcompare.
  destruct (Prim2SF x) as [s | s | | s m e]; try discriminate; destruct s; try discriminate; auto.
Qed.

(** The comparisons with zero of a number and of its opposite. *)
Lemma double_opp_sign (x : float) : (- x <? 0) = (0 <? x) /\ (0 <? - x) = (x <? 0).
Proof.
  rewrite !ltb_spec, opp_spec. change (Prim2SF 0) with (S754_zero false).
  unfold SFltb, SFcompare.
  destruct (Prim2SF x) as [s | s | | s m e]; try destruct s; split; reflexivity.
Qed.

(** *** The square of a number between -1 and 1 *)

Lemma digits2_log2 (p : positive) : Z.pos (digits2_pos p) = (Z.log2 (Z.pos p) + 1)%Z.
Proof.
  assert (H : forall q, digits2_pos q = Pos.size q)
    by (induction q as [q IH | q IH |]; cbn; rewrite ?IH; reflexivity).
  rewrite H. destruct p; cbn; lia.
Qed.

Lemma Zdigits2_le (a b : Z) : (0 <= a <= b)%Z -> (Zdigits2 a <= Zdigits2 b)%Z.
Proof.
  intros [Ha Hab]. destruct a as [| a | a]; [| | lia].
  - destruct b; cbn; lia.
  - destruct b as [| b | b]; [lia | | lia]. cbn [Zdigits2].
    rewrite !digits2_log2. pose proof (Z.log2_le_mono (Z.pos a) (Z.pos b) Hab). lia.
Qed.

Lemma Zdigits2_mul (a b : positive) :
  (Zdigits2 (Z.pos (a * b)) <= Z.pos (digits2_pos a) + Z.pos (digits2_pos b))%Z.
Proof.
  cbn [Zdigits2]. rewrite !digits2_log2, Pos2Z.inj_mul.
  pose proof (Z.log2_mul_above (Z.pos a) (Z.pos b)). lia.
Qed.

Lemma shr_1_bound (mrs : shr_record) (B : Z) :
  (0 <= shr_m mrs <= B)%Z -> (0 <= shr_m (shr_1 mrs) <= B)%Z.
Proof.
  destruct mrs as [m r s]. cbn [shr_m]. intros H.
  destruct m as [| [p | p |] | p]; cbn [shr_1 shr_m]; lia.
Qed.

Lemma iter_shr_1_bound (n : positive) (mrs : shr_record) (B : Z) :
  (0 <= shr_m mrs <= B)%Z -> (0 <= shr_m (iter_pos shr_1 n mrs) <= B)%Z.
Proof.
  revert mrs. induction n as [n IH | n IH |]; intros mrs H; cbn [iter_pos].
  - apply IH, IH, shr_1_bound, H.
  - apply IH, IH, H.
  - apply shr_1_bound, H.
Qed.

(** [shr_fexp] on a mantissa within [0 .. B]: the mantissa stays there, and
    the exponent is the old one or the one that [fexp] gives. *)
Lemma shr_fexp_bound (m e : Z) (l : location) (B : Z) :
  (0 <= m <= B)%Z ->
  let r := shr_fexp prec emax m e l in
  (0 <= shr_m (fst r) <= B)%Z
  /\ (snd r = e \/ snd r = fexp prec emax (Zdigits2 m + e))%Z.
Proof.
  intros H. unfold shr_fexp, shr.
  assert (Hm : shr_m (shr_record_of_loc m l) = m) by (destruct l as [| []]; reflexivity).
  destruct (fexp prec emax (Zdigits2 m + e) - e)%Z as [| n | n] eqn:E; cbn [fst snd].
  - rewrite Hm. auto.
  - split; [apply iter_shr_1_bound; rewrite Hm; exact H |]. right. lia.
  - rewrite Hm. auto.
Qed.

Lemma round_nearest_even_bound (m : Z) (l : location) :
  (0 <= m)%Z -> (0 <= round_nearest_even m l <= m + 1)%Z.
Proof. intros H. destruct l as [| []]; cbn; try destruct (Z.even m); lia. Qed.

(** The square of a number of magnitude at most 1 is finite. *)
Lemma SF_square_finite (s : bool) (m : positive) (e : Z) :
  (Z.pos (digits2_pos m) <= 53)%Z -> (e <= -52)%Z ->
  match SF64mul (S754_finite s m e) (S754_finite s m e) with
  | S754_zero _ | S754_finite _ _ _ => True
  | _ => False
  end.
Proof.
  intros Hd He. unfold SF64mul. cbn [SFmul]. unfold binary_round_aux.
  pose proof (Zdigits2_mul m m) as Hmm.
  destruct (shr_fexp_bound (Z.pos (m * m)) (e + e) loc_Exact (Z.pos (m * m))) as [Hb1 He1];
    [lia |].
  destruct (shr_fexp prec emax (Z.pos (m * m)) (e + e) loc_Exact) as [mrs' e'].
  cbn [fst snd] in Hb1, He1.
  assert (He' : (e' <= -51)%Z).
  { destruct He1 as [-> | ->]; [lia |]. unfold fexp, SpecFloat.emin, prec, emax. lia. }
  pose proof (round_nearest_even_bound (shr_m mrs') (loc_of_shr_record mrs') (proj1 Hb1)) as Hr.
  set (m1 := round_nearest_even (shr_m mrs') (loc_of_shr_record mrs')) in *.
  destruct (shr_fexp_bound m1 e' loc_Exact (Z.pos (m * m) + 1)) as [Hb2 He2]; [lia |].
  destruct (shr_fexp prec emax m1 e' loc_Exact) as [mrs'' e''].
  cbn [fst snd] in Hb2, He2.
  assert (He'' : (e'' <= 971)%Z).
  { destruct He2 as [-> | ->]; [lia |].
    pose proof (Zdigits2_le m1 (Z.pos (m * m) + 1) ltac:(lia)) as Hd1.
    assert (Zdigits2 (Z.pos (m * m) + 1) <= Zdigits2 (Z.pos (m * m)) + 1)%Z as Hd2.
    { replace (Z.pos (m * m) + 1)%Z with (Z.pos (m * m + 1)) by lia. cbn [Zdigits2].
      rewrite !digits2_log2.
      pose proof (Z.log2_succ_le (Z.pos (m * m))).
      replace (Z.pos (m * m + 1)) with (Z.succ (Z.pos (m * m))) by lia. lia. }
    unfold fexp, SpecFloat.emin, prec, emax. lia. }
  destruct (shr_m mrs'') as [| p | p]; [exact I | | lia].
  replace (Z.leb e'' (Z.sub emax prec)) with true; [exact I |].
  symmetry. apply Z.leb_le. unfold prec, emax. lia.
Qed.

Lemma double_square_finite (c : float) : (abs c <=? 1) = true -> isFinite (c * c) = true.
Proof.
  rewrite leb_spec, abs_spec. unfold isFinite. rewrite mul_spec.
  pose proof (Prim2SF_valid c) as Hv.
  change (Prim2SF 1) with (S754_finite false 4503599627370496 (-52)).
  destruct (Prim2SF c) as [s | s | | s m e]; cbn [SFabs]; unfold SFleb, SFcompare.
  - intros _. destruct s; reflexivity.
  - discriminate.
  - discriminate.
  - intros H. cbn [valid_binary] in Hv. unfold bounded, canonical_mantissa in Hv.
    apply andb_true_iff in Hv as [Hc _]. apply Z.eqb_eq in Hc.
    assert (Hd : (Z.pos (digits2_pos m) <= 53)%Z)
      by (unfold fexp, SpecFloat.emin, prec, emax in Hc; lia).
    assert (He : (e <= -52)%Z).
    { destruct (Z.compare_spec e (-52)); [lia | lia | discriminate]. }
    pose proof (SF_square_finite s m e Hd He) as F.
    destruct (SF64mul (S754_finite s m e) (S754_finite s m e)); [reflexivity | | | reflexivity];
      contradiction.
Qed.

(** Two doubles with distinct images under [Prim2SF] are distinct. *)
Lemma double_neq (x y : float) : Prim2SF x <> Prim2SF y -> x <> y.
Proof. intros H E. apply H. rewrite E. reflexivity. Qed.

End Doubles.

(** ** The haversine formula on doubles *)

Section Haversine64.

Import PrimFloat SpecFloat FloatOps FloatAxioms Binary64.
#[local] Set Warnings "-inexact-float".
Local Open Scope float_scope.

Variable M : MathLibrary.

(** The two services compute the same angle and scale it by their radius. *)
Lemma kilometres_by_angle (lat1 lon1 lat2 lon2 : float) :
  RouteOptimizer.calculateDistance M lat1 lon1 lat2 lon2 = 6371 * angle M lat1 lon1 lat2 lon2.
Proof. reflexivity. Qed.

Lemma metres_by_angle (lat1 lon1 lat2 lon2 : float) :
  DirectionsService.calculateDistance M lat1 lon1 lat2 lon2 = 6371e3 * angle M lat1 lon1 lat2 lon2.
Proof. reflexivity. Qed.

Lemma double_not_finite (x : float) :
  isFinite x = false -> x = infinity \/ x = neg_infinity \/ x = nan.
Proof.
  unfold isFinite. destruct (Prim2SF x) as [s | s | | s m e] eqn:E; try discriminate; intros _.
  - destruct s; [right; left | left]; apply Prim2SF_inj; rewrite E; reflexivity.
  - right; right. apply Prim2SF_inj; rewrite E; reflexivity.
Qed.

Hypothesis conforms : ecma262 M.

Lemma cos_not_finite (x : float) : isFinite x = false -> Math_cos M x = nan.
Proof.
  intros H. destruct (double_not_finite x H) as [E | [E | E]]; rewrite E.
  - apply (cos_infinity M conforms).
  - apply (cos_neg_infinity M conforms).
  - apply (cos_NaN M conforms).
Qed.

Lemma sin_not_finite (x : float) : isFinite x = false -> Math_sin M x = nan.
Proof.
  intros H. destruct (double_not_finite x H) as [E | [E | E]]; rewrite E.
  - apply (sin_infinity M conforms).
  - apply (sin_neg_infinity M conforms).
  - apply (sin_NaN M conforms).
Qed.

Lemma hav_self (lat lon : float) :
  hav M lat lon lat lon = if tame M lat lon then 0 else nan.
Proof.
  unfold hav, tame. rewrite !double_sub_self.
  destruct (isFinite lat); [destruct (isFinite lon) |]; cbn [andb].
  - change (0 * Math_PI / 180 / 2) with 0. rewrite (sin_zero M conforms).
    change (0 * 0) with 0. rewrite double_square_by_zero.
    destruct (isFinite _); reflexivity.
  - change (nan * Math_PI / 180 / 2) with nan. rewrite (sin_NaN M conforms).
    rewrite !double_mul_NaN_r. apply double_add_NaN_r.
  - change (nan * Math_PI / 180 / 2) with nan. rewrite (sin_NaN M conforms).
    change (nan * nan) with nan. apply double_add_NaN_l.
Qed.

Lemma angle_of_zero (lat1 lon1 lat2 lon2 : float) :
  hav M lat1 lon1 lat2 lon2 = 0 -> angle M lat1 lon1 lat2 lon2 = 0.
Proof.
  intros E. unfold angle. rewrite E. unfold Math_sqrt.
  change (sqrt 0) with 0. change (sqrt (1 - 0)) with 1.
  rewrite (atan2_zero_positive M conforms) by reflexivity. reflexivity.
Qed.

Lemma angle_of_NaN (lat1 lon1 lat2 lon2 : float) :
  hav M lat1 lon1 lat2 lon2 = nan -> angle M lat1 lon1 lat2 lon2 = nan.
Proof.
  intros E. unfold angle. rewrite E. unfold Math_sqrt.
  change (sqrt nan) with nan. rewrite (atan2_NaN_y M conforms). reflexivity.
Qed.

(** From a point to itself the distance is [+0] when the point is tame, and
    [NaN] when it is not. *)
Lemma distance_self (lat lon : float) :
  RouteOptimizer.calculateDistance M lat lon lat lon = if tame M lat lon then 0 else nan.
Proof.
  rewrite kilometres_by_angle. pose proof (hav_self lat lon) as E.
  destruct (tame M lat lon).
  - rewrite angle_of_zero by exact E. reflexivity.
  - rewrite angle_of_NaN by exact E. reflexivity.
Qed.

(** The latitude in radians overflows: the point is not tame. *)
Lemma overflow_not_tame (lat lon : float) :
  isFinite (lat * Math_PI / 180) = false -> tame M lat lon = false.
Proof.
  intros H. unfold tame. rewrite (cos_not_finite _ H).
  change (isFinite (nan * nan)) with false. apply andb_false_r.
Qed.

(** For a library whose cosine stays between -1 and 1, the tame points
    are those of finite longitude whose latitude in radians is finite. *)
Lemma tame_bounded_cosine (lat lon : float) :
  bounded_cosine M ->
  tame M lat lon = isFinite (lat * Math_PI / 180) && isFinite lon.
Proof.
  intros bounded. destruct (isFinite (lat * Math_PI / 180)) eqn:H.
  - unfold tame. rewrite (double_square_finite _ (bounded _ H)).
    apply double_div_finite, double_mul_finite in H as [H _]. rewrite H.
    destruct (isFinite lon); reflexivity.
  - apply overflow_not_tame, H.
Qed.

(** A cosine that is [NaN] at either end makes the angle [NaN], and the
    distance with it. *)
Lemma angle_NaN_from (lat1 lon1 lat2 lon2 : float) :
  isFinite (lat1 * Math_PI / 180) = false -> angle M lat1 lon1 lat2 lon2 = nan.
Proof.
  intros H. apply angle_of_NaN.
  unfold hav. rewrite (cos_not_finite _ H), double_mul_NaN_l, !double_mul_NaN_l.
  apply double_add_NaN_r.
Qed.

Lemma angle_NaN_to (lat1 lon1 lat2 lon2 : float) :
  isFinite (lat2 * Math_PI / 180) = false -> angle M lat1 lon1 lat2 lon2 = nan.
Proof.
  intros H. apply angle_of_NaN.
  unfold hav. rewrite (cos_not_finite _ H), double_mul_NaN_r, !double_mul_NaN_l.
  apply double_add_NaN_r.
Qed.

Lemma distance_NaN_from (lat1 lon1 lat2 lon2 : float) :
  isFinite (lat1 * Math_PI / 180) = false ->
  RouteOptimizer.calculateDistance M lat1 lon1 lat2 lon2 = nan.
Proof. intros H. rewrite kilometres_by_angle, angle_NaN_from by exact H. reflexivity. Qed.

Lemma distance_NaN_to (lat1 lon1 lat2 lon2 : float) :
  isFinite (lat2 * Math_PI / 180) = false ->
  RouteOptimizer.calculateDistance M lat1 lon1 lat2 lon2 = nan.
Proof. intros H. rewrite kilometres_by_angle, angle_NaN_to by exact H. reflexivity. Qed.

End Haversine64.

Section Symmetry64.

Import PrimFloat SpecFloat FloatOps FloatAxioms Binary64.
#[local] Set Warnings "-inexact-float".
Local Open Scope float_scope.

Variable M : MathLibrary.
Hypothesis odd : odd_sine M.

(** The sines of the two half differences are opposite, or equal when the
    difference vanishes. *)
Lemma sine_half_difference_swap (x y : float) :
  Math_sin M ((x - y) * Math_PI / 180 / 2) = - Math_sin M ((y - x) * Math_PI / 180 / 2)
  \/ Math_sin M ((x - y) * Math_PI / 180 / 2) = Math_sin M ((y - x) * Math_PI / 180 / 2).
Proof.
  destruct (double_sub_swap y x) as [E | [E1 E2]].
  - left. rewrite E, double_mul_opp_l, !double_div_opp_l. apply odd.
  - right. rewrite E1, E2. reflexivity.
Qed.

Lemma hav_swap (lat1 lon1 lat2 lon2 : float) :
  hav M lat1 lon1 lat2 lon2 = hav M lat2 lon2 lat1 lon1.
Proof.
  unfold hav. rewrite (double_mul_comm (Math_cos M (lat2 * Math_PI / 180))).
  destruct (sine_half_difference_swap lat1 lat2) as [E | E];
    destruct (sine_half_difference_swap lon1 lon2) as [F | F]; rewrite E, F;
    rewrite ?double_mul_opp_opp, ?double_mul_opp_r, ?double_mul_opp_l,
            ?double_opp_involutive; reflexivity.
Qed.

Lemma distance_swap (lat1 lon1 lat2 lon2 : float) :
  RouteOptimizer.calculateDistance M lat1 lon1 lat2 lon2
  = RouteOptimizer.calculateDistance M lat2 lon2 lat1 lon1.
Proof.
  rewrite !kilometres_by_angle. unfold angle. rewrite (hav_swap lat1 lon1 lat2 lon2).
  reflexivity.
Qed.

End Symmetry64.

(** ** The polynomial library *)

Section PolynomialLibrary.

Import PrimFloat SpecFloat FloatOps FloatAxioms Binary64.
#[local] Set Warnings "-inexact-float".
Local Open Scope float_scope.

Lemma polynomial_conforms : ecma262 Polynomial.library.
Proof.
  split; try reflexivity.
  - intros x. cbn. unfold Polynomial.atan2. destruct (isNaN x); reflexivity.
  - intros x Hx. destruct (double_positive x Hx) as (Hn & Hs & _).
    cbn. unfold Polynomial.atan2. rewrite Hn, Hs. reflexivity.
  - intros x Hx. destruct (double_positive x Hx) as (Hn & Hs & _).
    cbn. unfold Polynomial.atan2. rewrite Hn, Hs. reflexivity.
Qed.

Lemma polynomial_bounded : bounded_cosine Polynomial.library.
Proof.
  intros x Hx. cbn. unfold Polynomial.cos.
  destruct (double_finite_abs x Hx) as [-> ->]. cbv zeta.
  unfold Polynomial.within_one.
  match goal with |- context [if ?r <? -1 then _ else _] => set (value := r) end.
  destruct (value <? -1) eqn:Hlow; [reflexivity |].
  destruct (value <=? 1) eqn:Hhigh; [| reflexivity].
  apply double_within_one; assumption.
Qed.

(** Rounding can take the quantity [a] above 1, at coordinates of the
    globe: between (2.5, 0) and (-2.5, 180) the library computes
    1.0000000000000002, the square root of [1 - a] is [NaN] and so is the
    distance. *)
Lemma antipodes_NaN :
  hav Polynomial.library 2.5 0 (-2.5) 180 = 1.0000000000000002
  /\ RouteOptimizer.calculateDistance Polynomial.library 2.5 0 (-2.5) 180 = nan.
Proof. split; vm_compute; reflexivity. Qed.

Lemma polynomial_odd : odd_sine Polynomial.library.
Proof.
  intros x. cbn. unfold Polynomial.sin.
  destruct (double_opp_sign x) as [E1 E2]. rewrite E1, E2.
  destruct (0 <? x) eqn:Hpos.
  - destruct (double_positive x Hpos) as (_ & _ & Hneg). rewrite Hneg.
    rewrite double_opp_involutive. reflexivity.
  - destruct (x <? 0); [rewrite double_opp_involutive |]; reflexivity.
Qed.

End PolynomialLibrary.

(** ** The scan on computed distances *)

Section Scan64.

Import PrimFloat Binary64.
#[local] Set Warnings "-inexact-float".
Local Open Scope float_scope.

Variable M : MathLibrary.
Variable currentLocation : Location.

Lemma double_leb_not_ltb (x y : float) : (x <=? y) = true -> (y <? x) = false.
Proof.
  intros H. destruct (y <? x) eqn:E; [| reflexivity].
  pose proof (double_leb_ltb_trans _ _ _ H E) as T.
  rewrite double_ltb_irrefl in T. discriminate.
Qed.

Lemma scan_unfold (acc : nat * float) (stop : RouteStop) (index : nat) :
  RouteOptimizer.scan M currentLocation acc stop index
  = if distance_from M currentLocation stop <? snd acc
    then (index, distance_from M currentLocation stop) else acc.
Proof. reflexivity. Qed.

Lemma scanned_next (seen : list RouteStop) (acc : nat * float) (stop : RouteStop) :
  scanned M currentLocation seen acc ->
  scanned M currentLocation (seen ++ [stop])
          (RouteOptimizer.scan M currentLocation acc stop (length seen)).
Proof.
  rewrite scan_unfold.
  assert (Hlast : (seen ++ [stop]) !! length seen = Some stop)
    by (rewrite lookup_app_r, Nat.sub_diag by lia; reflexivity).
  assert (Hin : forall j s, (seen ++ [stop]) !! j = Some s -> seen !! j = Some s \/ s = stop).
  { intros j s Hj. apply lookup_app_Some in Hj as [Hj | [_ Hj]]; [auto |].
    right. apply list_lookup_singleton_Some in Hj as [_ Hj]. congruence. }
  assert (Hbefore : forall j s, (j < length seen)%nat -> (seen ++ [stop]) !! j = Some s ->
                                seen !! j = Some s)
    by (intros j s Hj Hs; rewrite lookup_app_l in Hs by exact Hj; exact Hs).
  intros [[-> Hnone] | [(nearest & Hi & Hlt & Hmin & Hfirst) Hd]].
  - cbn [snd]. destruct (distance_from M currentLocation stop <? Infinity) eqn:Hx.
    + right. cbn [fst snd]. split; [| rewrite Hlast; reflexivity].
      exists stop. split; [exact Hlast |]. split; [exact Hx |]. split.
      * intros j s Hj. destruct (Hin j s Hj) as [Hs | ->]; [| apply double_ltb_irrefl].
        match goal with |- ?c = false => destruct c eqn:E; [| reflexivity] end.
        rewrite <- (Hnone j s Hs). symmetry. exact (double_ltb_trans _ _ _ E Hx).
      * intros j s Hj Hs. apply Hbefore in Hs; [| exact Hj].
        match goal with |- ?c = false => destruct c eqn:E; [| reflexivity] end.
        rewrite <- (Hnone j s Hs). symmetry. exact (double_leb_ltb_trans _ _ _ E Hx).
    + left. split; [reflexivity |].
      intros j s Hj. destruct (Hin j s Hj) as [Hs | ->]; [exact (Hnone j s Hs) | exact Hx].
  - rewrite Hi in Hd.
    change (Some (distance_from M currentLocation nearest) = Some (snd acc)) in Hd.
    injection Hd as Hd.
    pose proof (lookup_lt_Some _ _ _ Hi) as Hrange.
    destruct (distance_from M currentLocation stop <? snd acc) eqn:Hx.
    + right. cbn [fst snd]. split; [| rewrite Hlast; reflexivity].
      rewrite <- Hd in Hx.
      exists stop. split; [exact Hlast |]. split; [exact (double_ltb_trans _ _ _ Hx Hlt) |]. split.
      * intros j s Hj. destruct (Hin j s Hj) as [Hs | ->]; [| apply double_ltb_irrefl].
        match goal with |- ?c = false => destruct c eqn:E; [| reflexivity] end.
        rewrite <- (Hmin j s Hs). symmetry. exact (double_ltb_trans _ _ _ E Hx).
      * intros j s Hj Hs. apply Hbefore in Hs; [| exact Hj].
        match goal with |- ?c = false => destruct c eqn:E; [| reflexivity] end.
        rewrite <- (Hmin j s Hs). symmetry. exact (double_leb_ltb_trans _ _ _ E Hx).
    + right. split.
      * exists nearest. split; [rewrite lookup_app_l by exact Hrange; exact Hi |].
        split; [exact Hlt |]. split.
        -- intros j s Hj. destruct (Hin j s Hj) as [Hs | ->]; [exact (Hmin j s Hs) |].
           rewrite Hd. exact Hx.
        -- intros j s Hj Hs. apply Hbefore in Hs; [| lia]. exact (Hfirst j s Hj Hs).
      * rewrite lookup_app_l by exact Hrange. rewrite Hi, <- Hd. reflexivity.
Qed.

Lemma scanned_forEach (rest seen : list RouteStop) (acc : nat * float) :
  scanned M currentLocation seen acc ->
  scanned M currentLocation (seen ++ rest)
          (forEach (RouteOptimizer.scan M currentLocation) rest (length seen) acc).
Proof.
  revert seen acc. induction rest as [| stop rest IH]; intros seen acc H.
  - rewrite app_nil_r. exact H.
  - cbn [forEach]. replace (seen ++ stop :: rest) with ((seen ++ [stop]) ++ rest)
      by (rewrite <- app_assoc; reflexivity).
    replace (S (length seen)) with (length (seen ++ [stop]))
      by (rewrite length_app; cbn; lia).
    apply IH, scanned_next, H.
Qed.

Lemma nearest_scan_scanned (pool : list RouteStop) :
  scanned M currentLocation pool (RouteOptimizer.nearest_scan M currentLocation pool).
Proof.
  apply (scanned_forEach pool []). left. split; [reflexivity |].
  intros j s Hj. discriminate.
Qed.

(** The scan ends on the stop that the rule selects. *)
Lemma nearest_scan_selected (pool : list RouteStop) :
  selected M currentLocation pool (fst (RouteOptimizer.nearest_scan M currentLocation pool)).
Proof.
  destruct (nearest_scan_scanned pool) as [[E Hnone] | [H _]].
  - right. rewrite E. split; [exact Hnone | reflexivity].
  - left. exact H.
Qed.

Lemma selected_in_range (pool : list RouteStop) (i : nat) :
  pool <> [] -> selected M currentLocation pool i -> (i < length pool)%nat.
Proof.
  intros Hne [(nearest & Hi & _) | [_ ->]].
  - exact (lookup_lt_Some _ _ _ Hi).
  - destruct pool; [contradiction | cbn; lia].
Qed.

(** The rule selects one stop. *)
Lemma selected_unique (pool : list RouteStop) (i i' : nat) :
  selected M currentLocation pool i -> selected M currentLocation pool i' -> i = i'.
Proof.
  assert (Hlt : forall a b na nb,
             pool !! a = Some na -> pool !! b = Some nb -> (a < b)%nat ->
             (distance_from M currentLocation na <? Infinity) = true ->
             (distance_from M currentLocation nb <? Infinity) = true ->
             (distance_from M currentLocation nb <? distance_from M currentLocation na) = false ->
             (distance_from M currentLocation na <=? distance_from M currentLocation nb) = false ->
             False).
  { intros a b na nb _ _ _ Ha Hb Hmin Hfirst.
    apply double_ltb_not_NaN in Ha as [Ha _]. apply double_ltb_not_NaN in Hb as [Hb _].
    rewrite (double_ltb_total _ _ Hb Ha Hmin) in Hfirst. discriminate. }
  intros [(n & Hi & Hinf & Hmin & Hfirst) | [Hnone ->]]
         [(n' & Hi' & Hinf' & Hmin' & Hfirst') | [Hnone' ->]].
  - destruct (Nat.lt_trichotomy i i') as [L | [E | L]]; [| exact E |]; exfalso.
    + exact (Hlt i i' n n' Hi Hi' L Hinf Hinf' (Hmin _ _ Hi') (Hfirst' _ _ L Hi)).
    + exact (Hlt i' i n' n Hi' Hi L Hinf' Hinf (Hmin' _ _ Hi) (Hfirst _ _ L Hi')).
  - rewrite (Hnone' _ _ Hi) in Hinf. discriminate.
  - rewrite (Hnone _ _ Hi') in Hinf'. discriminate.
  - reflexivity.
Qed.

End Scan64.

(** ** The loop of [optimizeRoute] on doubles *)

Section Loop64.

Import PrimFloat Binary64.
#[local] Set Warnings "-inexact-float".
Local Open Scope float_scope.

Variable M : MathLibrary.

Lemma nearest_scan_in_range (currentLocation : Location) (pool : list RouteStop) :
  pool <> [] ->
  (fst (RouteOptimizer.nearest_scan M currentLocation pool) < length pool)%nat.
Proof. intros H. apply (selected_in_range M currentLocation), nearest_scan_selected. exact H. Qed.

(** An iteration moves the selected stop from the pool to the end of the
    result and makes it the current location. *)
Lemma loop_body_Returned (v : RouteOptimizer.Locals) :
  RouteOptimizer.unvisited v <> [] ->
  let i := fst (RouteOptimizer.nearest_scan M (RouteOptimizer.currentLocation v)
                                            (RouteOptimizer.unvisited v)) in
  exists nearest,
    RouteOptimizer.unvisited v !! i = Some nearest
    /\ RouteOptimizer.loop_body M v
       = Returned {| RouteOptimizer.unvisited := delete i (RouteOptimizer.unvisited v);
                     RouteOptimizer.optimized := RouteOptimizer.optimized v ++ [nearest];
                     RouteOptimizer.currentLocation := location_of nearest |}.
Proof.
  intros Hne i.
  destruct (lookup_lt_is_Some_2 (RouteOptimizer.unvisited v) i) as [nearest Hi].
  { apply nearest_scan_in_range, Hne. }
  exists nearest. split; [exact Hi |].
  unfold RouteOptimizer.loop_body, splice. fold i.
  assert (E : take 1 (drop i (RouteOptimizer.unvisited v)) !! 0%nat = Some nearest).
  { rewrite lookup_take by lia. rewrite lookup_drop, Nat.add_0_r. exact Hi. }
  rewrite E, Nat.add_1_r, <- delete_take_drop. reflexivity.
Qed.

Lemma while_unvisited_Returned (fuel : nat) (v : RouteOptimizer.Locals) :
  (length (RouteOptimizer.unvisited v) <= fuel)%nat ->
  exists v',
    RouteOptimizer.while_unvisited M fuel v = Returned v'
    /\ RouteOptimizer.unvisited v' = []
    /\ RouteOptimizer.optimized v'
       = RouteOptimizer.optimized v
         ++ nearest_neighbour M (length (RouteOptimizer.unvisited v))
              (RouteOptimizer.currentLocation v) (RouteOptimizer.unvisited v).
Proof.
  revert v. induction fuel as [| fuel IH]; intros v Hlen.
  - exists v. destruct (RouteOptimizer.unvisited v) eqn:E; [| cbn in Hlen; lia].
    cbn. rewrite E. cbn. rewrite app_nil_r. auto.
  - destruct (RouteOptimizer.unvisited v) as [| s pool] eqn:E.
    + exists v. cbn. rewrite E. cbn. rewrite app_nil_r. auto.
    + destruct (loop_body_Returned v) as (nearest & Hi & Hbody); [rewrite E; discriminate |].
      rewrite E in Hi, Hbody.
      set (i := fst (RouteOptimizer.nearest_scan M (RouteOptimizer.currentLocation v) (s :: pool))) in *.
      pose proof (lookup_lt_Some _ _ _ Hi) as Hrange.
      destruct (IH {| RouteOptimizer.unvisited := delete i (s :: pool);
                      RouteOptimizer.optimized := RouteOptimizer.optimized v ++ [nearest];
                      RouteOptimizer.currentLocation := location_of nearest |})
        as (v' & Hrun & Hempty & Hout).
      { cbn [RouteOptimizer.unvisited]. rewrite length_delete by (rewrite Hi; eauto).
        cbn [length] in *. lia. }
      exists v'. split; [| split; [exact Hempty |]].
      * cbn [RouteOptimizer.while_unvisited]. rewrite E. cbn [length Nat.ltb Nat.leb].
        rewrite Hbody. exact Hrun.
      * rewrite Hout. cbn [RouteOptimizer.unvisited RouteOptimizer.optimized
                            RouteOptimizer.currentLocation].
        rewrite <- app_assoc. f_equal.
        change (length (s :: pool)) with (S (length pool)).
        cbn [nearest_neighbour]. fold i. rewrite Hi. cbn [app]. f_equal. f_equal.
        rewrite length_delete by (rewrite Hi; eauto). cbn [length]. lia.
Qed.

(** With as much fuel as there are stops, [optimizeRoute] returns. *)
Lemma optimizeRoute_Returned (fuel : nat) (stops : list RouteStop) (start : option Location) :
  (length stops <= fuel)%nat ->
  RouteOptimizer.optimizeRoute M fuel stops start = Returned (optimizeRoute_order M stops start).
Proof.
  intros Hfuel. unfold RouteOptimizer.optimizeRoute, optimizeRoute_order.
  destruct stops as [| first [| second rest]]; [reflexivity | reflexivity |].
  set (stops := first :: second :: rest) in *.
  replace (length stops <=? 1)%nat with false by reflexivity.
  set (current := match start with Some l => l | None => location_of first end).
  replace (match start with Some l => Some l | None => location_of <$> stops !! 0%nat end)
    with (Some current) by (destruct start; reflexivity).
  destruct (while_unvisited_Returned fuel
              {| RouteOptimizer.unvisited := stops; RouteOptimizer.optimized := [];
                 RouteOptimizer.currentLocation := current |} Hfuel)
    as (v' & Hrun & _ & Hout).
  rewrite Hrun, Hout. reflexivity.
Qed.

Lemma nearest_neighbour_greedy_order (n : nat) (currentLocation : Location) (pool : list RouteStop) :
  length pool = n ->
  greedy_order M currentLocation pool (nearest_neighbour M n currentLocation pool).
Proof.
  revert currentLocation pool. induction n as [| n IH]; intros currentLocation pool Hlen.
  - destruct pool; [constructor | discriminate].
  - cbn [nearest_neighbour].
    set (i := fst (RouteOptimizer.nearest_scan M currentLocation pool)).
    destruct (lookup_lt_is_Some_2 pool i) as [nearest Hi].
    { apply nearest_scan_in_range. destruct pool; [discriminate | discriminate]. }
    rewrite Hi. econstructor; [exact Hi | apply nearest_scan_selected |].
    apply IH. rewrite length_delete by (rewrite Hi; eauto). lia.
Qed.

(** The rule leaves no choice: it has one order. *)
Lemma greedy_order_unique (currentLocation : Location) (pool out out' : list RouteStop) :
  greedy_order M currentLocation pool out ->
  greedy_order M currentLocation pool out' ->
  out = out'.
Proof.
  intros H. revert out'. induction H as [cur | cur pool i nearest rest Hi Hsel Hrest IH];
    intros out' H'.
  - inversion H' as [| ? ? i' nearest' rest' Hi' _ _]; [reflexivity |]. subst.
    discriminate.
  - inversion H' as [| ? ? i' nearest' rest' Hi' Hsel' Hrest']; subst.
    + discriminate.
    + pose proof (selected_unique M cur pool i i' Hsel Hsel') as <-.
      assert (nearest' = nearest) as -> by congruence.
      f_equal. apply IH, Hrest'.
Qed.

End Loop64.

(** ** C9: the distance of a point to itself, and symmetry *)

Section SelfAndSymmetry.

Import PrimFloat Binary64.
#[local] Set Warnings "-inexact-float".
Local Open Scope float_scope.

(** C9, as stated, fails on doubles.  No library that conforms to ECMA-262
    gives 0 from every point with finite coordinates to itself: at latitude
    1e308 the product by [Math.PI] is [Infinity], whose cosine is [NaN]. *)
Lemma C9_self_distance_NaN :
  ~ exists M : MathLibrary,
      ecma262 M
      /\ forall lat lon : float,
           isFinite lat = true -> isFinite lon = true ->
           RouteOptimizer.calculateDistance M lat lon lat lon = 0.
Proof.
  intros (M & conforms & H). specialize (H 1e308 0 eq_refl eq_refl).
  rewrite (distance_NaN_from M conforms) in H by reflexivity.
  apply (f_equal isNaN) in H. vm_compute in H. discriminate H.
Qed.

(** C9, amended.  For every library that conforms to ECMA-262 and all
    doubles: the distance from a point to itself is [+0] when the point is
    tame (finite coordinates, finite square of the computed cosine of the
    latitude) and [NaN] when it is not; for a library whose cosine stays
    between -1 and 1 it is [+0] exactly when the longitude and the latitude
    in radians are finite; it is [NaN] when the latitude in radians is not
    finite, as at latitude 1e308, and [+0] on the equator; and when the
    sine of the library is odd, the distance from [a] to [b] is the same
    double as the distance from [b] to [a]. *)
Theorem C9_self_distance_and_symmetry_on_doubles (M : MathLibrary) (conforms : ecma262 M) :
  (forall lat lon : float,
      RouteOptimizer.calculateDistance M lat lon lat lon
      = if tame M lat lon then 0 else nan)
  /\ (bounded_cosine M ->
      forall lat lon : float,
        RouteOptimizer.calculateDistance M lat lon lat lon
        = if isFinite (lat * Math_PI / 180) && isFinite lon then 0 else nan)
  /\ (forall lat lon : float,
         isFinite (lat * Math_PI / 180) = false ->
         RouteOptimizer.calculateDistance M lat lon lat lon = nan)
  /\ RouteOptimizer.calculateDistance M 1e308 0 1e308 0 = nan
  /\ (forall lon : float,
         isFinite lon = true -> RouteOptimizer.calculateDistance M 0 lon 0 lon = 0)
  /\ (odd_sine M ->
      forall lat1 lon1 lat2 lon2 : float,
        RouteOptimizer.calculateDistance M lat1 lon1 lat2 lon2
        = RouteOptimizer.calculateDistance M lat2 lon2 lat1 lon1).
Proof.
  split; [exact (distance_self M conforms) |]. split; [| split; [| split; [| split]]].
  - intros bounded lat lon.
    rewrite (distance_self M conforms), (tame_bounded_cosine M conforms) by exact bounded.
    reflexivity.
  - intros lat lon H. apply (distance_NaN_from M conforms), H.
  - apply (distance_NaN_from M conforms). reflexivity.
  - intros lon H. rewrite (distance_self M conforms). unfold tame. rewrite H.
    change (0 * Math_PI / 180) with 0. rewrite (cos_zero M conforms). reflexivity.
  - intros odd. exact (distance_swap M odd).
Qed.

Lemma C9_self_distance_and_symmetry_on_doubles_witness :
  RouteOptimizer.calculateDistance Polynomial.library 10 20 10 20 = 0
  /\ RouteOptimizer.calculateDistance Polynomial.library 1e308 0 1e308 0 = nan
  /\ RouteOptimizer.calculateDistance Polynomial.library 0 0 0 1
     = RouteOptimizer.calculateDistance Polynomial.library 0 1 0 0.
Proof.
  destruct (C9_self_distance_and_symmetry_on_doubles Polynomial.library polynomial_conforms)
    as (_ & Hself & Hover & _ & _ & Hsym).
  split; [| split].
  - rewrite (Hself polynomial_bounded). reflexivity.
  - apply Hover. reflexivity.
  - apply Hsym, polynomial_odd.
Defined.

End SelfAndSymmetry.

(** ** C4: kilometres in the optimizer, metres in the directions service *)

Section Units64.

Import PrimFloat FloatOps Binary64.
#[local] Set Warnings "-inexact-float".
Local Open Scope float_scope.

(** C4, amended.  For every library and all doubles, the two functions
    compute the same angle with the same operations and scale it by their
    own radius: 6371 (kilometres) in the optimizer, 6371e3 (metres) in the
    directions service.  Where the computed angle of one degree is the
    double nearest to pi/180, the optimizer gives 111.19492664455873 and
    the directions service 111194.92664455874, which is neither the same
    number nor 1000 times it, the product 1000 * 111.19492664455873 being
    111194.92664455873. *)
Theorem C4_same_angle_two_radii (M : MathLibrary) :
  (forall lat1 lon1 lat2 lon2 : float,
      RouteOptimizer.calculateDistance M lat1 lon1 lat2 lon2
      = 6371 * angle M lat1 lon1 lat2 lon2
      /\ DirectionsService.calculateDistance M lat1 lon1 lat2 lon2
         = 6371e3 * angle M lat1 lon1 lat2 lon2)
  /\ (forall lat1 lon1 lat2 lon2 : float,
         angle M lat1 lon1 lat2 lon2 = 0.017453292519943295 ->
         RouteOptimizer.calculateDistance M lat1 lon1 lat2 lon2 = 111.19492664455873
         /\ DirectionsService.calculateDistance M lat1 lon1 lat2 lon2 = 111194.92664455874
         /\ 1000 * RouteOptimizer.calculateDistance M lat1 lon1 lat2 lon2 = 111194.92664455873
         /\ DirectionsService.calculateDistance M lat1 lon1 lat2 lon2
            <> RouteOptimizer.calculateDistance M lat1 lon1 lat2 lon2
         /\ DirectionsService.calculateDistance M lat1 lon1 lat2 lon2
            <> 1000 * RouteOptimizer.calculateDistance M lat1 lon1 lat2 lon2).
Proof.
  split; [intros; split; reflexivity |].
  intros lat1 lon1 lat2 lon2 E.
  rewrite kilometres_by_angle, metres_by_angle, E.
  repeat split; try reflexivity; apply double_neq; vm_compute; discriminate.
Qed.

Lemma C4_same_angle_two_radii_witness :
  RouteOptimizer.calculateDistance Polynomial.library 0 0 0 1 = 111.19492664455873
  /\ DirectionsService.calculateDistance Polynomial.library 0 0 0 1 = 111194.92664455874
  /\ DirectionsService.calculateDistance Polynomial.library 0 0 0 1
     <> 1000 * RouteOptimizer.calculateDistance Polynomial.library 0 0 0 1.
Proof.
  destruct (C4_same_angle_two_radii Polynomial.library) as [_ H].
  destruct (H 0 0 0 1) as (Hkm & Hm & _ & _ & Hne); [vm_compute; reflexivity |].
  split; [exact Hkm | split; [exact Hm | exact Hne]].
Defined.

End Units64.

(** ** C6: the total distance *)

Section Total64.

Import PrimFloat Binary64.
#[local] Set Warnings "-inexact-float".
Local Open Scope float_scope.

Variable M : MathLibrary.

Lemma forEach_add_leg_doubles (stops : list RouteStop) (i : nat) (total : float)
    (current : Location) :
  fst (forEach (RouteOptimizer.add_leg M) stops i (total, current))
  = fold_left add (legs M (current :: map location_of stops)) total.
Proof.
  revert i total current.
  induction stops as [| stop stops IH]; intros i total current; [reflexivity |].
  cbn [forEach map]. unfold RouteOptimizer.add_leg at 2. cbn [fst snd].
  rewrite IH. reflexivity.
Qed.

Lemma total_from_start (stops : list RouteStop) (start : Location) :
  RouteOptimizer.calculateTotalDistance M stops (Some start)
  = sum_numbers (legs M (start :: map location_of stops)).
Proof.
  destruct stops as [| first rest]; [reflexivity |].
  unfold RouteOptimizer.calculateTotalDistance. apply forEach_add_leg_doubles.
Qed.

(** Without a start the path begins with the leg from the first stop to
    itself. *)
Lemma total_from_first (first : RouteStop) (rest : list RouteStop) :
  RouteOptimizer.calculateTotalDistance M (first :: rest) None
  = sum_numbers (legs M (location_of first :: location_of first :: map location_of rest)).
Proof.
  unfold RouteOptimizer.calculateTotalDistance.
  apply (forEach_add_leg_doubles (first :: rest)).
Qed.

Lemma fold_add_NaN (l : list float) : fold_left add l nan = nan.
Proof.
  induction l as [| x l IH]; [reflexivity |].
  cbn [fold_left]. rewrite double_add_NaN_l. exact IH.
Qed.

Hypothesis conforms : ecma262 M.

Lemma first_leg (first : RouteStop) (rest : list RouteStop) :
  RouteOptimizer.calculateTotalDistance M (first :: rest) None
  = if tame M (latitude first) (longitude first)
    then sum_numbers (legs M (map location_of (first :: rest)))
    else nan.
Proof.
  rewrite total_from_first. unfold sum_numbers.
  change (legs M (location_of first :: location_of first :: map location_of rest))
    with (RouteOptimizer.calculateDistance M (latitude first) (longitude first)
                                             (latitude first) (longitude first)
          :: legs M (map location_of (first :: rest))).
  cbn [fold_left]. rewrite (distance_self M conforms).
  destruct (tame M (latitude first) (longitude first)).
  - reflexivity.
  - change (0 + nan) with nan. apply fold_add_NaN.
Qed.

End Total64.

Section TotalDistance.

Import PrimFloat Binary64.
#[local] Set Warnings "-inexact-float".
Local Open Scope float_scope.

(** C6, as stated, fails on doubles.  No library that conforms to ECMA-262
    gives 0 on every single stop with finite coordinates: for the stop at
    latitude 1e308 the leg from the stop to itself is [NaN]. *)
Lemma C6_single_stop_not_zero :
  ~ exists M : MathLibrary,
      ecma262 M
      /\ forall s : RouteStop,
           finite_stop s -> RouteOptimizer.calculateTotalDistance M [s] None = 0.
Proof.
  intros (M & conforms & H).
  specialize (H stop_beyond (conj eq_refl eq_refl)).
  rewrite (first_leg M conforms) in H.
  rewrite (overflow_not_tame M conforms) in H by reflexivity.
  apply (f_equal isNaN) in H. vm_compute in H. discriminate H.
Qed.

(** C6, amended.  For every library that conforms to ECMA-262:
    [calculateTotalDistance] is 0 on the empty list; with a start it is
    the sum, accumulated from 0 and from left to right, of the computed
    distances along the path start, s1, ..., sn; without a start the path
    is s1, s1, ..., sn, it begins with the leg from the first stop to
    itself.  That leg is [+0] when the first stop is tame (finite
    coordinates, finite square of the computed cosine of the latitude; for
    a library whose cosine stays between -1 and 1: finite longitude and
    finite latitude in radians): then a single stop gives 0 and the total
    is the sum along s1, ..., sn.  It is [NaN] otherwise, and so is the
    total: a single stop at latitude 1e308, or one whose coordinates are
    [NaN], gives [NaN]. *)
Theorem C6_total_distance_on_doubles (M : MathLibrary) (conforms : ecma262 M) :
  (forall start : option Location,
      RouteOptimizer.calculateTotalDistance M [] start = 0)
  /\ (forall (stops : list RouteStop) (start : Location),
         RouteOptimizer.calculateTotalDistance M stops (Some start)
         = sum_numbers (legs M (start :: map location_of stops)))
  /\ (forall (first : RouteStop) (rest : list RouteStop),
         RouteOptimizer.calculateTotalDistance M (first :: rest) None
         = sum_numbers (legs M (location_of first :: location_of first
                                  :: map location_of rest)))
  /\ (forall s : RouteStop,
         RouteOptimizer.calculateTotalDistance M [s] None
         = if tame M (latitude s) (longitude s) then 0 else nan)
  /\ (forall (first : RouteStop) (rest : list RouteStop),
         RouteOptimizer.calculateTotalDistance M (first :: rest) None
         = if tame M (latitude first) (longitude first)
           then sum_numbers (legs M (map location_of (first :: rest)))
           else nan)
  /\ (bounded_cosine M ->
      forall lat lon : float,
        tame M lat lon = isFinite (lat * Math_PI / 180) && isFinite lon)
  /\ RouteOptimizer.calculateTotalDistance M [stop_beyond] None = nan
  /\ RouteOptimizer.calculateTotalDistance M [stop_NaN] None = nan.
Proof.
  split; [reflexivity |]. split; [exact (total_from_start M) |].
  split; [exact (total_from_first M) |]. split; [| split; [| split; [| split]]].
  - intros s. rewrite (first_leg M conforms). reflexivity.
  - exact (first_leg M conforms).
  - intros bounded lat lon. apply (tame_bounded_cosine M conforms), bounded.
  - rewrite (first_leg M conforms), (overflow_not_tame M conforms) by reflexivity.
    reflexivity.
  - rewrite (first_leg M conforms). reflexivity.
Qed.

Lemma C6_total_distance_on_doubles_witness :
  RouteOptimizer.calculateTotalDistance Polynomial.library [stop_B] None = 0
  /\ RouteOptimizer.calculateTotalDistance Polynomial.library [stop_beyond] None = nan
  /\ RouteOptimizer.calculateTotalDistance Polynomial.library [stop_A; stop_B; stop_C] None
     = 333.58477993367621.
Proof.
  destruct (C6_total_distance_on_doubles Polynomial.library polynomial_conforms)
    as (_ & _ & _ & Hsingle & Hfirst & Htame & _ & _).
  split; [| split].
  - rewrite Hsingle, (Htame polynomial_bounded). reflexivity.
  - rewrite Hsingle, (Htame polynomial_bounded). reflexivity.
  - rewrite Hfirst, (Htame polynomial_bounded). vm_compute. reflexivity.
Defined.

End TotalDistance.

(** ** C2: each step takes the first stop at the least computed distance *)

Section Examples64.

Import PrimFloat Binary64.
#[local] Set Warnings "-inexact-float".
Local Open Scope float_scope.

Variable M : MathLibrary.

(** The index that the scan returns is the one the rule selects. *)
Lemma nearest_scan_index (currentLocation : Location) (pool : list RouteStop) (i : nat) :
  selected M currentLocation pool i ->
  fst (RouteOptimizer.nearest_scan M currentLocation pool) = i.
Proof.
  intros H. apply (selected_unique M currentLocation pool); [| exact H].
  apply nearest_scan_selected.
Qed.

Lemma nearest_scan_single (currentLocation : Location) (stop : RouteStop) :
  fst (RouteOptimizer.nearest_scan M currentLocation [stop]) = 0%nat.
Proof.
  pose proof (nearest_scan_in_range M currentLocation [stop]) as H.
  cbn [length] in H. assert ([stop] <> []) as Hne by discriminate.
  specialize (H Hne). lia.
Qed.

Lemma nearest_neighbour_next (n : nat) (currentLocation : Location) (pool : list RouteStop)
    (i : nat) (nearest : RouteStop) :
  selected M currentLocation pool i ->
  pool !! i = Some nearest ->
  nearest_neighbour M (S n) currentLocation pool
  = nearest :: nearest_neighbour M n (location_of nearest) (delete i pool).
Proof.
  intros Hs Hi. cbn [nearest_neighbour].
  rewrite (nearest_scan_index _ _ _ Hs), Hi. reflexivity.
Qed.

Lemma nearest_neighbour_last (currentLocation : Location) (stop : RouteStop) :
  nearest_neighbour M 1 currentLocation [stop] = [stop].
Proof. cbn [nearest_neighbour]. rewrite nearest_scan_single. reflexivity. Qed.

(** Two stops whose computed distances are the same double: the first one
    is selected. *)
Lemma selected_on_tie (currentLocation : Location) (first second : RouteStop) :
  distance_from M currentLocation second = distance_from M currentLocation first ->
  selected M currentLocation [first; second] 0.
Proof.
  intros E. destruct (distance_from M currentLocation first <? Infinity) eqn:Hinf.
  - left. exists first. split; [reflexivity |]. split; [exact Hinf |]. split.
    + intros [| [| j]] stop Hj; try discriminate; injection Hj as <-;
        rewrite ?E; apply double_ltb_irrefl.
    + intros j stop Hj. lia.
  - right. split; [| reflexivity].
    intros [| [| j]] stop Hj; try discriminate; injection Hj as <-; rewrite ?E; exact Hinf.
Qed.

(** The stops at longitudes 13.000000000000002 and 13 on the equator: the
    two differences of longitude, in radians, are the same double, and so
    are the two distances from the origin, whatever the library. *)
Lemma far_and_near_tie :
  distance_from M origin stop_near = distance_from M origin stop_far.
Proof. reflexivity. Qed.

Lemma far_before_near :
  optimizeRoute_order M [stop_far; stop_near] (Some origin) = [stop_far; stop_near].
Proof.
  unfold optimizeRoute_order. cbn [length].
  rewrite (nearest_neighbour_next 1 origin [stop_far; stop_near] 0 stop_far);
    [| apply selected_on_tie, far_and_near_tie | reflexivity].
  change (delete 0%nat [stop_far; stop_near]) with [stop_near].
  rewrite nearest_neighbour_last. reflexivity.
Qed.

Hypothesis conforms : ecma262 M.

Lemma distance_origin_A : distance_from M origin stop_A = 0.
Proof.
  change (distance_from M origin stop_A) with (RouteOptimizer.calculateDistance M 0 0 0 0).
  rewrite (distance_self M conforms). unfold tame.
  change (0 * Math_PI / 180) with 0. rewrite (cos_zero M conforms). reflexivity.
Qed.

(** The stops at (0,0), (0,1), (0,3) from the origin, for a library that
    computes 0 <= d(O,B) <= d(O,C). *)
Lemma order_A_B_C :
  (0 <=? distance_from M origin stop_B) = true ->
  (distance_from M origin stop_B <=? distance_from M origin stop_C) = true ->
  optimizeRoute_order M [stop_A; stop_B; stop_C] (Some origin) = [stop_A; stop_B; stop_C].
Proof.
  intros HB HBC. pose proof (double_leb_trans _ _ _ HB HBC) as HC.
  unfold optimizeRoute_order. cbn [length].
  rewrite (nearest_neighbour_next 2 origin [stop_A; stop_B; stop_C] 0 stop_A);
    [| | reflexivity].
  2:{ left. exists stop_A. split; [reflexivity |]. rewrite distance_origin_A.
      split; [reflexivity |]. split.
      - intros [| [| [| j]]] stop Hj; try discriminate; injection Hj as <-.
        + rewrite distance_origin_A. reflexivity.
        + apply double_leb_not_ltb, HB.
        + apply double_leb_not_ltb, HC.
      - intros j stop Hj. lia. }
  change (delete 0%nat [stop_A; stop_B; stop_C]) with [stop_B; stop_C].
  change (location_of stop_A) with origin.
  rewrite (nearest_neighbour_next 1 origin [stop_B; stop_C] 0 stop_B);
    [| | reflexivity].
  2:{ destruct (distance_from M origin stop_B <? Infinity) eqn:Hinf.
      - left. exists stop_B. split; [reflexivity |]. split; [exact Hinf |]. split.
        + intros [| [| j]] stop Hj; try discriminate; injection Hj as <-.
          * apply double_ltb_irrefl.
          * apply double_leb_not_ltb, HBC.
        + intros j stop Hj. lia.
      - right. split; [| reflexivity].
        intros [| [| j]] stop Hj; try discriminate; injection Hj as <-; [exact Hinf |].
        destruct (distance_from M origin stop_C <? Infinity) eqn:HinfC; [| reflexivity].
        rewrite <- Hinf. symmetry. exact (double_leb_ltb_trans _ _ _ HBC HinfC). }
  change (delete 0%nat [stop_B; stop_C]) with [stop_C].
  rewrite nearest_neighbour_last. reflexivity.
Qed.

(** From a location whose latitude in radians is not finite every computed
    distance is [NaN], and the scan ends on the first stop of the pool. *)
Lemma first_stop_when_no_distance (currentLocation : Location) (pool : list RouteStop) :
  isFinite (loc_latitude currentLocation * Math_PI / 180) = false ->
  fst (RouteOptimizer.nearest_scan M currentLocation pool) = 0%nat.
Proof.
  intros H. apply nearest_scan_index. right. split; [| reflexivity].
  intros j stop _. unfold distance_from.
  rewrite (distance_NaN_from M conforms) by exact H. reflexivity.
Qed.

(** From the finite location at latitude 1e308 every computed distance is
    [NaN]. *)
Lemma distance_from_beyond (stop : RouteStop) : distance_from M beyond stop = nan.
Proof. apply (distance_NaN_from M conforms). reflexivity. Qed.

Lemma order_from_beyond :
  optimizeRoute_order M [stop_C; stop_B] (Some beyond) = [stop_C; stop_B].
Proof.
  unfold optimizeRoute_order. cbn [length].
  rewrite (nearest_neighbour_next 1 beyond [stop_C; stop_B] 0 stop_C);
    [| apply selected_on_tie; rewrite !distance_from_beyond; reflexivity | reflexivity].
  change (delete 0%nat [stop_C; stop_B]) with [stop_B].
  rewrite nearest_neighbour_last. reflexivity.
Qed.

End Examples64.

Section NearestFirst.

Import PrimFloat Binary64.
#[local] Set Warnings "-inexact-float".
Local Open Scope float_scope.

(** C2, as stated, fails on doubles.  For no library that conforms to
    ECMA-262 does every step append a stop at a distance that is at most
    the distance of the other stops of the pool, even with finite
    coordinates throughout: from latitude 1e308 every computed distance is
    [NaN], no stop is at the least distance, and the first stop of the pool
    is taken. *)
Lemma C2_no_least_distance :
  ~ exists M : MathLibrary,
      ecma262 M
      /\ forall (stops out : list RouteStop) (start : Location),
           Forall finite_stop stops -> finite_location start ->
           RouteOptimizer.optimizeRoute M (length stops) stops (Some start) = Returned out ->
           least_first M start stops out.
Proof.
  intros (M & conforms & H).
  specialize (H [stop_C; stop_B] [stop_C; stop_B] beyond).
  assert (Hleast : least_first M beyond [stop_C; stop_B] [stop_C; stop_B]).
  { apply H.
    - repeat constructor.
    - split; reflexivity.
    - rewrite optimizeRoute_Returned by reflexivity.
      rewrite (order_from_beyond M conforms). reflexivity. }
  inversion Hleast as [| ? ? i nearest rest Hi Hmin _ _]; subst.
  specialize (Hmin i stop_C Hi). rewrite (distance_from_beyond M conforms) in Hmin.
  vm_compute in Hmin. discriminate Hmin.
Qed.

(** C2, amended.  For every library, every list of stops and every start,
    finite or not.  Each iteration of the loop takes the stop that the
    rule [selected] gives: the first stop of the pool at the least computed
    distance (a number below [Infinity], no stop of the pool at a smaller
    one, every earlier stop at a greater one or at [NaN]), or the first
    stop of the pool when no computed distance is below [Infinity]; it
    removes the stop from the pool, appends it to the result and makes it
    the current location.  With as much fuel as there are stops
    [optimizeRoute] returns the stops in that order, [greedy_order].  The
    rule selects one stop, so it has one order.  Distances are compared as
    the doubles that are computed: stops one ulp of longitude apart tie and
    keep their order.  For a library that conforms to ECMA-262: from a
    location whose latitude in radians is not finite every distance is
    [NaN] and the first stop of the pool is taken, as from latitude 1e308
    with the stops C and B, all of finite coordinates; and with stops at
    (0,0), (0,1), (0,3) and the start at the origin the order is
    [A, B, C] when the library computes 0 <= d(O,B) <= d(O,C). *)
Theorem C2_first_least_computed_distance (M : MathLibrary) :
  (forall v : RouteOptimizer.Locals,
      RouteOptimizer.unvisited v <> [] ->
      exists (i : nat) (nearest : RouteStop),
        selected M (RouteOptimizer.currentLocation v) (RouteOptimizer.unvisited v) i
        /\ RouteOptimizer.unvisited v !! i = Some nearest
        /\ RouteOptimizer.loop_body M v
           = Returned {| RouteOptimizer.unvisited := delete i (RouteOptimizer.unvisited v);
                         RouteOptimizer.optimized := RouteOptimizer.optimized v ++ [nearest];
                         RouteOptimizer.currentLocation := location_of nearest |})
  /\ (forall (stops : list RouteStop) (start : option Location),
      RouteOptimizer.optimizeRoute M (length stops) stops start
      = Returned (optimizeRoute_order M stops start))
  /\ (forall (first second : RouteStop) (rest : list RouteStop) (start : option Location),
         greedy_order M (match start with Some l => l | None => location_of first end)
           (first :: second :: rest)
           (optimizeRoute_order M (first :: second :: rest) start))
  /\ (forall (currentLocation : Location) (pool : list RouteStop) (i i' : nat),
         selected M currentLocation pool i -> selected M currentLocation pool i' -> i = i')
  /\ (forall (currentLocation : Location) (pool out out' : list RouteStop),
         greedy_order M currentLocation pool out ->
         greedy_order M currentLocation pool out' -> out = out')
  /\ (distance_from M origin stop_near = distance_from M origin stop_far
      /\ RouteOptimizer.optimizeRoute M 2 [stop_far; stop_near] (Some origin)
         = Returned [stop_far; stop_near])
  /\ (ecma262 M ->
      forall (currentLocation : Location) (pool : list RouteStop),
        isFinite (loc_latitude currentLocation * Math_PI / 180) = false ->
        (forall stop : RouteStop, distance_from M currentLocation stop = nan)
        /\ fst (RouteOptimizer.nearest_scan M currentLocation pool) = 0%nat)
  /\ (ecma262 M ->
      finite_location beyond
      /\ Forall finite_stop [stop_C; stop_B]
      /\ (forall stop : RouteStop, distance_from M beyond stop = nan)
      /\ RouteOptimizer.optimizeRoute M 2 [stop_C; stop_B] (Some beyond)
         = Returned [stop_C; stop_B])
  /\ (ecma262 M ->
      (0 <=? distance_from M origin stop_B) = true ->
      (distance_from M origin stop_B <=? distance_from M origin stop_C) = true ->
      RouteOptimizer.optimizeRoute M 3 [stop_A; stop_B; stop_C] (Some origin)
      = Returned [stop_A; stop_B; stop_C]).
Proof.
  split; [| split; [| split; [| split; [| split; [| split; [| split; [| split]]]]]]].
  - intros v Hne. destruct (loop_body_Returned M v Hne) as (nearest & Hi & Hbody).
    eexists _, nearest. split; [apply nearest_scan_selected |]. split; [exact Hi | exact Hbody].
  - intros stops start. apply optimizeRoute_Returned. lia.
  - intros first second rest start. apply nearest_neighbour_greedy_order. reflexivity.
  - exact (selected_unique M).
  - exact (greedy_order_unique M).
  - split; [apply far_and_near_tie |].
    rewrite optimizeRoute_Returned by reflexivity. rewrite far_before_near. reflexivity.
  - intros conforms currentLocation pool H. split.
    + intros stop. apply (distance_NaN_from M conforms), H.
    + apply (first_stop_when_no_distance M conforms), H.
  - intros conforms. split; [split; reflexivity |]. split.
    + repeat constructor.
    + split; [exact (distance_from_beyond M conforms) |].
      rewrite optimizeRoute_Returned by reflexivity.
      rewrite (order_from_beyond M conforms). reflexivity.
  - intros conforms HB HBC. rewrite optimizeRoute_Returned by reflexivity.
    rewrite (order_A_B_C M conforms HB HBC). reflexivity.
Qed.

Lemma C2_first_least_computed_distance_witness :
  RouteOptimizer.optimizeRoute Polynomial.library 3 [stop_A; stop_B; stop_C] (Some origin)
  = Returned [stop_A; stop_B; stop_C]
  /\ RouteOptimizer.optimizeRoute Polynomial.library 3 [stop_C; stop_B; stop_A] (Some origin)
     = Returned [stop_A; stop_B; stop_C].
Proof.
  destruct (C2_first_least_computed_distance Polynomial.library)
    as (_ & Hrun & _ & _ & _ & _ & _ & _ & HABC).
  split.
  - apply HABC; [exact polynomial_conforms | vm_compute; reflexivity | vm_compute; reflexivity].
  - transitivity (Returned (optimizeRoute_order Polynomial.library
                              [stop_C; stop_B; stop_A] (Some origin)));
      [exact (Hrun [stop_C; stop_B; stop_A] (Some origin)) | vm_compute; reflexivity].
Defined.

End NearestFirst.

(** ** Further properties on doubles *)

Section Screen64.

Import PrimFloat SpecFloat FloatOps FloatAxioms Binary64.
#[local] Set Warnings "-inexact-float".
Local Open Scope float_scope.


Lemma double_ltb_NaN_l (x y : float) : isNaN x = true -> (x <? y) = false.
Proof.
  intros H. destruct (x <? y) eqn:E; [| reflexivity].
  apply double_ltb_not_NaN in E as [E _]. congruence.
Qed.

Lemma double_eqb_NaN (x y : float) : isNaN x = true -> (x =? y) = false.
Proof.
  unfold isNaN. rewrite eqb_spec. unfold SFeqb, SFcompare.
  destruct (Prim2SF x); try discriminate. reflexivity.
Qed.

(** X1. The screen has its own copy of the haversine formula: for every
    library and all doubles it returns what [calculateDistance] of the
    optimizer returns.  For a library that conforms to ECMA-262, at the
    coordinates of a tame stop the arrival test only depends on the index,
    and from a location whose latitude in radians is not finite it is
    never met. *)
Theorem X1_screen_distance (M : MathLibrary) :
  (forall (from : Location) (stop : RouteStop),
      RouteMapScreen.calculateDistanceToStop M from stop
      = RouteOptimizer.calculateDistance M (loc_latitude from) (loc_longitude from)
                                           (latitude stop) (longitude stop))
  /\ (ecma262 M ->
      forall (stop : RouteStop) (currentStopIndex count : nat),
        tame M (latitude stop) (longitude stop) = true ->
        RouteMapScreen.arrived M (location_of stop) stop currentStopIndex count
        = (currentStopIndex <? count - 1)%nat)
  /\ (ecma262 M ->
      forall (from : Location) (stop : RouteStop) (currentStopIndex count : nat),
        isFinite (loc_latitude from * Math_PI / 180) = false ->
        RouteMapScreen.arrived M from stop currentStopIndex count = false).
Proof.
  split; [reflexivity |]. split.
  - intros conforms stop i n Htame. unfold RouteMapScreen.arrived.
    change (RouteMapScreen.calculateDistanceToStop M (location_of stop) stop)
      with (RouteOptimizer.calculateDistance M (latitude stop) (longitude stop)
                                               (latitude stop) (longitude stop)).
    rewrite (distance_self M conforms), Htame. reflexivity.
  - intros conforms from stop i n H. unfold RouteMapScreen.arrived.
    change (RouteMapScreen.calculateDistanceToStop M from stop)
      with (RouteOptimizer.calculateDistance M (loc_latitude from) (loc_longitude from)
                                               (latitude stop) (longitude stop)).
    rewrite (distance_NaN_from M conforms) by exact H. reflexivity.
Qed.

Lemma X1_screen_distance_witness :
  RouteMapScreen.arrived Polynomial.library (location_of stop_B) stop_B 0 3 = true
  /\ RouteMapScreen.arrived Polynomial.library beyond stop_B 0 3 = false.
Proof.
  destruct (X1_screen_distance Polynomial.library) as (_ & Hthere & Hnever).
  split.
  - rewrite (Hthere polynomial_conforms) by (vm_compute; reflexivity). reflexivity.
  - apply (Hnever polynomial_conforms). reflexivity.
Defined.

(** X2. The filter of [loadRouteDetails] keeps a stop exactly when neither
    coordinate is [NaN], [+0] or [-0].  It drops every stop on the equator
    or on the meridian of Greenwich, among them the three stops (0,0),
    (0,1), (0,3); it keeps infinite coordinates and a latitude of 1e308. *)
Theorem X2_hasValidCoords :
  (forall stop : RouteStop,
      RouteMapScreen.hasValidCoords stop = true
      <-> isNaN (latitude stop) = false /\ (latitude stop =? 0) = false
          /\ isNaN (longitude stop) = false /\ (longitude stop =? 0) = false)
  /\ (forall stops : list RouteStop,
         Forall (fun stop => latitude stop = 0 \/ latitude stop = neg_zero
                             \/ longitude stop = 0 \/ longitude stop = neg_zero) stops ->
         RouteMapScreen.validStops stops = [])
  /\ RouteMapScreen.validStops [stop_A; stop_B; stop_C] = []
  /\ RouteMapScreen.validStops
       [stop_at "north" 1e308 1; stop_beyond; stop_NaN; stop_at "pole" infinity 1]
     = [stop_at "north" 1e308 1; stop_at "pole" infinity 1].
Proof.
  assert (Hiff : forall stop : RouteStop,
             RouteMapScreen.hasValidCoords stop = true
             <-> isNaN (latitude stop) = false /\ (latitude stop =? 0) = false
                 /\ isNaN (longitude stop) = false /\ (longitude stop =? 0) = false).
  { intros stop. unfold RouteMapScreen.hasValidCoords, RouteMapScreen.truthy,
      RouteMapScreen.strict_neq.
    destruct (isNaN (latitude stop)), (latitude stop =? 0),
      (isNaN (longitude stop)), (longitude stop =? 0); cbn; intuition congruence. }
  split; [exact Hiff |]. split; [| split; reflexivity].
  intros stops H. induction H as [| stop stops Hstop _ IH]; [reflexivity |].
  unfold RouteMapScreen.validStops in *. cbn [List.filter]. rewrite IH.
  destruct (RouteMapScreen.hasValidCoords stop) eqn:E; [| reflexivity].
  apply Hiff in E as (_ & Hlat & _ & Hlon).
  destruct Hstop as [Z | [Z | [Z | Z]]]; rewrite Z in *; discriminate.
Qed.

End Screen64.

Section Steps64.

Import PrimFloat Binary64.
#[local] Set Warnings "-inexact-float".
Local Open Scope float_scope.

Variable M : MathLibrary.
Variable currentLocation : Location.





End Steps64.

Section CurrentStep.

Import PrimFloat Binary64.
#[local] Set Warnings "-inexact-float".
Local Open Scope float_scope.



End CurrentStep.
